(** * tspider: the concurrent aggregation engine of [common/common.go]

    A shallow embedding of the progress spinner, the availability prober
    ([Doctor]), the source gate ([GetAvailableSites], [GetAvailableSitesEx]),
    the query dispatcher ([CollectData], [CollectDataEx]), the search driver
    ([doSearch] of [cmd/tspider/main.go]) and the producer of the "no magnet"
    sentinel ([GetMagnet] of [ktorrent/torrenttop.go]); then of the rest of
    the program: the configuration store, the tables, the commands of
    [cmd/tspider/main.go] and [TorrentTop.Crawl].

    Goroutines are modelled by an explicit interleaving semantics: a pool of
    worker program counters advanced one atomic step at a time by a schedule,
    together with the [sync.WaitGroup] counter, the spinner's atomic counter
    and the buffered channel the workers hand their results to.  A function
    that waits on the pool takes the schedule as an argument and is [Blocked]
    as long as the schedule has not brought every goroutine to its end.

    Everything that depends on the outside is an argument of the model: the
    network ([Network]), the clock (the instants passed to [NewSpinner],
    [render] and the stop operations), the order in which [range] visits a
    map ([MapRange]), the formatting of floats ([FloatFmt]), the sources
    themselves ([Scraping], [ScrapingEx]), the JSON codec ([Json]), the sort
    ([Sort]), and the pages and library functions the scraper goes through
    ([Web]). *)

From Stdlib Require Import ZArith Lia Ascii OrdersEx.
From stdpp Require Import base list gmap strings pretty sorting.

Local Open Scope Z_scope.

(** ** The Go runtime, as far as the engine uses it *)

Module Go.

(** What a call of a Go function can come to: it returns, it panics, or it
    is still blocked (on a channel receive or on [wg.Wait()]). *)
Inductive outcome (A : Type) : Type :=
| Returned (a : A)
| Panicked (msg : string)
| Blocked.
Arguments Returned {A} a.
Arguments Panicked {A} msg.
Arguments Blocked {A}.

Definition bind {A B} (o : outcome A) (k : A -> outcome B) : outcome B :=
  match o with
  | Returned a => k a
  | Panicked msg => Panicked msg
  | Blocked => Blocked
  end.

(** Two's complement wrap-around of a [w]-bit signed integer. *)
Definition wrap (w : Z) (x : Z) : Z :=
  (x + 2 ^ (w - 1)) mod 2 ^ w - 2 ^ (w - 1).
Definition int32 (x : Z) : Z := wrap 32 x.
Definition int64 (x : Z) : Z := wrap 64 x.

(** A channel that is only ever closed, never sent on ([chan struct{}]). *)
Inductive signal : Type := Open | Closed.

(** [close(c)]: closing a closed channel is a run-time panic. *)
Definition close (c : signal) : outcome signal :=
  match c with
  | Open => Returned Closed
  | Closed => Panicked "close of closed channel"
  end.

(** [xs[i]]: indexing a slice out of range is a run-time panic. *)
Definition index {A} (xs : list A) (i : nat) : outcome A :=
  match xs !! i with
  | Some x => Returned x
  | None => Panicked "index out of range"
  end.

(** [time.Duration] constants, in nanoseconds. *)
Definition Millisecond : Z := 1000000.
Definition Second : Z := 1000 * Millisecond.
Definition Minute : Z := 60 * Second.

End Go.
Export Go.

#[global] Instance outcome_bind : MBind outcome :=
fun A B k o => Go.bind o k.
#[global] Instance outcome_ret : MRet outcome := @Returned.

(** ** The goroutine-per-item skeleton

  [Doctor], [CollectData], [CollectDataEx], [GetAvailableSites] and
  [GetAvailableSitesEx] all run the same skeleton:
<<
    for i, x := range jobs {
      wg.Add(1)
      go func(...) {
        defer wg.Done()
        r := body(i, x)
        spinner.IncrDone()        // not in Doctor
        if r is nothing { return }
        ch <- r                   // Doctor: results = append(results, r)
      }(...)
    }
    wg.Wait()
>>
  The channel is buffered with room for one message per job (and Doctor's
  slice grows under a mutex), so a hand-over never blocks. *)

Module Pool.
Section Pool.
Context {Job Msg : Type}.
(** what a worker computes before it reports: [None] when it has nothing to
    hand over *)
Variable body : nat -> Job -> option Msg.
(** does the worker call [spinner.IncrDone()] *)
Variable counts : bool.
Variable jobs : list Job.

(** Where a goroutine stands. *)
Inductive pc : Type :=
| Spawned                      (* created by [go], body not entered *)
| Computed (r : option Msg)    (* [r := body(i, x)] returned *)
| Counted (r : option Msg)     (* [spinner.IncrDone()] done *)
| Handed                       (* [ch <- r] done, or skipped for no result *)
| Finished.                    (* deferred [wg.Done()] ran *)

Record state : Type := mk {
  next : nat;          (* the coordinator's loop index *)
  workers : list pc;   (* one per goroutine launched so far *)
  wg : Z;              (* the WaitGroup counter *)
  done : Z;            (* spinner.done, an int32 *)
  ch : list Msg;       (* the channel's buffer, oldest message first *)
}.

Definition init (done0 : Z) : state :=
  {| next := 0; workers := []; wg := 0; done := done0; ch := [] |}.

(** The scheduler picks the coordinator or one goroutine. *)
Inductive action : Type := Coord | Run (i : nat).

Definition set_pc (i : nat) (w : pc) (p : state) : state :=
  {| next := next p; workers := <[i := w]> (workers p); wg := wg p;
     done := done p; ch := ch p |}.

Definition send (r : option Msg) (p : state) : state :=
  {| next := next p; workers := workers p; wg := wg p; done := done p;
     ch := ch p ++ option_list r |}.

(** [spinner.IncrDone()], on the pool's copy of the counter *)
Definition incr_done (p : state) : state :=
  {| next := next p; workers := workers p; wg := wg p;
     done := int32 (done p + 1); ch := ch p |}.

(** [wg.Add(d)]; the deferred [wg.Done()] is [wg.Add(-1)] *)

Definition wg_add (d : Z) (p : state) : state :=
  {| next := next p; workers := workers p; wg := wg p + d;
     done := done p; ch := ch p |}.

(** One atomic step.  An action that is not enabled (the loop is over, the
    goroutine does not exist yet or has exited) leaves the state alone. *)
Definition step (a : action) (p : state) : state :=
  match a with
  | Coord =>
      match jobs !! next p with
      | Some _ =>
          {| next := S (next p); workers := workers p ++ [Spawned];
             wg := wg p + 1; done := done p; ch := ch p |}
      | None => p
      end
  | Run i =>
      match workers p !! i with
      | Some Spawned =>
          match jobs !! i with
          | Some x => set_pc i (Computed (body i x)) p
          | None => p
          end
      | Some (Computed r) =>
          if counts then set_pc i (Counted r) (incr_done p)
          else set_pc i Handed (send r p)
      | Some (Counted r) => set_pc i Handed (send r p)
      | Some Handed => set_pc i Finished (wg_add (-1) p)
      | Some Finished | None => p
      end
  end.

Definition run (sched : list action) (p : state) : state :=
  foldl (fun q a => step a q) p sched.

(** [wg.Wait()] is reached once the loop is over and returns once the
    counter is zero. *)
Definition joined (p : state) : bool :=
  bool_decide (length jobs ≤ next p)%nat && bool_decide (wg p = 0).

(** A schedule that lets the loop finish and every goroutine run to its
    end, whatever happened before. *)
Definition drain : list action :=
  replicate (length jobs) Coord ++
  flat_map (fun i => replicate 4 (Run i)) (seq 0 (length jobs)).

(** *** What each goroutine has contributed so far *)

Definition alive (w : pc) : nat :=
  match w with Finished => 0 | _ => 1 end.

Definition ticked (w : pc) : nat :=
  match w with
  | Counted _ | Handed | Finished => if counts then 1 else 0
  | _ => 0
  end.

Definition result_of (i : nat) : option Msg :=
  x ← jobs !! i; body i x.

Definition handed (i : nat) (w : pc) : list Msg :=
  match w with
  | Handed | Finished => option_list (result_of i)
  | _ => []
  end.

Fixpoint outbox (k : nat) (ws : list pc) : list Msg :=
  match ws with
  | [] => []
  | w :: ws' => handed k w ++ outbox (S k) ws'
  end.

(** how far a goroutine has come *)
Definition rank (w : pc) : nat :=
  match w with
  | Spawned => 0
  | Computed _ => 1
  | Counted _ => 2
  | Handed => 3
  | Finished => 4
  end.

(** a goroutine that has computed holds the result of its own job *)
Definition coherent (i : nat) (w : pc) : Prop :=
  match w with
  | Computed r | Counted r => r = result_of i
  | _ => True
  end.

Fixpoint all_coherent (k : nat) (ws : list pc) : Prop :=
  match ws with
  | [] => True
  | w :: ws' => coherent k w /\ all_coherent (S k) ws'
  end.

(** all results the pool will hand over, in job order *)
Definition results : list Msg :=
  flat_map (fun i => option_list (result_of i)) (seq 0 (length jobs)).

Record inv (done0 : Z) (p : state) : Prop := {
  inv_next : next p = length (workers p);
  inv_bound : (length (workers p) ≤ length jobs)%nat;
  inv_wg : wg p = Z.of_nat (sum_list_with alive (workers p));
  inv_done : done p = int32 (done0 + Z.of_nat (sum_list_with ticked (workers p)));
  inv_ch : ch p ≡ₚ outbox 0 (workers p);
  inv_coh : all_coherent 0 (workers p);
}.

End Pool.
End Pool.

(** ** The progress spinner *)

(** [fmt.Sprintf] of a float ([%.1f] of [d.Seconds()], and the truncated
    [d.Minutes()] and [d.Seconds()]) is not reproduced: the two branches of
    [formatDuration] that go through [float64] are parameters. *)
Class FloatFmt : Type := {
  fmt_seconds : Z -> string;          (* Sprintf("%.1fs", d.Seconds()) *)
  fmt_minutes_seconds : Z -> string;  (* Sprintf("%dm%ds", int(d.Minutes()), int(d.Seconds())%60) *)
}.

Definition CR : string := String (Ascii.ascii_of_nat 13) "".
Definition LF : string := String (Ascii.ascii_of_nat 10) "".

Record Spinner : Type := mkSpinner {
  frames : list string;
  current : Z;
  message : string;
  start : Z;           (* a [time.Time], as nanoseconds on the monotonic clock *)
  total : Z;           (* int32 *)
  done : Z;            (* int32 *)
  stop : signal;
  stopped : signal;
  ticking : bool;      (* the goroutine of [Start] is in its loop *)
}.

Definition set_current (v : Z) (s : Spinner) : Spinner :=
  mkSpinner (frames s) v (message s) (start s) (total s) (done s)
            (stop s) (stopped s) (ticking s).
Definition set_message (v : string) (s : Spinner) : Spinner :=
  mkSpinner (frames s) (current s) v (start s) (total s) (done s)
            (stop s) (stopped s) (ticking s).
Definition set_total (v : Z) (s : Spinner) : Spinner :=
  mkSpinner (frames s) (current s) (message s) (start s) v (done s)
            (stop s) (stopped s) (ticking s).
Definition set_done (v : Z) (s : Spinner) : Spinner :=
  mkSpinner (frames s) (current s) (message s) (start s) (total s) v
            (stop s) (stopped s) (ticking s).
Definition set_stop (v : signal) (s : Spinner) : Spinner :=
  mkSpinner (frames s) (current s) (message s) (start s) (total s) (done s)
            v (stopped s) (ticking s).
Definition set_stopped (v : signal) (s : Spinner) : Spinner :=
  mkSpinner (frames s) (current s) (message s) (start s) (total s) (done s)
            (stop s) v (ticking s).
Definition set_ticking (v : bool) (s : Spinner) : Spinner :=
  mkSpinner (frames s) (current s) (message s) (start s) (total s) (done s)
            (stop s) (stopped s) v.

(** [NewSpinner(message)]; [now] is what [time.Now()] reads. *)
Definition NewSpinner (msg : string) (now : Z) : Spinner :=
  {| frames := ["⠋"; "⠙"; "⠹"; "⠸"; "⠼"; "⠴"; "⠦"; "⠧"; "⠇"; "⠏"];
     current := 0;
     message := msg;
     start := now;
     total := 0;
     done := 0;
     stop := Open;
     stopped := Open;
     ticking := false |}.

(** [atomic.StoreInt32(&s.total, int32(total))] *)
Definition SetTotal (n : Z) (s : Spinner) : Spinner := set_total (int32 n) s.

(** [atomic.AddInt32(&s.done, 1)] *)
Definition IncrDone (s : Spinner) : Spinner := set_done (int32 (done s + 1)) s.

Definition UpdateMessage (msg : string) (s : Spinner) : Spinner :=
  set_message msg s.

(** [time.Since(t)] read at instant [now]; [Time.Sub] saturates. *)
Definition Since (now t : Z) : Z :=
  Z.max (- 2 ^ 63) (Z.min (2 ^ 63 - 1) (now - t)).

Definition formatDuration `{FloatFmt} (d : Z) : string :=
  if d <? Second then pretty (d ÷ Millisecond) +:+ "ms"
  else if d <? Minute then fmt_seconds d
  else fmt_minutes_seconds d.

(** The three shapes of status line [render] prints, with the arguments of
    the [Sprintf] that builds each. *)
Inductive status : Type :=
| WithETA (frame msg : string) (done total : Z) (elapsedStr etaStr : string)
| Progress (frame msg : string) (total : Z) (elapsedStr : string)
| Plain (frame msg elapsedStr : string).

Definition pad10 : string := "          ".

Definition Sprint (st : status) : string :=
  match st with
  | WithETA frame msg done total elapsedStr etaStr =>
      CR +:+ frame +:+ " " +:+ msg +:+ " [" +:+ pretty done +:+ "/" +:+
      pretty total +:+ "] " +:+ elapsedStr +:+ " (ETA: " +:+ etaStr +:+ ")" +:+
      pad10
  | Progress frame msg total elapsedStr =>
      CR +:+ frame +:+ " " +:+ msg +:+ " [0/" +:+ pretty total +:+ "] " +:+
      elapsedStr +:+ pad10
  | Plain frame msg elapsedStr =>
      CR +:+ frame +:+ " " +:+ msg +:+ " " +:+ elapsedStr +:+ pad10
  end.

(** [elapsed / time.Duration(done)]: int64 division truncates towards zero. *)
Definition avgTime (elapsed done : Z) : Z := int64 (elapsed ÷ done).

(** [time.Duration(total-done) * avgTime]: the difference is an int32, the
    product an int64. *)
Definition remaining (elapsed total done : Z) : Z :=
  int64 (int32 (total - done) * avgTime elapsed done).

Definition status_line `{FloatFmt} (frame msg : string) (elapsed total done : Z)
  : status :=
  let elapsedStr := formatDuration elapsed in
  if (0 <? total) && (0 <? done) then
    let etaStr := formatDuration (remaining elapsed total done) in
    WithETA frame msg done total elapsedStr etaStr
  else if 0 <? total then
    Progress frame msg total elapsedStr
  else
    Plain frame msg elapsedStr.

(** [s.frames[s.current]] *)
Definition frame_at (s : Spinner) : outcome string :=
  if current s <? 0 then Panicked "index out of range"
  else index (frames s) (Z.to_nat (current s)).

(** [render], up to the [fmt.Print]: the status line it builds. *)
Definition render_status `{FloatFmt} (s : Spinner) (now : Z) : outcome status :=
  let msg := message s in
  let elapsed := Since now (start s) in
  frame ← frame_at s;
  mret (status_line frame msg elapsed (total s) (done s)).

(** [render]: the text printed. *)
Definition render `{FloatFmt} (s : Spinner) (now : Z) : outcome string :=
  st ← render_status s now;
  mret (Sprint st).

(** One turn of the loop of [Start] on [<-ticker.C], at instant [now]. *)
Definition tick `{FloatFmt} (now : Z) (s : Spinner) : outcome (Spinner * string) :=
  line ← render s now;
  if decide (frames s = []) then Panicked "integer divide by zero"
  else mret (set_current ((current s + 1) `rem` Z.of_nat (length (frames s))) s,
             line).

Fixpoint ticks `{FloatFmt} (nows : list Z) (s : Spinner)
  : outcome (Spinner * list string) :=
  match nows with
  | [] => mret (s, [])
  | now :: nows' =>
      '(s1, line) ← tick now s;
      '(s2, lines) ← ticks nows' s1;
      mret (s2, line :: lines)
  end.

(** [Start]: the loop goroutine is launched.  From then on it takes a turn
    ([tick]) every 80ms, concurrently with everything else; a turn reads the
    counters and the message and writes only [current] and the terminal.
    The turns taken while the gate and the dispatcher run bear on none of
    their results and are not traced; the turns between a stop request and
    the exit of the loop are the argument [late] of the stop operations. *)
Definition Start (s : Spinner) : Spinner := set_ticking true s.

(** [<-s.stopped] in a stop operation.  The loop may still take the ticker
    case for the instants [late] before it takes [<-s.stop]; it then returns
    and its deferred [close(s.stopped)] runs.  With no loop running nobody
    ever closes [s.stopped]. *)
Definition await_stopped `{FloatFmt} (late : list Z) (s : Spinner)
  : outcome (Spinner * list string) :=
  match stopped s with
  | Closed => mret (s, [])
  | Open =>
      if ticking s then
        '(s1, lines) ← ticks late s;
        c ← close (stopped s1);
        mret (set_ticking false (set_stopped c s1), lines)
      else Blocked
  end.

Definition clear_line : string :=
  CR +:+ "                                                              " +:+ CR.

(** [Stop]: returns the spinner and what reached the terminal meanwhile. *)
Definition Stop `{FloatFmt} (late : list Z) (s : Spinner)
  : outcome (Spinner * list string) :=
  c ← close (stop s);
  '(s1, lines) ← await_stopped late (set_stop c s);
  mret (s1, lines ++ [clear_line]).

(** [StopWithMessage(msg)]; [now] is the instant of its [time.Since]. *)
Definition StopWithMessage `{FloatFmt} (msg : string) (late : list Z) (now : Z)
  (s : Spinner) : outcome (Spinner * list string) :=
  c ← close (stop s);
  '(s1, lines) ← await_stopped late (set_stop c s);
  let elapsed := formatDuration (Since now (start s1)) in
  mret (s1, lines ++ [CR +:+ "✓ " +:+ msg +:+ " (" +:+ elapsed +:+ ")" +:+
                      "                                    " +:+ LF]).

(** ** Configuration and the network *)

Record SiteConfig : Type := mkSiteConfig {
  URL : string;
  Enabled : bool;
  Language : string;
}.

Record Config : Type := mkConfig {
  Sites : gmap string SiteConfig;
  UserAgent : string;
  Timeout : Z;
}.

(** What one GET comes to.  [http.NewRequest] can refuse the URL before
    anything is sent; otherwise [client.Do] takes [elapsed] nanoseconds and
    ends in a transport error (a timeout is one) or a response. *)
Inductive http_result : Type :=
| BadRequest (err : string)
| Failed (err : string) (elapsed : Z)
| Response (code : Z) (elapsed : Z).

(** The network, as seen through [http.NewRequest] and [client.Do]. *)
Class Network : Type := { http_get : string -> http_result }.

(** Go's [range] over a map visits every entry once, in an order of its own
    choosing. *)
Class MapRange : Type := {
  range_map : forall V : Type, gmap string V -> list (string * V);
  range_map_perm : forall V (m : gmap string V), range_map V m ≡ₚ map_to_list m;
}.
Arguments range_map {_ _} m.

(** ** The availability prober *)

Record SiteStatus : Type := mkSiteStatus {
  Name : string;
  StatusURL : string;     (* the field [URL] of [SiteStatus] *)
  Available : bool;
  Latency : Z;
  Error : string;
  StatusLanguage : string;  (* the field [Language] of [SiteStatus] *)
  StatusEnabled : bool;     (* the field [Enabled] of [SiteStatus] *)
}.

(** The body of the goroutine of [Doctor] for site [n] with configuration
    [s]: the status it appends to [results]. *)
Definition Doctor_probe `{Network} (n : string) (s : SiteConfig) : SiteStatus :=
  match http_get (URL s) with
  | BadRequest err =>
      (* [http.NewRequest] failed: append and return *)
      mkSiteStatus n (URL s) false 0 err (Language s) (Enabled s)
  | Failed err elapsed =>
      mkSiteStatus n (URL s) false elapsed err (Language s) (Enabled s)
  | Response code elapsed =>
      if code =? 200
      then mkSiteStatus n (URL s) true elapsed "" (Language s) (Enabled s)
      else mkSiteStatus n (URL s) false elapsed ("HTTP " +:+ pretty code)
                        (Language s) (Enabled s)
  end.

(** [language != "" && site.Language != language]: the site is skipped. *)
Definition skipped (language : string) (site : SiteConfig) : bool :=
  negb (String.eqb language "") && negb (String.eqb (Language site) language).

(** The sites [Doctor] launches a goroutine for, in the order its [range]
    meets them. *)
Definition examined `{MapRange} (c : Config) (language : string)
  : list (string * SiteConfig) :=
  filter (fun ns => skipped language ns.2 = false) (range_map (Sites c)).

Definition Doctor_body `{Network} (_ : nat) (ns : string * SiteConfig)
  : option SiteStatus :=
  Some (Doctor_probe ns.1 ns.2).

(** [Doctor(language)] on configuration [c]. *)
Definition Doctor `{Network} `{MapRange} (c : Config) (language : string)
  (sched : list Pool.action) : outcome (list SiteStatus) :=
  let jobs := examined c language in
  let p := Pool.run Doctor_body false jobs sched (Pool.init 0) in
  if Pool.joined jobs p then mret (Pool.ch p) else Blocked.

(** The duration [client.Do] took, when it was called. *)
Definition check_elapsed (r : http_result) : option Z :=
  match r with
  | BadRequest _ => None
  | Failed _ elapsed | Response _ elapsed => Some elapsed
  end.

(** ** The source gate *)

Definition CheckNetWorkFromURL `{Network} (url : string) : bool :=
  match http_get url with
  | BadRequest _ => false
  | Failed _ _ => false
  | Response code _ => code =? 200
  end.

(** [TorrentURL[t]]: a missing key reads as the empty string. *)
Definition url_of (TorrentURL : gmap string string) (t : string) : string :=
  default "" (TorrentURL !! t).

(** The goroutine of the gate for position [i] and site name [t]: the
    position is sent when the site answers. *)
Definition gate_body `{Network} (TorrentURL : gmap string string)
  (i : nat) (t : string) : option nat :=
  if CheckNetWorkFromURL (url_of TorrentURL t) then Some i else None.

(** [for v := range ch { newItems = append(newItems, oldItems[v]) }] *)
Fixpoint project {Handle : Type} (oldItems : list Handle) (vs : list nat)
  (newItems : list Handle) : outcome (list Handle) :=
  match vs with
  | [] => mret newItems
  | v :: vs' =>
      x ← index oldItems v;
      project oldItems vs' (newItems ++ [x])
  end.

(** The shared text of [GetAvailableSites] and [GetAvailableSitesEx], which
    differ in [items] and in the type of the handles ([Scraping] and
    [ScrapingEx]); the gates never call a handle, so its type is a
    parameter.  [now] is the instant [NewSpinner] reads. *)
Definition gate `{Network} {Handle : Type} (items : list string)
  (TorrentURL : gmap string string) (now : Z) (oldItems : list Handle)
  (sched : list Pool.action) : outcome (list Handle * Spinner) :=
  let spinner := NewSpinner "Checking sites" now in
  let spinner := SetTotal (Z.of_nat (length oldItems)) spinner in
  let spinner := Start spinner in
  let p := Pool.run (gate_body TorrentURL) true items sched
                    (Pool.init (done spinner)) in
  if Pool.joined items p then
    newItems ← project oldItems (Pool.ch p) [];
    mret (newItems, set_done (Pool.done p) spinner)
  else Blocked.

Definition GetAvailableSites `{Network} {Handle : Type} :=
  gate (Handle := Handle) ["torrenttop"].

Definition GetAvailableSitesEx `{Network} {Handle : Type} :=
  gate (Handle := Handle) ["nyaa"; "sukebe"].

(** ** The query dispatcher *)

(** A source: [Crawl(keyword)] returns a map, or [nil]. *)
Record Scraping : Type := { Crawl : string -> option (gmap string string) }.
Record ScrapingEx : Type :=
  { CrawlEx : string -> option (gmap string (list string)) }.

(** [strings.Replace(k, old, new, -1)] for one-byte [old] and [new]. *)
Fixpoint Replace (k : string) (old new : Ascii.ascii) : string :=
  match k with
  | EmptyString => EmptyString
  | String c k' =>
      String (if Ascii.eqb c old then new else c) (Replace k' old new)
  end.

Definition normalize (k : string) : string := Replace k " "%char "_"%char.

Definition no_magnet : string := "no magnet".

(** The body of the inner loop of [CollectData]. *)
Definition insert_record (m : gmap string string) (kv : string * string)
  : gmap string string :=
  let k := normalize kv.1 in
  if String.eqb kv.2 no_magnet then m else <[k := kv.2]> m.

(** The body of the inner loop of [CollectDataEx]. *)
Definition insert_recordEx (m : gmap string (list string))
  (kv : string * list string) : gmap string (list string) :=
  <[normalize kv.1 := kv.2]> m.

(** [for elem := range ch { for k, v := range elem { ... } }] *)
Definition merge `{MapRange} (elems : list (gmap string string))
  : gmap string string :=
  foldl (fun m elem => foldl insert_record m (range_map elem)) ∅ elems.

Definition mergeEx `{MapRange} (elems : list (gmap string (list string)))
  : gmap string (list string) :=
  foldl (fun m elem => foldl insert_recordEx m (range_map elem)) ∅ elems.

(** The three statements both dispatchers open with. *)
Definition begin_search (n : nat) (spinner : Spinner) : Spinner :=
  let spinner := UpdateMessage "Searching" spinner in
  let spinner := SetTotal (Z.of_nat n) spinner in
  set_done 0 spinner.

Definition CollectData `{MapRange} (s : list Scraping) (keyword : string)
  (spinner : Spinner) (sched : list Pool.action)
  : outcome (gmap string string * Spinner) :=
  let spinner := begin_search (length s) spinner in
  let p := Pool.run (fun _ v => Crawl v keyword) true s sched
                    (Pool.init (done spinner)) in
  if Pool.joined s p then
    mret (merge (Pool.ch p), set_done (Pool.done p) spinner)
  else Blocked.

Definition CollectDataEx `{MapRange} (s : list ScrapingEx) (keyword : string)
  (spinner : Spinner) (sched : list Pool.action)
  : outcome (gmap string (list string) * Spinner) :=
  let spinner := begin_search (length s) spinner in
  let p := Pool.run (fun _ v => CrawlEx v keyword) true s sched
                    (Pool.init (done spinner)) in
  if Pool.joined s p then
    mret (mergeEx (Pool.ch p), set_done (Pool.done p) spinner)
  else Blocked.

(** ** The producer of the sentinel: [TorrentTop.GetMagnet] *)

(** What [GetMagnet] gets to see of a detail page: the fetch fails, the
    document does not parse, or, for every [i.fas.fa-magnet] element in
    document order, the [href] attributes of the anchors under its parent
    ([None] for an anchor without one). *)
Inductive detail_page : Type :=
| FetchFailed
| ParseError (err : string)
| Page (icons : list (list (option string))).

Definition is_magnet (href : option string) : bool :=
  match href with
  | Some h => String.prefix "magnet:?" h
  | None => false
  end.

(** [EachWithBreak]: the first anchor with a magnet link, if any. *)
Definition first_magnet (anchors : list (option string)) : option string :=
  match List.find is_magnet anchors with
  | Some (Some h) => Some h
  | _ => None
  end.

Definition GetMagnet (page : detail_page) : string :=
  match page with
  | FetchFailed => "failed to fetch magnet"
  | ParseError err => "parse error: " +:+ err
  | Page icons =>
      let magnet :=
        foldl (fun magnet anchors =>
                 match first_magnet anchors with
                 | Some h => h
                 | None => magnet
                 end) "" icons in
      if String.eqb magnet "" then no_magnet else magnet
  end.

(** ** The search driver: [doSearch] *)

(** What a run of [doSearch] does, as seen from outside: the calls into
    package [common] and the text written to the terminal. *)
Inductive event : Type :=
| CallGate (candidates : nat)
| CallCollect (live : nat) (keyword : string)
| Terminal (text : string)
| CallPrint (rows : nat).

(** What a run depends on besides its arguments. *)
Record World : Type := mkWorld {
  TorrentURL : gmap string string;   (* the package variable *)
  TorrentTop : Scraping;             (* [&ktorrent.TorrentTop{}] *)
  Nyaa : ScrapingEx;                 (* [&jtorrent.Nyaa{}] *)
  SuKeBe : ScrapingEx;               (* [&jtorrent.SuKeBe{}] *)
  gate_now : Z;                      (* [time.Now()] in [NewSpinner] *)
  gate_sched : list Pool.action;     (* the interleaving of the gate *)
  collect_sched : list Pool.action;  (* the interleaving of the dispatcher *)
  late_ticks : list Z;               (* renders between stop and loop exit *)
  stop_now : Z;                      (* [time.Since] in [StopWithMessage] *)
}.

Definition no_sites_line : string :=
  "[!] No available sites. Use 'angel doctor' to check status." +:+ LF.

Definition found_message (results sites : nat) : string :=
  "Found " +:+ pretty results +:+ " result(s) from " +:+ pretty sites +:+
  " site(s)".

(** [doSearch]; [keyword] is [c.Args().First()], [lang] is
    [c.String("lang")].  The result is the trace and the returned error. *)
Definition doSearch `{FloatFmt} `{Network} `{MapRange} (w : World)
  (keyword lang : string) : outcome (list event * option string) :=
  if String.eqb keyword "" then
    mret ([], Some "please provide a search keyword")
  else if String.eqb lang "kr" then
    let sites0 := [TorrentTop w] in
    '(sites, spinner) ←
      GetAvailableSites (TorrentURL w) (gate_now w) sites0 (gate_sched w);
    if (length sites =? 0)%nat then
      '(_, out) ← Stop (late_ticks w) spinner;
      mret ([CallGate (length sites0)] ++ (Terminal <$> out) ++
            [Terminal no_sites_line], None)
    else
      '(data, spinner) ← CollectData sites keyword spinner (collect_sched w);
      '(_, out) ← StopWithMessage (found_message (size data) (length sites))
                                  (late_ticks w) (stop_now w) spinner;
      mret ([CallGate (length sites0); CallCollect (length sites) keyword] ++
            (Terminal <$> out) ++ [CallPrint (size data)], None)
  else
    let sites0 := [Nyaa w; SuKeBe w] in
    '(sites, spinner) ←
      GetAvailableSitesEx (TorrentURL w) (gate_now w) sites0 (gate_sched w);
    if (length sites =? 0)%nat then
      '(_, out) ← Stop (late_ticks w) spinner;
      mret ([CallGate (length sites0)] ++ (Terminal <$> out) ++
            [Terminal no_sites_line], None)
    else
      '(data, spinner) ← CollectDataEx sites keyword spinner (collect_sched w);
      '(_, out) ← StopWithMessage (found_message (size data) (length sites))
                                  (late_ticks w) (stop_now w) spinner;
      mret ([CallGate (length sites0); CallCollect (length sites) keyword] ++
            (Terminal <$> out) ++ [CallPrint (size data)], None).

(** ** Notions the statements below are phrased with *)

(** The frame index of a spinner is within its frames. *)
Definition frame_ok (s : Spinner) : Prop :=
  0 <= current s < Z.of_nat (length (frames s)).

(** The spinner the gate creates and starts, before its goroutines count. *)
Definition gate_spinner (now : Z) (n : nat) : Spinner :=
  Start (SetTotal (Z.of_nat n) (NewSpinner "Checking sites" now)).

(** Does the site at position [i] of the gate's name list pass the check? *)
Definition is_live `{Network} (TorrentURL : gmap string string)
  (items : list string) (i : nat) : bool :=
  match items !! i with
  | Some t => CheckNetWorkFromURL (url_of TorrentURL t)
  | None => false
  end.

(** The positions of the gate's name list whose site passes the check, in
    increasing order. *)
Definition live_positions `{Network} (TorrentURL : gmap string string)
  (items : list string) : list nat :=
  filter (fun i => is_live TorrentURL items i = true) (seq 0 (length items)).

(** The handles at the live positions, in their original order. *)
Definition survivors `{Network} {Handle : Type}
  (TorrentURL : gmap string string) (items : list string)
  (oldItems : list Handle) : list Handle :=
  omap (fun i => oldItems !! i) (live_positions TorrentURL items).

(** The non-nil maps the sources return for [keyword], in source order. *)
Definition crawled (s : list Scraping) (keyword : string)
  : list (gmap string string) :=
  omap (fun v => Crawl v keyword) s.

Definition crawledEx (s : list ScrapingEx) (keyword : string)
  : list (gmap string (list string)) :=
  omap (fun v => CrawlEx v keyword) s.

(** White space in the sense of [unicode.IsSpace], for one-byte characters:
    tab, line feed, vertical tab, form feed, carriage return and space. *)
Definition is_whitespace (c : Ascii.ascii) : bool :=
  let n := Ascii.nat_of_ascii c in
  ((9 <=? n)%nat && (n <=? 13)%nat) || (n =? 32)%nat.

Fixpoint has_whitespace (k : string) : bool :=
  match k with
  | EmptyString => false
  | String c k' => is_whitespace c || has_whitespace k'
  end.

Fixpoint has_space (k : string) : bool :=
  match k with
  | EmptyString => false
  | String c k' => Ascii.eqb c " " || has_space k'
  end.

(** The common shape of [insert_record] and [insert_recordEx]: the record is
    stored under its normalized key when [keep] accepts its value. *)
Definition insert_if {V : Type} (keep : V -> bool) (m : gmap string V)
  (kv : string * V) : gmap string V :=
  if keep kv.2 then <[normalize kv.1 := kv.2]> m else m.

Definition not_sentinel (v : string) : bool := negb (String.eqb v no_magnet).

(** The replacement [normalize] applies to each byte. *)
Definition space_to_underscore (c : Ascii.ascii) : Ascii.ascii :=
  if Ascii.eqb c " " then "_"%char else c.


(** The number of candidate sites of a run. *)
Definition candidates (lang : string) : nat :=
  if String.eqb lang "kr" then 1%nat else 2%nat.



(** ** Concrete worlds, to run the model on *)

(** a formatter that rounds down instead of to the nearest tenth *)
Definition floor_fmt : FloatFmt :=
  {| fmt_seconds := fun d => pretty (d ÷ Second) +:+ "s";
     fmt_minutes_seconds := fun d =>
       pretty (d ÷ Minute) +:+ "m" +:+ pretty ((d ÷ Second) `rem` 60) +:+ "s" |}.

(** [range] in the order of [map_to_list], and in the opposite order *)
Definition fixed_range : MapRange :=
  {| range_map := fun V m => map_to_list m;
     range_map_perm := fun V m => reflexivity (map_to_list m) |}.

Definition reversed_range : MapRange :=
  {| range_map := fun V m => reverse (map_to_list m);
     range_map_perm := fun V m => reverse_Permutation (map_to_list m) |}.

(** a network on which exactly the URLs of [up] answer 200 after 5ms, a URL
    that begins with a colon is refused by [http.NewRequest] (it has no
    scheme to parse), and every other request times out after 10s *)
Definition net_of (up : list string) : Network :=
  {| http_get := fun url =>
       if bool_decide (url ∈ up) then Response 200 (5 * Millisecond)
       else if String.prefix ":" url then BadRequest "missing protocol scheme"
       else Failed "context deadline exceeded" (10 * Second) |}.

Definition demo_urls : gmap string string :=
  <["torrenttop" := "https://torrenttop152.com"]>
    (<["nyaa" := "https://nyaa.si"]>
       (<["sukebe" := "https://sukebei.nyaa.si"]> ∅)).

Definition all_up : Network :=
  net_of ["https://torrenttop152.com"; "https://nyaa.si";
          "https://sukebei.nyaa.si"].

(** a configuration with one good site and one whose URL lost its scheme *)
Definition demo_config : Config :=
  {| Sites := <["nyaa" := mkSiteConfig "https://nyaa.si" true "jp"]>
                (<["torrenttop" := mkSiteConfig "://torrenttop152.com" true "kr"]> ∅);
     UserAgent := "Mozilla/5.0";
     Timeout := 10 |}.

(** a source returning a fixed map, and a source that fails *)
Definition fixed_source (m : gmap string string) : Scraping :=
  {| Crawl := fun _ => Some m |}.
Definition fixed_sourceEx (m : gmap string (list string)) : ScrapingEx :=
  {| CrawlEx := fun _ => Some m |}.
Definition dead_source : Scraping := {| Crawl := fun _ => None |}.
Definition dead_sourceEx : ScrapingEx := {| CrawlEx := fun _ => None |}.

(** two simple-tier sources with the same key, one without a magnet *)
Definition colliding_sources : list Scraping :=
  [fixed_source {["x" := "no magnet"]};
   fixed_source {["x" := "magnet:?xt=urn:btih:1"]}].

(** one simple-tier source with two titles that normalize to the same key,
    one of them without a magnet *)
Definition colliding_titles : list Scraping :=
  [fixed_source (<["a b" := "no magnet"]> {["a_b" := "magnet:?xt=urn:btih:1"]})].

(** a title with a tab in it *)
Definition tab_title : string := "a" +:+ String (Ascii.ascii_of_nat 9) "b".


(** ** More of [common.go]: strings and fetches *)

(** [lo <= b && b <= hi] on bytes *)
Definition byte_in (lo hi b : Ascii.ascii) : bool :=
  (Ascii.N_of_ascii lo <=? Ascii.N_of_ascii b)%N &&
  (Ascii.N_of_ascii b <=? Ascii.N_of_ascii hi)%N.

(** the condition of the loop of [RemoveNonAscII] *)
Definition is_plain (b : Ascii.ascii) : bool :=
  byte_in "a" "z" b || byte_in "A" "Z" b || byte_in "0" "9" b ||
  Ascii.eqb b " ".

(** [RemoveNonAscII]: the bytes that pass are written to the builder in
    order. *)
Fixpoint RemoveNonAscII (s : string) : string :=
  match s with
  | EmptyString => EmptyString
  | String b s' =>
      if is_plain b then String b (RemoveNonAscII s') else RemoveNonAscII s'
  end.

Definition is_alnum_or_underscore (b : Ascii.ascii) : bool :=
  byte_in "a" "z" b || byte_in "A" "Z" b || byte_in "0" "9" b ||
  Ascii.eqb b "_".

(** [GetResponseFromURL]: its second result, [ok]. *)
Definition GetResponseFromURL `{Network} (url : string) : bool :=
  match http_get url with
  | BadRequest _ => false
  | Failed _ _ => false
  | Response code _ => if negb (code =? 200) then false else true
  end.

(** The last line of [StopWithMessage(msg)] in a run of [doSearch]: the
    time shown is the time since the gate made the spinner. *)
Definition found_line `{FloatFmt} (w : World) (msg : string) : string :=
  CR +:+ "✓ " +:+ msg +:+ " (" +:+
  formatDuration (Since (stop_now w) (gate_now w)) +:+ ")" +:+
  "                                    " +:+ LF.

(** a run in which every site answers and the one simple-tier source has
    one record *)
Definition bright_world : World :=
  {| TorrentURL := demo_urls;
     TorrentTop := fixed_source {["Ubuntu 22.04" := "magnet:?xt=urn:btih:1"]};
     Nyaa := fixed_sourceEx ∅;
     SuKeBe := dead_sourceEx;
     gate_now := 0;
     gate_sched := Pool.drain ["nyaa"; "sukebe"];
     collect_sched := Pool.drain ["nyaa"; "sukebe"];
     late_ticks := [];
     stop_now := 1500 * Millisecond |}.

(** ** The configuration store of [common.go] *)

(** A Go map value is [nil] or a map.  Reading a nil map is reading an empty
    one; assigning to it panics; deleting from it does nothing. *)
Inductive gomap (V : Type) : Type :=
| nil_map
| made (m : gmap string V).
Arguments nil_map {V}.
Arguments made {V} m.

Definition entries {V : Type} (m : gomap V) : gmap string V :=
  match m with
  | nil_map => ∅
  | made m => m
  end.

(** [m[k] = v] *)
Definition assign {V : Type} (k : string) (v : V) (m : gomap V)
  : outcome (gomap V) :=
  match m with
  | nil_map => Panicked "assignment to entry in nil map"
  | made m => Returned (made (<[k := v]> m))
  end.

(** [delete(m, k)] *)
Definition remove {V : Type} (k : string) (m : gomap V) : gomap V :=
  match m with
  | nil_map => nil_map
  | made m => made (delete k m)
  end.

(** The struct [Config] as a [*Config] points to it, its fields under their
    JSON names; [Config] above is the same with the map read. *)
Record ConfigValue : Type := mkConfigValue {
  sites : gomap SiteConfig;
  user_agent : string;
  timeout_seconds : Z;
}.

Definition as_Config (c : ConfigValue) : Config :=
  mkConfig (entries (sites c)) (user_agent c) (timeout_seconds c).

Definition set_sites (m : gomap SiteConfig) (c : ConfigValue) : ConfigValue :=
  mkConfigValue m (user_agent c) (timeout_seconds c).

(** [encoding/json], as far as the store uses it.  [MarshalIndent] of a
    [Config] cannot fail. *)
Class Json : Type := {
  MarshalIndent : ConfigValue -> string;
  Unmarshal : string -> option ConfigValue;
}.

Definition default_user_agent : string :=
  "Mozilla/5.0 (Macintosh; Intel Mac OS X 10_15_7) AppleWebKit/537.36 (KHTML, like Gecko) Chrome/120.0.0.0 Safari/537.36".

Definition DefaultConfig : ConfigValue :=
  {| sites := made (list_to_map
       [("torrenttop", mkSiteConfig "https://torrenttop152.com" true "kr");
        ("torrentqq", mkSiteConfig "https://torrentqq282.com" false "kr");
        ("tshare", mkSiteConfig "https://tshare.org" false "kr");
        ("torrentmobile", mkSiteConfig "https://torrentmobile10.com" false "kr");
        ("ktxtorrent", mkSiteConfig "https://ktxtorrent.com" false "kr");
        ("jujutorrent", mkSiteConfig "https://jujutorrent.com" false "kr");
        ("torrentgram", mkSiteConfig "https://torrentgram.com" false "kr");
        ("torrentmax", mkSiteConfig "https://torrentmax.com" false "kr");
        ("torrentrj", mkSiteConfig "https://torrentrj.com" false "kr");
        ("torrentsee", mkSiteConfig "https://torrentsee.com" false "kr");
        ("torrentsir", mkSiteConfig "https://torrentsir.com" false "kr");
        ("torrentsome", mkSiteConfig "https://torrentsome.com" false "kr");
        ("torrenttoast", mkSiteConfig "https://torrenttoast.com" false "kr");
        ("torrentwiz", mkSiteConfig "https://torrentwiz.com" false "kr");
        ("torrentj", mkSiteConfig "https://torrentj.com" false "kr");
        ("torrentview", mkSiteConfig "https://torrentview.com" false "kr");
        ("ttobogo", mkSiteConfig "https://ttobogo.com" false "kr");
        ("nyaa", mkSiteConfig "https://nyaa.si" true "jp");
        ("sukebe", mkSiteConfig "https://sukebei.nyaa.si" true "jp")]);
     user_agent := default_user_agent;
     timeout_seconds := 10 |}.

(** The package variables, and the configuration file as the package sees
    it: its bytes when [os.ReadFile] succeeds, and whether [os.WriteFile]
    succeeds (with the text of its error when it does not). *)
Record Package : Type := mkPackage {
  pkg_TorrentURL : gmap string string;   (* [TorrentURL] *)
  pkg_UserAgent : string;                (* [UserAgent] *)
  pkg_config : option ConfigValue;       (* [config]; [None] is the nil pointer *)
  pkg_once : bool;                       (* [configOnce] has fired *)
  file : option string;
  writable : bool;
  write_error : string;
}.

Definition set_TorrentURL (v : gmap string string) (p : Package) : Package :=
  mkPackage v (pkg_UserAgent p) (pkg_config p) (pkg_once p) (file p)
            (writable p) (write_error p).
Definition set_UserAgent (v : string) (p : Package) : Package :=
  mkPackage (pkg_TorrentURL p) v (pkg_config p) (pkg_once p) (file p)
            (writable p) (write_error p).
Definition set_config (v : option ConfigValue) (p : Package) : Package :=
  mkPackage (pkg_TorrentURL p) (pkg_UserAgent p) v (pkg_once p) (file p)
            (writable p) (write_error p).
Definition set_once (v : bool) (p : Package) : Package :=
  mkPackage (pkg_TorrentURL p) (pkg_UserAgent p) (pkg_config p) v (file p)
            (writable p) (write_error p).
Definition set_file (v : option string) (p : Package) : Package :=
  mkPackage (pkg_TorrentURL p) (pkg_UserAgent p) (pkg_config p) (pkg_once p) v
            (writable p) (write_error p).

(** The package as the program starts, before [init] runs. *)
Definition fresh_package (f : option string) (w : bool) (e : string) : Package :=
  {| pkg_TorrentURL := ∅;
     pkg_UserAgent := default_user_agent;
     pkg_config := None;
     pkg_once := false;
     file := f;
     writable := w;
     write_error := e |}.

(** [for k, v := range m { if keep(v) { acc[k] = f(v) } }] *)
Definition select `{MapRange} {V W : Type} (keep : V -> bool) (f : V -> W)
  (m : gmap string V) (acc : gmap string W) : gmap string W :=
  foldl (fun acc kv => if keep kv.2 then <[kv.1 := f kv.2]> acc else acc)
        acc (range_map m).

(** [SaveConfig(c)]: the package afterwards and the error returned. *)
Definition SaveConfig `{Json} `{MapRange} (c : ConfigValue) (p : Package)
  : Package * option string :=
  let data := MarshalIndent c in
  if writable p then
    let p := set_file (Some data) p in
    let p := set_config (Some c) p in
    let p := set_TorrentURL (select Enabled URL (entries (sites c)) ∅) p in
    (p, None)
  else
    (p, Some ("failed to write config: " +:+ write_error p)).

(** [LoadConfig], which runs its body once. *)
Definition LoadConfig `{Json} `{MapRange} (p : Package) : Package :=
  if pkg_once p then p
  else
    let p := set_once true p in
    match file p with
    | None =>
        (* the file cannot be read: make the default and try to save it *)
        let p := set_config (Some DefaultConfig) p in
        (SaveConfig DefaultConfig p).1
    | Some data =>
        let c := match Unmarshal data with
                 | Some c => c
                 | None => DefaultConfig
                 end in
        let p := set_config (Some c) p in
        let p := set_TorrentURL
                   (select Enabled URL (entries (sites c)) (pkg_TorrentURL p)) p in
        set_UserAgent (user_agent c) p
    end.

(** [GetConfig]: the package afterwards; the pointer returned is its
    [pkg_config]. *)
Definition GetConfig `{Json} `{MapRange} (p : Package) : Package :=
  match pkg_config p with
  | None => LoadConfig p
  | Some _ => p
  end.

(** [init] *)
Definition init `{Json} `{MapRange} (p : Package) : Package := LoadConfig p.

(** dereferencing the pointer [GetConfig] returned *)
Definition deref (p : Package) : outcome ConfigValue :=
  match pkg_config p with
  | Some c => Returned c
  | None => Panicked "nil pointer dereference"
  end.

(** The four operations that edit the configuration.  Each mutates the map
    of the configuration in place, so the package's [config] sees the change
    at once, and then saves. *)
Definition SetSiteURL `{Json} `{MapRange} (name url : string) (p : Package)
  : outcome (Package * option string) :=
  let p := GetConfig p in
  c ← deref p;
  match entries (sites c) !! name with
  | None =>
      mret (p, Some ("site '" +:+ name +:+
                     "' not found. Use 'angel config add' to add new sites"))
  | Some site =>
      let site := mkSiteConfig url (Enabled site) (Language site) in
      m ← assign name site (sites c);
      let c := set_sites m c in
      mret (SaveConfig c (set_config (Some c) p))
  end.

Definition AddSite `{Json} `{MapRange} (name url language : string)
  (p : Package) : outcome (Package * option string) :=
  let p := GetConfig p in
  c ← deref p;
  match entries (sites c) !! name with
  | Some _ =>
      mret (p, Some ("site '" +:+ name +:+
                     "' already exists. Use 'angel config set-url' to update URL"))
  | None =>
      m ← assign name (mkSiteConfig url true language) (sites c);
      let c := set_sites m c in
      mret (SaveConfig c (set_config (Some c) p))
  end.

Definition EnableSite `{Json} `{MapRange} (name : string) (enabled : bool)
  (p : Package) : outcome (Package * option string) :=
  let p := GetConfig p in
  c ← deref p;
  match entries (sites c) !! name with
  | None => mret (p, Some ("site '" +:+ name +:+ "' not found"))
  | Some site =>
      let site := mkSiteConfig (URL site) enabled (Language site) in
      m ← assign name site (sites c);
      let c := set_sites m c in
      mret (SaveConfig c (set_config (Some c) p))
  end.

Definition RemoveSite `{Json} `{MapRange} (name : string) (p : Package)
  : outcome (Package * option string) :=
  let p := GetConfig p in
  c ← deref p;
  match entries (sites c) !! name with
  | None => mret (p, Some ("site '" +:+ name +:+ "' not found"))
  | Some _ =>
      let c := set_sites (remove name (sites c)) c in
      mret (SaveConfig c (set_config (Some c) p))
  end.

(** [GetEnabledSites(language)]: the package afterwards and the map
    returned. *)
Definition GetEnabledSites `{Json} `{MapRange} (language : string)
  (p : Package) : outcome (Package * gmap string SiteConfig) :=
  let p := GetConfig p in
  c ← deref p;
  mret (p, select (fun site => Enabled site && String.eqb (Language site) language)
                  (fun site => site) (entries (sites c)) ∅).

(** [TorrentURL] holds the URLs of exactly the enabled sites of the
    configuration. *)
Definition in_sync (p : Package) : Prop :=
  exists c, pkg_config p = Some c /\
    forall name,
      pkg_TorrentURL p !! name =
        match entries (sites c) !! name with
        | Some site => if Enabled site then Some (URL site) else None
        | None => None
        end.

(** a JSON codec for examples: a table of two files *)
Definition demo_json : Json :=
  {| MarshalIndent := fun c => "<config>";
     Unmarshal := fun data =>
       if String.eqb data "{}" then Some (mkConfigValue nil_map "" 0)
       else if String.eqb data "<default>" then Some DefaultConfig
       else None |}.

(** the configuration [c] with the site [name] set to [site], and without
    the site [name] *)
Definition with_site (name : string) (site : SiteConfig) (c : ConfigValue)
  : ConfigValue :=
  set_sites (made (<[name := site]> (entries (sites c)))) c.

Definition without_site (name : string) (c : ConfigValue) : ConfigValue :=
  set_sites (made (delete name (entries (sites c)))) c.

(** a package whose configuration is loaded from a file with the default
    configuration *)
Definition demo_package (w : bool) : Package :=
  {| pkg_TorrentURL := demo_urls;
     pkg_UserAgent := default_user_agent;
     pkg_config := Some DefaultConfig;
     pkg_once := true;
     file := Some "<default>";
     writable := w;
     write_error := "read-only file system" |}.

(** ** The tables of [common.go] *)

(** A [less] for which the sorts of package [sort] do sort: no two elements
    are less than each other, and an element is less than another only by
    being less than a third or having the third less than the other. *)
Definition strict_weak {A : Type} (less : A -> A -> bool) : Prop :=
  (forall x y, less x y = true -> less y x = false) /\
  (forall x y z, less x z = true -> less x y = true \/ less y z = true).

(** [sort.Slice], [sort.SliceStable] and [sort.Strings]: they permute the
    slice, and for such a [less] no element ends up after one it is less
    than.  Which of several such orders results is left open (a stable sort
    is one of them). *)
Class Sort : Type := {
  sort_slice : forall A : Type, (A -> A -> bool) -> list A -> list A;
  sort_slice_perm : forall A less l, sort_slice A less l ≡ₚ l;
  sort_slice_sorted : forall A less l,
    strict_weak less ->
    StronglySorted (fun x y => less y x = false) (sort_slice A less l);
}.
Arguments sort_slice {_ _} less l.

(** [if len(s) > limit { s = s[:keep] + "..." }] *)
Definition truncate (limit keep : nat) (s : string) : string :=
  if (limit <? String.length s)%nat then String.substring 0 keep s +:+ "..."
  else s.

(** The arguments of the [Printf] of one row of [PrintDoctorStatus]. *)
Record DoctorRow : Type := mkDoctorRow {
  row_site : string;
  row_url : string;
  row_status : string;
  row_enabled : string;
  row_latency : string;
  row_error : string;
}.

Definition doctor_row (s : SiteStatus) : DoctorRow :=
  {| row_site := Name s;
     row_url := truncate 38 35 (StatusURL s);
     row_status := if Available s then "OK" else "DOWN";
     row_enabled := if StatusEnabled s then "Yes" else "No";
     row_latency := pretty (Latency s ÷ Millisecond) +:+ "ms";
     row_error := truncate 25 22 (Error s) |}.

(** What [PrintDoctorStatus] prints between its header and its rules: the
    rows, and the three numbers of the line "Total: ... sites, ...
    available, ... down". *)
Record DoctorTable : Type := mkDoctorTable {
  table_rows : list DoctorRow;
  table_total : Z;
  table_available : Z;
  table_down : Z;
}.

Definition PrintDoctorStatus `{Sort} (statuses : list SiteStatus) : DoctorTable :=
  let statuses := sort_slice (fun a b => String.ltb (Name a) (Name b)) statuses in
  let '(available, rows) :=
    foldl (fun '(available, rows) s =>
             ((if Available s then available + 1 else available),
              rows ++ [doctor_row s]))
          (0, []) statuses in
  {| table_rows := rows;
     table_total := Z.of_nat (length statuses);
     table_available := available;
     table_down := Z.of_nat (length statuses) - available |}.

(** The action of the command [doctor]: what it prints after the line
    "[*] Checking torrent site availability...". *)
Definition doctor_command `{Network} `{MapRange} `{Sort} (c : Config)
  (lang : string) (sched : list Pool.action) : outcome DoctorTable :=
  statuses ← Doctor c lang sched;
  mret (PrintDoctorStatus statuses).

(** [PrintData]: the rows appended to the table, title first. *)
Definition PrintData `{MapRange} `{Sort} (data : gmap string string)
  : list (list string) :=
  let matrix := foldl (fun matrix kv => matrix ++ [[kv.1; kv.2]]) []
                      (range_map data) in
  sort_slice (fun a b => String.ltb (default "" (head b)) (default "" (head a)))
             matrix.

(** [PrintDataEx]: the rows appended to the table, in the order of the
    [range]. *)
Definition PrintDataEx `{MapRange} (data : gmap string (list string))
  : list (list string) :=
  foldl (fun rows kv => rows ++ [kv.1 :: kv.2]) [] (range_map data).

(** The row [ListSites] appends for [name]; [c.Sites[name]] of a missing
    name is the zero [SiteConfig]. *)
Definition site_row (c : ConfigValue) (name : string) : list string :=
  let site := default (mkSiteConfig "" false "") (entries (sites c) !! name) in
  [name; URL site; Language site; if Enabled site then "Yes" else "No"].

(** [ListSites]: the rows appended to the table. *)
Definition ListSites `{Json} `{MapRange} `{Sort} (p : Package)
  : outcome (Package * list (list string)) :=
  let p := GetConfig p in
  c ← deref p;
  let names := foldl (fun names kv => names ++ [kv.1]) []
                     (range_map (entries (sites c))) in
  let names := sort_slice String.ltb names in
  mret (p, foldl (fun rows name => rows ++ [site_row c name]) [] names).

(** "not after": the order a sort by [less] leaves between an element and a
    later one *)
Definition not_after {A : Type} (less : A -> A -> bool) : relation A :=
  fun x y => less y x = false.

#[global] Instance not_after_dec {A : Type} (less : A -> A -> bool)
  : RelDecision (not_after less) :=
  fun x y => decide (less y x = false).

(** a sort for examples: merge sort *)
Definition merge_sorter : Sort.
Proof.
  apply (Build_Sort (fun A less l => merge_sort (not_after less) l)).
  - intros A less l. apply merge_sort_Permutation.
  - intros A less l [Hasym Hneg]. apply StronglySorted_merge_sort.
    + intros x y z Hxy Hyz. unfold not_after in *.
      destruct (less z x) eqn:Hzx; [|reflexivity].
      destruct (Hneg z y x Hzx); congruence.
    + intros x y. unfold not_after.
      destruct (less y x) eqn:Hyx; [right; by apply Hasym|by left].
Defined.

(** ** The commands of [cmd/tspider/main.go] *)

(** [c.Args().Get(i)]: the empty string when there is no such argument;
    [c.Args().First()] is [c.Args().Get(0)]. *)
Definition arg (args : list string) (i : nat) : string := default "" (args !! i).

(** The action of the command [search]: [c.NArg()] is the number of
    arguments. *)
Definition search_action `{FloatFmt} `{Network} `{MapRange} (w : World)
  (args : list string) (lang : string) : outcome (list event * option string) :=
  if (length args =? 0)%nat then
    mret ([], Some "please provide a search keyword")
  else doSearch w (arg args 0) lang.

(** The subcommands of [config] that edit the configuration. *)
Inductive config_edit : Type := SetUrl | Add | Remove | Enable | Disable.

(** How each of them ends: with the error of the edit, or with a line on
    standard output. *)
Definition report (line : string) (r : Package * option string)
  : Package * list string * option string :=
  match r.2 with
  | Some err => (r.1, [], Some err)
  | None => (r.1, [line +:+ LF], None)
  end.

(** The action of [config set-url], [add], [remove], [enable], [disable] on
    arguments [args]: the package afterwards, what is printed, and the error
    returned. *)
Definition config_action `{Json} `{MapRange} (cmd : config_edit)
  (args : list string) (p : Package)
  : outcome (Package * list string * option string) :=
  match cmd with
  | SetUrl =>
      if (length args <? 2)%nat then
        mret (p, [], Some "usage: angel config set-url <site> <new-url>")
      else
        let site := arg args 0 in
        let url := arg args 1 in
        r ← SetSiteURL site url p;
        mret (report ("[+] Updated " +:+ site +:+ " URL to: " +:+ url) r)
  | Add =>
      if (length args <? 3)%nat then
        mret (p, [], Some ("usage: angel config add <name> <url> <language>" +:+
                           LF +:+ "  language: kr or jp"))
      else
        let name := arg args 0 in
        let url := arg args 1 in
        let lang := arg args 2 in
        if negb (String.eqb lang "kr") && negb (String.eqb lang "jp") then
          mret (p, [], Some "language must be 'kr' or 'jp'")
        else
          r ← AddSite name url lang p;
          mret (report ("[+] Added site: " +:+ name +:+ " (" +:+ url +:+ ")") r)
  | Remove =>
      if (length args =? 0)%nat then
        mret (p, [], Some "please provide a site name")
      else
        let name := arg args 0 in
        r ← RemoveSite name p;
        mret (report ("[+] Removed site: " +:+ name) r)
  | Enable =>
      if (length args =? 0)%nat then
        mret (p, [], Some "please provide a site name")
      else
        r ← EnableSite (arg args 0) true p;
        mret (report ("[+] Enabled: " +:+ arg args 0) r)
  | Disable =>
      if (length args =? 0)%nat then
        mret (p, [], Some "please provide a site name")
      else
        r ← EnableSite (arg args 0) false p;
        mret (report ("[+] Disabled: " +:+ arg args 0) r)
  end.

(** every configured site has one of the two languages the commands know *)
Definition known_languages (c : ConfigValue) : Prop :=
  forall name site,
    entries (sites c) !! name = Some site ->
    Language site = "kr" \/ Language site = "jp".

(** ** [TorrentTop.Crawl] of [ktorrent/torrenttop.go] *)

(** An element matched by [.topic-item a], as [getData] reads it: its
    [title] and [href] attributes, [None] for a missing one. *)
Record anchor : Type := mkAnchor {
  attr_title : option string;
  attr_href : option string;
}.

(** What [getData] gets to see of the search page: no response, a body that
    does not parse, or the matched elements in document order. *)
Inductive search_page : Type :=
| NoResponse
| NoDocument
| Topics (anchors : list anchor).

(** The web and the library functions the scraper goes through.  [URLJoin]
    is [None] when one of its [url.Parse] fails: it then calls [log.Fatal],
    which ends the process. *)
Class Web : Type := {
  QueryEscape : string -> string;
  TrimSpace : string -> string;
  URLJoin : string -> string -> option string;
  get_search : string -> search_page;
  get_detail : string -> detail_page;
}.

(** How a call that may end the process ends: the process has exited, the
    call is still waiting, or it has returned. *)
Inductive ending (A : Type) : Type :=
| Exited
| Waiting
| Ended (a : A).
Arguments Exited {A}.
Arguments Waiting {A}.
Arguments Ended {A} a.

Module ktorrent.
Section ktorrent.
Context `{Web} `{MapRange}.
Variable TorrentURL : gmap string string.

(** [t.SearchURL] after [t.initialize(keyword)] *)
Definition SearchURL (keyword : string) : string :=
  url_of TorrentURL "torrenttop" +:+ "/search/index?keywords=" +:+
  QueryEscape keyword.

(** the elements [getData] starts a goroutine for: those with both
    attributes *)
Definition topic (a : anchor) : option (string * string) :=
  title ← attr_title a; href ← attr_href a; Some (title, href).

(** [URLJoin(common.TorrentURL[t.Name], href)] *)
Definition join (th : string * string) : option string :=
  URLJoin (url_of TorrentURL "torrenttop") th.2.

(** The body of the goroutine for the element with [title] and [href]: the
    pair it stores, unless [URLJoin] ends the process. *)
Definition getData_body (_ : nat) (th : string * string)
  : option (string * string) :=
  fullURL ← join th;
  Some (TrimSpace th.1, GetMagnet (get_detail (TrimSpace fullURL))).

(** [m.Store(key, value)] *)
Definition Store (m : gmap string string) (kv : string * string)
  : gmap string string :=
  <[kv.1 := kv.2]> m.

Definition entered (w : @Pool.pc (string * string)) : bool :=
  match w with
  | Pool.Spawned => false
  | _ => true
  end.

(** some goroutine has entered its body and called [log.Fatal] *)
Definition fatal (jobs : list (string * string))
  (ws : list (@Pool.pc (string * string))) : bool :=
  existsb (fun wj => entered wj.1 && negb (bool_decide (is_Some (join wj.2))))
          (zip ws jobs).

(** [getData]; the assignment to [t.ScrapedData], which nothing reads, is
    left out. *)
Definition getData (url : string) (sched : list Pool.action)
  : ending (option (gmap string string)) :=
  match get_search url with
  | NoResponse | NoDocument => Ended None
  | Topics anchors =>
      let jobs := omap topic anchors in
      let p := Pool.run getData_body false jobs sched (Pool.init 0) in
      if fatal jobs (Pool.workers p) then Exited
      else if Pool.joined jobs p then Ended (Some (foldl Store ∅ (Pool.ch p)))
      else Waiting
  end.

(** [Crawl]: [data.Range] visits the entries of the [sync.Map] in an order
    of its own. *)
Definition Crawl (keyword : string) (sched : list Pool.action)
  : ending (option (gmap string string)) :=
  match getData (SearchURL keyword) sched with
  | Ended (Some data) => Ended (Some (foldl Store ∅ (range_map data)))
  | r => r
  end.

End ktorrent.
End ktorrent.

(** the titles [Crawl] stores records under *)
Definition stored_titles `{Web} (anchors : list anchor) : list string :=
  (fun th => TrimSpace th.1) <$> omap ktorrent.topic anchors.

(** what an edit leaves behind: the configuration the package sees, and
    whether it reached the file *)
Definition left_behind `{Json} (known : Prop) (c : ConfigValue)
  (r : Package * option string) : Prop :=
  exists c', pkg_config r.1 = Some c' /\
    (known_languages c -> known -> known_languages c') /\
    (r.2 = None -> in_sync r.1 /\ file r.1 = Some (MarshalIndent c')).


(** a web for examples: three topics, the second without a link, and a
    detail page with a magnet link for the first only *)
Definition demo_web : Web :=
  {| QueryEscape := fun s => s;
     TrimSpace := fun s => s;
     URLJoin := fun base rel =>
       if String.prefix ":" rel then None else Some (base +:+ "/bbs/" +:+ rel);
     get_search := fun url =>
       if String.eqb url "https://torrenttop152.com/search/index?keywords=ubuntu"
       then Topics [mkAnchor (Some "ubuntu 24.04") (Some "1.html");
                    mkAnchor (Some "ubuntu 22.04") None;
                    mkAnchor (Some "ubuntu 20.04") (Some "3.html")]
       else if String.eqb url "https://torrenttop152.com/search/index?keywords=debian"
       then Topics [mkAnchor (Some "debian 12") (Some "://4.html")]
       else NoResponse;
     get_detail := fun url =>
       if String.eqb url "https://torrenttop152.com/bbs/1.html"
       then Page [[None; Some "magnet:?xt=urn:btih:24"]]
       else FetchFailed |}.

(** a page on which [GetMagnet] finds no magnet link: it parsed, and no
    magnet icon has an anchor with such a link under its parent *)
Definition magnetless (page : detail_page) : bool :=
  match page with
  | Page icons =>
      forallb (fun anchors => bool_decide (first_magnet anchors = None)) icons
  | _ => false
  end.

(** * Properties *)

(** ** Machine integers *)

Lemma wrap_idem w x : 0 < w -> wrap w (wrap w x) = wrap w x.
Proof.
  intros Hw. unfold wrap.
  replace ((x + 2 ^ (w - 1)) mod 2 ^ w - 2 ^ (w - 1) + 2 ^ (w - 1))
    with ((x + 2 ^ (w - 1)) mod 2 ^ w) by lia.
  rewrite Z.mod_mod; [done|]. apply Z.pow_nonzero; lia.
Qed.

Lemma wrap_add_l w x y : 0 < w -> wrap w (wrap w x + y) = wrap w (x + y).
Proof.
  intros Hw. unfold wrap. f_equal.
  replace ((x + 2 ^ (w - 1)) mod 2 ^ w - 2 ^ (w - 1) + y + 2 ^ (w - 1))
    with ((x + 2 ^ (w - 1)) mod 2 ^ w + y) by lia.
  rewrite Zplus_mod_idemp_l. f_equal. lia.
Qed.

Lemma wrap_small w x :
  0 < w -> - 2 ^ (w - 1) <= x < 2 ^ (w - 1) -> wrap w x = x.
Proof.
  intros Hw Hx. unfold wrap.
  assert (2 ^ w = 2 * 2 ^ (w - 1)) as Hp.
  { rewrite <- Z.pow_succ_r by lia. f_equal. lia. }
  rewrite Z.mod_small; lia.
Qed.

Lemma int32_small x : - 2 ^ 31 <= x < 2 ^ 31 -> int32 x = x.
Proof. intros. apply wrap_small; [lia|]. simpl (32 - 1). lia. Qed.

Lemma int64_small x : - 2 ^ 63 <= x < 2 ^ 63 -> int64 x = x.
Proof. intros. apply wrap_small; [lia|]. simpl (64 - 1). lia. Qed.

Lemma int32_incr x : int32 (int32 x + 1) = int32 (x + 1).
Proof. apply wrap_add_l. lia. Qed.

(** the pool's counter moves as the spinner's does under [IncrDone] *)
Lemma incr_done_IncrDone {Msg : Type} (p : @Pool.state Msg) (s : Spinner) :
  done s = Pool.done p -> done (IncrDone s) = Pool.done (Pool.incr_done p).
Proof. intros Hd. simpl. by rewrite Hd. Qed.

(** ** The goroutine pool *)

Module PoolFacts.
Import Pool.

Section Lists.
Context {A : Type}.

Lemma sum_list_with_insert (f : A -> nat) (l : list A) (i : nat) (x y : A) :
  l !! i = Some x ->
  (sum_list_with f (<[i := y]> l) + f x = sum_list_with f l + f y)%nat.
Proof.
  revert i. induction l as [|a l IH]; intros [|i] Hi; simplify_eq/=.
  - lia.
  - specialize (IH i Hi). lia.
Qed.

Lemma sum_list_with_zero (f : A -> nat) (l : list A) :
  sum_list_with f l = 0%nat <-> Forall (fun a => f a = 0%nat) l.
Proof.
  induction l as [|a l IH]; simpl.
  - split; [constructor | done].
  - rewrite Forall_cons, <- IH. lia.
Qed.

End Lists.

Section Facts.
Context {Job Msg : Type}.
Variable body : nat -> Job -> option Msg.
Variable counts : bool.
Variable jobs : list Job.

#[local] Abbreviation step := (step body counts jobs).
#[local] Abbreviation run := (run body counts jobs).
#[local] Abbreviation joined := (joined jobs).
#[local] Abbreviation inv := (inv body counts jobs).
#[local] Abbreviation outbox := (outbox body jobs).
#[local] Abbreviation handed := (handed body jobs).
#[local] Abbreviation coherent := (coherent body jobs).
#[local] Abbreviation all_coherent := (all_coherent body jobs).
#[local] Abbreviation result_of := (result_of body jobs).
#[local] Abbreviation ticked := (ticked counts).

Lemma outbox_insert (ws : list pc) k i w w' :
  ws !! i = Some w ->
  outbox k (<[i := w']> ws) ++ handed (k + i) w
    ≡ₚ outbox k ws ++ handed (k + i) w'.
Proof.
  revert k i. induction ws as [|a ws IH]; intros k [|i] Hi; simplify_eq/=.
  - rewrite Nat.add_0_r.
    rewrite <- !(assoc_L (++)).
    rewrite (Permutation_app_comm (outbox (S k) ws) (handed k w)).
    rewrite (Permutation_app_comm (outbox (S k) ws) (handed k w')).
    rewrite !(assoc_L (++)). apply Permutation_app_tail, Permutation_app_comm.
  - rewrite <- !(assoc_L (++)). apply Permutation_app_head.
    replace (k + S i)%nat with (S k + i)%nat by lia. by apply IH.
Qed.

Lemma outbox_snoc (ws : list pc) k w :
  outbox k (ws ++ [w]) = outbox k ws ++ handed (k + length ws) w.
Proof.
  revert k. induction ws as [|a ws IH]; intros k; simpl.
  - by rewrite Nat.add_0_r, app_nil_r.
  - rewrite IH, <- (assoc_L (++)). do 3 f_equal. lia.
Qed.

Lemma all_coherent_insert (ws : list pc) k i w' :
  all_coherent k ws -> coherent (k + i) w' ->
  all_coherent k (<[i := w']> ws).
Proof.
  revert k i. induction ws as [|a ws IH]; intros k [|i]; simpl; try done.
  - rewrite Nat.add_0_r. tauto.
  - intros [? ?] ?. split; [done|]. apply IH; [done|].
    by replace (S k + i)%nat with (k + S i)%nat by lia.
Qed.

Lemma all_coherent_lookup (ws : list pc) k i w :
  all_coherent k ws -> ws !! i = Some w -> coherent (k + i) w.
Proof.
  revert k i. induction ws as [|a ws IH]; intros k [|i]; simpl; try done.
  - intros [? _] [= ->]. by rewrite Nat.add_0_r.
  - intros [_ ?] ?. replace (k + S i)%nat with (S k + i)%nat by lia. eauto.
Qed.

Lemma all_coherent_snoc (ws : list pc) k w :
  all_coherent k ws -> coherent (k + length ws) w ->
  all_coherent k (ws ++ [w]).
Proof.
  revert k. induction ws as [|a ws IH]; intros k; simpl.
  - rewrite Nat.add_0_r. tauto.
  - intros [? ?] ?. split; [done|]. apply IH; [done|].
    by replace (S k + length ws)%nat with (k + S (length ws))%nat by lia.
Qed.

Lemma init_inv done0 : int32 done0 = done0 -> inv done0 (init done0).
Proof.
  intros Hd. split; simpl; try done; try lia.
  by rewrite Z.add_0_r.
Qed.

(** Every step keeps the books: the WaitGroup counter counts the goroutines
    that have not exited, the spinner counter those that have called
    [IncrDone], and the channel holds what has been handed over. *)
Lemma step_inv done0 a p : inv done0 p -> inv done0 (step a p).
Proof.
  intros [Hn Hb Hw Hd Hc Hk]. destruct a as [|i]; simpl.
  - destruct (jobs !! next p) as [x|] eqn:Hj; [|by split].
    apply lookup_lt_Some in Hj.
    split; simpl.
    + rewrite length_app. simpl. lia.
    + rewrite length_app. simpl. lia.
    + rewrite sum_list_with_app. simpl. lia.
    + rewrite sum_list_with_app. simpl. by rewrite !Nat.add_0_r.
    + rewrite outbox_snoc. simpl. by rewrite app_nil_r.
    + by apply all_coherent_snoc.
  - destruct (workers p !! i) as [w|] eqn:Hi; [|by split].
    pose proof (all_coherent_lookup _ _ _ _ Hk Hi) as Hcoh. simpl in Hcoh.
    pose proof (fun f y => sum_list_with_insert f _ _ _ y Hi) as Hsum.
    pose proof (fun w' => outbox_insert _ 0 _ _ w' Hi) as Hout.
    simpl in Hout.
    destruct w as [|r|r| |].
    + destruct (jobs !! i) as [x|] eqn:Hj; [|by split].
      split; simpl; rewrite ?length_insert; try done.
      * specialize (Hsum alive (Computed (body i x))). simpl in Hsum. lia.
      * specialize (Hsum ticked (Computed (body i x))). simpl in Hsum.
        rewrite Hd. do 2 f_equal. lia.
      * specialize (Hout (Computed (body i x))). simpl in Hout.
        rewrite !app_nil_r in Hout. by rewrite Hout.
      * apply all_coherent_insert; [done|]. simpl.
        unfold Pool.result_of. by rewrite Hj.
    + destruct counts eqn:Hcounts.
      * split; simpl; rewrite ?length_insert; try done.
        -- specialize (Hsum alive (Counted r)). simpl in Hsum. lia.
        -- specialize (Hsum (Pool.ticked true) (Counted r)). simpl in Hsum.
           rewrite Hd, int32_incr. f_equal. lia.
        -- specialize (Hout (Counted r)). simpl in Hout.
           rewrite !app_nil_r in Hout. by rewrite Hout.
        -- by apply all_coherent_insert.
      * split; simpl; rewrite ?length_insert; try done.
        -- specialize (Hsum alive Handed). simpl in Hsum. lia.
        -- specialize (Hsum (Pool.ticked false) Handed). simpl in Hsum.
           rewrite Hd. do 2 f_equal. lia.
        -- specialize (Hout Handed). simpl in Hout.
           rewrite app_nil_r in Hout. by rewrite Hout, Hc, Hcoh.
        -- by apply all_coherent_insert.
    + split; simpl; rewrite ?length_insert; try done.
      * specialize (Hsum alive Handed). simpl in Hsum. lia.
      * specialize (Hsum ticked Handed). simpl in Hsum.
        rewrite Hd. do 2 f_equal. lia.
      * specialize (Hout Handed). simpl in Hout.
        rewrite app_nil_r in Hout. by rewrite Hout, Hc, Hcoh.
      * by apply all_coherent_insert.
    + split; simpl; rewrite ?length_insert; try done.
      * specialize (Hsum alive Finished). simpl in Hsum. lia.
      * specialize (Hsum ticked Finished). simpl in Hsum.
        rewrite Hd. do 2 f_equal. lia.
      * specialize (Hout Finished). simpl in Hout.
        apply Permutation_app_inv_r in Hout. by rewrite Hout.
      * by apply all_coherent_insert.
    + by split.
Qed.

Lemma run_inv done0 sched p : inv done0 p -> inv done0 (run sched p).
Proof.
  revert p. induction sched as [|a sched IH]; intros p Hp; [done|].
  simpl. apply IH. by apply step_inv.
Qed.

Lemma run_app sched1 sched2 p :
  run (sched1 ++ sched2) p = run sched2 (run sched1 p).
Proof. apply foldl_app. Qed.

(** *** What holds when [wg.Wait()] returns *)

Lemma outbox_finished (ws : list pc) k :
  Forall (fun w => w = Finished) ws ->
  outbox k ws = flat_map (fun i => option_list (result_of i)) (seq k (length ws)).
Proof.
  intros Hall. revert k. induction Hall as [|w ws -> _ IH]; intros k; [done|].
  simpl. by rewrite IH.
Qed.

Lemma joined_finished done0 p :
  inv done0 p -> joined p = true ->
  length (workers p) = length jobs /\
  Forall (fun w => w = Finished) (workers p).
Proof.
  intros [Hn Hb Hw Hd Hc Hk] Hj. unfold Pool.joined in Hj.
  apply andb_prop in Hj as [H1 H2].
  apply bool_decide_eq_true in H1, H2.
  split; [lia|].
  assert (sum_list_with alive (workers p) = 0%nat) as H0 by lia.
  apply sum_list_with_zero in H0.
  eapply Forall_impl; [exact H0|]. by intros [].
Qed.

Lemma sum_ticked_finished (ws : list (@pc Msg)) :
  Forall (fun w => w = Finished) ws ->
  sum_list_with ticked ws = if counts then length ws else 0%nat.
Proof.
  induction 1 as [|w ws -> _ IH]; simpl.
  - by destruct counts.
  - rewrite IH. by destruct counts.
Qed.

(** When the coordinator gets past [wg.Wait()], every job has had its
    goroutine, every goroutine has run to its end, the spinner counter has
    been incremented once per job, and the channel holds exactly the
    results of the jobs, in the order of the hand-overs. *)
Lemma joined_spec done0 p :
  inv done0 p -> joined p = true ->
  Forall (fun w => w = Finished) (workers p) /\
  length (workers p) = length jobs /\
  done p = int32 (done0 + if counts then Z.of_nat (length jobs) else 0) /\
  ch p ≡ₚ results body jobs.
Proof.
  intros Hinv Hj.
  destruct (joined_finished _ _ Hinv Hj) as [Hlen Hall].
  destruct Hinv as [Hn Hb Hw Hd Hc Hk].
  repeat split; try done.
  - rewrite Hd, (sum_ticked_finished _ Hall), Hlen. by destruct counts.
  - rewrite Hc, (outbox_finished _ _ Hall), Hlen. done.
Qed.

(** *** Every run can be completed: [drain] gets the coordinator past
    [wg.Wait()] *)

Lemma step_length a p :
  (length (workers p) <= length (workers (step a p)))%nat.
Proof.
  destruct a as [|i]; simpl.
  - destruct (jobs !! next p); simpl; rewrite ?length_app; lia.
  - destruct (workers p !! i) as [[|r|r| |]|]; simpl;
      repeat case_match; simpl; rewrite ?length_insert; lia.
Qed.

Lemma step_Run_length i p :
  length (workers (step (Run i) p)) = length (workers p) /\
  next (step (Run i) p) = next p.
Proof.
  simpl. destruct (workers p !! i) as [[|r|r| |]|]; simpl;
    repeat case_match; simpl; rewrite ?length_insert; done.
Qed.

Lemma step_settled a p i :
  workers p !! i = Some Finished -> workers (step a p) !! i = Some Finished.
Proof.
  intros Hi. destruct a as [|j]; simpl.
  - destruct (jobs !! next p); simpl; [|done]. by apply lookup_app_l_Some.
  - destruct (decide (j = i)) as [->|Hne]; [by rewrite Hi|].
    destruct (workers p !! j) as [[|r|r| |]|]; simpl;
      repeat case_match; simpl; rewrite ?list_lookup_insert_ne; done.
Qed.

Lemma run_settled sched p i :
  workers p !! i = Some Finished -> workers (run sched p) !! i = Some Finished.
Proof.
  revert p. induction sched as [|a sched IH]; intros p Hp; [done|].
  simpl. apply IH. by apply step_settled.
Qed.

Lemma step_Run_rank i p w :
  workers p !! i = Some w -> is_Some (jobs !! i) ->
  exists w', workers (step (Run i) p) !! i = Some w' /\
             (Nat.min 4 (rank w + 1) <= rank w')%nat.
Proof.
  intros Hi [x Hx]. pose proof (lookup_lt_Some _ _ _ Hi) as Hlt.
  simpl. rewrite Hi. destruct w as [|r|r| |]; rewrite ?Hx.
  - exists (Computed (body i x)). simpl.
    rewrite list_lookup_insert_eq by done. split; [done|lia].
  - destruct counts; eexists; simpl;
      (rewrite list_lookup_insert_eq by done); (split; [done|simpl; lia]).
  - exists Handed. simpl. rewrite list_lookup_insert_eq by done.
    split; [done|simpl; lia].
  - exists Finished. simpl. rewrite list_lookup_insert_eq by done.
    split; [done|simpl; lia].
  - exists Finished. split; [done|simpl; lia].
Qed.

Lemma run_Run_rank n i p w :
  workers p !! i = Some w -> is_Some (jobs !! i) ->
  exists w', workers (run (replicate n (Run i)) p) !! i = Some w' /\
             (Nat.min 4 (rank w + n) <= rank w')%nat.
Proof.
  revert p w. induction n as [|n IH]; intros p w Hi Hx.
  - exists w. split; [done|lia].
  - destruct (step_Run_rank _ _ _ Hi Hx) as (w1 & H1 & Hr1).
    destruct (IH _ _ H1 Hx) as (w2 & H2 & Hr2).
    exists w2. split; [done|lia].
Qed.

Lemma run_Run_finishes i p :
  (i < length (workers p))%nat -> (i < length jobs)%nat ->
  workers (run (replicate 4 (Run i)) p) !! i = Some Finished.
Proof.
  intros Hi Hj.
  destruct (lookup_lt_is_Some_2 _ _ Hi) as [w Hw].
  destruct (run_Run_rank 4 _ _ _ Hw (lookup_lt_is_Some_2 _ _ Hj))
    as (w' & Hw' & Hr).
  assert (4 <= rank w')%nat as Hr' by lia.
  rewrite Hw'. by destruct w'; simpl in Hr'; try lia.
Qed.

Lemma run_Runs_length l p :
  length (workers (run (flat_map (fun i => replicate 4 (Run i)) l) p))
    = length (workers p).
Proof.
  revert p. induction l as [|i l IH]; intros p; [done|].
  cbn [flat_map]. rewrite run_app, IH. simpl.
  repeat (etrans; [apply step_Run_length|]). done.
Qed.

Lemma run_Runs_finish l p i :
  Forall (fun i => i < length (workers p) /\ i < length jobs)%nat l ->
  i ∈ l ->
  workers (run (flat_map (fun i => replicate 4 (Run i)) l) p) !! i
    = Some Finished.
Proof.
  intros Hall. revert p Hall. induction l as [|j l IH]; intros p Hall Hi.
  { by apply elem_of_nil in Hi. }
  apply Forall_cons in Hall as [[Hj1 Hj2] Hall].
  cbn [flat_map]. rewrite run_app.
  set (p1 := run (replicate 4 (Run j)) p).
  assert (length (workers p1) = length (workers p)) as Hlen.
  { subst p1. simpl. repeat (etrans; [apply step_Run_length|]). done. }
  destruct (decide (i ∈ l)) as [Hin|Hnin].
  - apply IH; [|done]. eapply Forall_impl; [exact Hall|].
    simpl. intros k. rewrite Hlen. done.
  - apply elem_of_cons in Hi as [->|?]; [|done].
    apply run_settled. subst p1. by apply run_Run_finishes.
Qed.

Lemma run_Coords k done0 p :
  inv done0 p ->
  length (workers (run (replicate k Coord) p))
    = Nat.min (length (workers p) + k) (length jobs).
Proof.
  revert p. induction k as [|k IH]; intros p Hp.
  - destruct Hp. simpl. lia.
  - simpl replicate. change (run (Coord :: ?l) p) with (run l (step Coord p)).
    rewrite IH by (by apply step_inv).
    destruct Hp as [Hn Hb _ _ _ _]. simpl.
    destruct (jobs !! next p) as [x|] eqn:Hj; simpl.
    + apply lookup_lt_Some in Hj. rewrite length_app. simpl. lia.
    + apply lookup_ge_None in Hj. lia.
Qed.

(** Whatever has happened so far, letting the loop finish and every
    goroutine run gets the coordinator past [wg.Wait()]. *)
Lemma drain_joined done0 p :
  inv done0 p -> joined (run (drain jobs) p) = true.
Proof.
  intros Hp. unfold Pool.drain. rewrite run_app.
  set (p1 := run (replicate (length jobs) Coord) p).
  assert (inv done0 p1) as Hp1 by (by apply run_inv).
  assert (length (workers p1) = length jobs) as Hlen1.
  { subst p1. rewrite (run_Coords _ done0) by done. destruct Hp. lia. }
  set (p2 := run _ p1).
  assert (inv done0 p2) as Hp2 by (by apply run_inv).
  assert (length (workers p2) = length jobs) as Hlen2.
  { subst p2. by rewrite run_Runs_length. }
  assert (Forall (fun w => w = Finished) (workers p2)) as Hall.
  { apply Forall_lookup. intros i w Hi.
    pose proof (lookup_lt_Some _ _ _ Hi) as Hlt.
    assert (workers p2 !! i = Some Finished) as Hfin.
    { subst p2. apply run_Runs_finish.
      - apply Forall_forall. intros j Hj%elem_of_seq. lia.
      - apply elem_of_seq. lia. }
    congruence. }
  destruct Hp2 as [Hn Hb Hw Hd Hc Hk]. unfold Pool.joined.
  apply andb_true_intro. split; apply bool_decide_eq_true; [lia|].
  rewrite Hw. assert (sum_list_with alive (workers p2) = 0%nat) as ->; [|done].
  apply sum_list_with_zero. eapply Forall_impl; [exact Hall|]. by intros ? ->.
Qed.

End Facts.
End PoolFacts.

(** ** The source gate *)

Section GateFacts.
Context `{Net : Network} {Handle : Type}.
Variable TorrentURL : gmap string string.
Variable items : list string.

#[local] Abbreviation gate_pool sched :=
  (Pool.run (gate_body TorrentURL) true items sched (Pool.init 0)).

Lemma gate_result_of i :
  Pool.result_of (gate_body TorrentURL) items i
    = if is_live TorrentURL items i then Some i else None.
Proof.
  unfold Pool.result_of, is_live, gate_body.
  destruct (items !! i) as [t|]; simpl; [|done].
  by destruct (CheckNetWorkFromURL _).
Qed.

Lemma gate_results :
  Pool.results (gate_body TorrentURL) items = live_positions TorrentURL items.
Proof.
  unfold Pool.results, live_positions.
  induction (seq 0 (length items)) as [|i l IH]; [done|].
  simpl. rewrite IH, gate_result_of, filter_cons.
  by destruct (is_live TorrentURL items i) eqn:Hi.
Qed.

Lemma live_positions_lt i :
  i ∈ live_positions TorrentURL items -> (i < length items)%nat.
Proof.
  unfold live_positions. intros [_ Hi%elem_of_seq]%list_elem_of_filter. lia.
Qed.

Lemma live_positions_live i :
  i ∈ live_positions TorrentURL items <-> is_live TorrentURL items i = true.
Proof.
  unfold live_positions. rewrite list_elem_of_filter, elem_of_seq.
  split; [tauto|]. intros Hi. split; [done|].
  unfold is_live in Hi. destruct (items !! i) eqn:Hl; [|done].
  apply lookup_lt_Some in Hl. lia.
Qed.

Lemma gate_pool_inv sched : Pool.inv (gate_body TorrentURL) true items 0 (gate_pool sched).
Proof. apply PoolFacts.run_inv, PoolFacts.init_inv. done. Qed.

(** what is in the channel at any moment is a live position *)
Lemma gate_channel_live sched v :
  v ∈ Pool.ch (gate_pool sched) -> is_live TorrentURL items v = true.
Proof.
  destruct (gate_pool_inv sched) as [_ _ _ _ Hc _]. rewrite Hc. clear Hc.
  assert (forall k ws, v ∈ Pool.outbox (gate_body TorrentURL) items k ws ->
                       is_live TorrentURL items v = true) as Hout; [|apply Hout].
  intros k ws. revert k. induction ws as [|w ws IH]; intros k; simpl.
  { by intros ?%elem_of_nil. }
  rewrite elem_of_app. intros [Hv|Hv]; [|by eapply IH].
  unfold Pool.handed in Hv.
  destruct w; try (by apply elem_of_nil in Hv);
    rewrite gate_result_of in Hv;
    destruct (is_live TorrentURL items k) eqn:Hk; simpl in Hv;
    try (by apply elem_of_nil in Hv);
    by apply list_elem_of_singleton in Hv as ->.
Qed.

Lemma project_in_bounds (oldItems : list Handle) vs acc :
  Forall (fun v => v < length oldItems)%nat vs ->
  project oldItems vs acc = Returned (acc ++ omap (fun v => oldItems !! v) vs).
Proof.
  intros Hvs. revert acc. induction Hvs as [|v vs Hv _ IH]; intros acc; simpl.
  - by rewrite app_nil_r.
  - destruct (lookup_lt_is_Some_2 _ _ Hv) as [x Hx].
    unfold index. rewrite Hx. simpl. rewrite IH, <- (assoc_L (++)). done.
Qed.

Lemma project_out_of_bounds (oldItems : list Handle) vs acc :
  Exists (fun v => length oldItems <= v)%nat vs ->
  project oldItems vs acc = Panicked "index out of range".
Proof.
  intros Hvs. revert acc. induction Hvs as [v vs Hv|v vs _ IH]; intros acc; simpl.
  - apply lookup_ge_None in Hv. unfold index. by rewrite Hv.
  - unfold index. destruct (oldItems !! v); simpl; [apply IH|done].
Qed.

Lemma gate_unfold now (oldItems : list Handle) sched :
  gate items TorrentURL now oldItems sched =
    if Pool.joined items (gate_pool sched) then
      newItems ← project oldItems (Pool.ch (gate_pool sched)) [];
      mret (newItems, set_done (Pool.done (gate_pool sched))
                               (gate_spinner now (length oldItems)))
    else Blocked.
Proof. reflexivity. Qed.

(** When the gate returns, the channel holds the live positions, each once,
    in the order of the hand-overs, and the gate has mapped them to handles
    in that order. *)
Lemma gate_returned now (oldItems : list Handle) sched newItems sp :
  gate items TorrentURL now oldItems sched = Returned (newItems, sp) ->
  let vs := Pool.ch (gate_pool sched) in
  vs ≡ₚ live_positions TorrentURL items /\
  Forall (fun v => v < length oldItems)%nat vs /\
  newItems = omap (fun v => oldItems !! v) vs /\
  done sp = int32 (Z.of_nat (length items)).
Proof.
  rewrite gate_unfold. intros Hg. cbv zeta.
  destruct (Pool.joined items (gate_pool sched)) eqn:Hj; [|done].
  destruct (PoolFacts.joined_spec _ _ _ _ _ (gate_pool_inv sched) Hj)
    as (_ & _ & Hd & Hc).
  rewrite gate_results in Hc.
  destruct (decide (Forall (fun v => v < length oldItems)%nat
                           (Pool.ch (gate_pool sched)))) as [Hall|Hex].
  - rewrite (project_in_bounds _ _ _ Hall) in Hg. simpl in Hg.
    inversion Hg; subst. simpl. by rewrite Hd.
  - apply not_Forall_Exists in Hex; [|apply _].
    rewrite project_out_of_bounds in Hg; [done|].
    eapply Exists_impl; [exact Hex|]. simpl. lia.
Qed.

(** A caller's list that covers the name list is never indexed out of
    range, and then every run can be completed to one that returns. *)
Lemma gate_returns now (oldItems : list Handle) sched :
  (length items <= length oldItems)%nat ->
  exists newItems sp,
    gate items TorrentURL now oldItems (sched ++ Pool.drain items)
      = Returned (newItems, sp).
Proof.
  intros Hlen. rewrite gate_unfold.
  rewrite PoolFacts.run_app.
  rewrite (PoolFacts.drain_joined _ _ _ 0) by apply gate_pool_inv.
  rewrite <- PoolFacts.run_app.
  rewrite project_in_bounds; [simpl; eauto|].
  apply Forall_forall. intros v Hv%gate_channel_live.
  apply live_positions_live, live_positions_lt in Hv. lia.
Qed.

(** A live position beyond the caller's list makes the completed gate
    panic. *)
Lemma gate_panics now (oldItems : list Handle) sched j :
  is_live TorrentURL items j = true -> (length oldItems <= j)%nat ->
  gate items TorrentURL now oldItems (sched ++ Pool.drain items)
    = Panicked "index out of range".
Proof.
  intros Hj Hlen. rewrite gate_unfold.
  pose proof (gate_pool_inv (sched ++ Pool.drain items)) as Hinv.
  assert (Pool.joined items (gate_pool (sched ++ Pool.drain items)) = true) as Hjoin.
  { rewrite PoolFacts.run_app. apply (PoolFacts.drain_joined _ _ _ 0), gate_pool_inv. }
  rewrite Hjoin.
  destruct (PoolFacts.joined_spec _ _ _ _ _ Hinv Hjoin) as (_ & _ & _ & Hc).
  rewrite gate_results in Hc.
  rewrite project_out_of_bounds; [done|].
  apply Exists_exists. exists j. split; [|done].
  rewrite Hc. by apply live_positions_live.
Qed.

End GateFacts.

Lemma Permutation_short {A : Type} (l k : list A) :
  l ≡ₚ k -> (length k <= 1)%nat -> l = k.
Proof.
  intros Hp Hk. destruct k as [|x [|y k]]; simpl in Hk; try lia.
  - by apply Permutation_nil_r.
  - by apply Permutation_singleton_r.
Qed.

(** C1, as amended: the gate returns exactly the handles at the positions of
    its name list whose site passed the check, each once, in the order in
    which the probes handed their positions over, which is a permutation of
    the original order; for [GetAvailableSites], whose name list has one
    name, that is the original order.  Every run of a gate whose caller's
    list covers the name list can be completed to one that returns. *)
Theorem gate_returns_live_handles `{Network} {Handle : Type}
  (TorrentURL : gmap string string) (now : Z) (oldItems : list Handle)
  (sched : list Pool.action) :
  ((forall newItems sp,
      GetAvailableSites TorrentURL now oldItems sched = Returned (newItems, sp) ->
      newItems = survivors TorrentURL ["torrenttop"] oldItems) /\
   ((1 <= length oldItems)%nat ->
    exists sp,
      GetAvailableSites TorrentURL now oldItems
                        (sched ++ Pool.drain ["torrenttop"])
        = Returned (survivors TorrentURL ["torrenttop"] oldItems, sp))) /\
  ((forall newItems sp,
      GetAvailableSitesEx TorrentURL now oldItems sched = Returned (newItems, sp) ->
      newItems ≡ₚ survivors TorrentURL ["nyaa"; "sukebe"] oldItems /\
      newItems = omap (fun v => oldItems !! v)
                   (Pool.ch (Pool.run (gate_body TorrentURL) true
                                      ["nyaa"; "sukebe"] sched (Pool.init 0)))) /\
   ((2 <= length oldItems)%nat ->
    exists newItems sp,
      GetAvailableSitesEx TorrentURL now oldItems
                          (sched ++ Pool.drain ["nyaa"; "sukebe"])
        = Returned (newItems, sp))).
Proof.
  assert (forall s newItems sp,
            GetAvailableSites TorrentURL now oldItems s = Returned (newItems, sp) ->
            newItems = survivors TorrentURL ["torrenttop"] oldItems) as Hone.
  { intros s newItems sp Hg.
    apply gate_returned in Hg as (Hp & _ & -> & _). unfold survivors.
    f_equal. apply Permutation_short; [done|].
    unfold live_positions. etrans; [apply length_filter|]. done. }
  split; split.
  - apply Hone.
  - intros Hlen.
    destruct (gate_returns TorrentURL ["torrenttop"] now oldItems sched Hlen)
      as (newItems & sp & Hg).
    exists sp. fold (@GetAvailableSites _ Handle) in Hg.
    by rewrite (Hone _ _ _ Hg) in Hg.
  - intros newItems sp Hg.
    apply gate_returned in Hg as (Hp & _ & -> & _). unfold survivors.
    split; [|done]. by apply omap_Permutation.
  - intros Hlen. by apply gate_returns.
Qed.

Lemma gate_returns_live_handles_witness :
  exists newItems sp,
    @GetAvailableSitesEx all_up string demo_urls 0 ["A"; "B"]
      ([Pool.Coord; Pool.Run 0%nat] ++ Pool.drain ["nyaa"; "sukebe"])
      = Returned (newItems, sp).
Proof.
  apply (@gate_returns_live_handles all_up string demo_urls 0 ["A"; "B"]
           [Pool.Coord; Pool.Run 0%nat]).
  simpl. lia.
Defined.

(** C1, as stated, fails: with both sites of [GetAvailableSitesEx] live and
    the probe of position 1 handing over before that of position 0, the
    gate returns the handles in the order [B; A], not [A; B]. *)
Lemma gate_order_counterexample :
  let sched := [Pool.Coord; Pool.Coord] ++ replicate 4 (Pool.Run 1%nat)
                 ++ replicate 4 (Pool.Run 0%nat) in
  exists newItems sp,
    @GetAvailableSitesEx all_up string demo_urls 0 ["A"; "B"] sched
      = Returned (newItems, sp) /\
    newItems = ["B"; "A"] /\
    @survivors all_up string demo_urls ["nyaa"; "sukebe"] ["A"; "B"] = ["A"; "B"] /\
    newItems <> @survivors all_up string demo_urls ["nyaa"; "sukebe"] ["A"; "B"].
Proof.
  eexists _, _. split; [vm_compute; reflexivity|].
  split; [reflexivity|]. split; [vm_compute; reflexivity|].
  vm_compute. discriminate.
Qed.

(** C9: the gates index the caller's list by the positions of their own name
    list.  Every position that can reach the channel is within the caller's
    list exactly when that list is at least as long as the name list (one
    name for [GetAvailableSites], two for [GetAvailableSitesEx]); with a
    shorter list, a live site at a position beyond it makes the completed
    gate panic on the index. *)
Theorem gate_index_bounds {Handle : Type} (oldItems : list Handle) :
  let in_bounds (items : list string) :=
    forall (N : Network) (TorrentURL : gmap string string) sched v,
      v ∈ Pool.ch (Pool.run (gate_body TorrentURL) true items sched (Pool.init 0)) ->
      (v < length oldItems)%nat in
  (in_bounds ["torrenttop"] <-> (1 <= length oldItems)%nat) /\
  (in_bounds ["nyaa"; "sukebe"] <-> (2 <= length oldItems)%nat) /\
  (forall (N : Network) TorrentURL now sched j t,
     ["torrenttop"] !! j = Some t -> (length oldItems <= j)%nat ->
     CheckNetWorkFromURL (url_of TorrentURL t) = true ->
     GetAvailableSites TorrentURL now oldItems
                       (sched ++ Pool.drain ["torrenttop"])
       = Panicked "index out of range") /\
  (forall (N : Network) TorrentURL now sched j t,
     ["nyaa"; "sukebe"] !! j = Some t -> (length oldItems <= j)%nat ->
     CheckNetWorkFromURL (url_of TorrentURL t) = true ->
     GetAvailableSitesEx TorrentURL now oldItems
                         (sched ++ Pool.drain ["nyaa"; "sukebe"])
       = Panicked "index out of range").
Proof.
  intros in_bounds.
  assert (forall items, (length items <= length oldItems)%nat -> in_bounds items)
    as Hcover.
  { intros items Hlen N TorrentURL sched v Hv%gate_channel_live.
    apply live_positions_live, live_positions_lt in Hv. lia. }
  assert (forall (N : Network) TorrentURL items now sched j t,
            items !! j = Some t -> (length oldItems <= j)%nat ->
            CheckNetWorkFromURL (url_of TorrentURL t) = true ->
            gate items TorrentURL now oldItems (sched ++ Pool.drain items)
              = Panicked "index out of range") as Hpanic.
  { intros N TorrentURL items now sched j t Hj Hlen Hup.
    apply (gate_panics _ _ _ _ _ j); [|done]. unfold is_live. by rewrite Hj. }
  repeat split.
  - intros Hin.
    specialize (Hin all_up demo_urls (Pool.drain ["torrenttop"]) 0%nat).
    assert (0 < length oldItems)%nat; [|lia].
    apply Hin. vm_compute. apply list_elem_of_here.
  - intros Hlen. by apply Hcover.
  - intros Hin.
    specialize (Hin all_up demo_urls (Pool.drain ["nyaa"; "sukebe"]) 1%nat).
    assert (1 < length oldItems)%nat; [|lia].
    apply Hin. vm_compute. apply list_elem_of_further, list_elem_of_here.
  - intros Hlen. by apply Hcover.
  - intros. by eapply Hpanic.
  - intros. by eapply Hpanic.
Qed.

Lemma gate_index_bounds_witness :
  @GetAvailableSitesEx all_up string demo_urls 0 ["A"]
     ([Pool.Coord] ++ Pool.drain ["nyaa"; "sukebe"])
    = Panicked "index out of range".
Proof.
  apply (proj2 (proj2 (proj2 (@gate_index_bounds string ["A"])))
           all_up demo_urls 0 [Pool.Coord] 1%nat "sukebe").
  - reflexivity.
  - simpl. lia.
  - vm_compute. reflexivity.
Defined.

(** ** The query dispatcher *)

Section DispatchFacts.
Context {Job Msg : Type}.
Variable crawl : Job -> option Msg.
Variable jobs : list Job.

#[local] Abbreviation body := (fun (_ : nat) (v : Job) => crawl v).
#[local] Abbreviation pool sched := (Pool.run body true jobs sched (Pool.init 0)).

Lemma results_omap : Pool.results body jobs = omap crawl jobs.
Proof.
  unfold Pool.results, Pool.result_of.
  assert (forall l pre,
            flat_map (fun i => option_list ((pre ++ l) !! i ≫= crawl))
                     (seq (length pre) (length l)) = omap crawl l) as Hgen.
  { induction l as [|x l IH]; intros pre; [done|].
    simpl. rewrite list_lookup_middle by done. simpl.
    specialize (IH (pre ++ [x])).
    rewrite length_app, Nat.add_1_r, <- (assoc_L (++)) in IH. simpl in IH.
    rewrite IH. by destruct (crawl x). }
  apply (Hgen jobs []).
Qed.

Lemma pool_inv sched : Pool.inv body true jobs 0 (pool sched).
Proof. apply PoolFacts.run_inv, PoolFacts.init_inv. done. Qed.

Lemma sum_ticked_le (ws : list (@Pool.pc Msg)) :
  (sum_list_with (Pool.ticked true) ws <= length ws)%nat.
Proof. induction ws as [|[] ws IH]; simpl; lia. Qed.

(** The counter counts the goroutines that are past [IncrDone]; the
    coordinator gets past [wg.Wait()] only when all of them have exited,
    and can always get there. *)
Lemma pool_barrier sched :
  Z.of_nat (length jobs) < 2 ^ 31 ->
  Pool.done (pool sched)
    = Z.of_nat (sum_list_with (Pool.ticked true) (Pool.workers (pool sched))) /\
  (Pool.joined jobs (pool sched) = true ->
   length (Pool.workers (pool sched)) = length jobs /\
   Forall (fun w => w = Pool.Finished) (Pool.workers (pool sched)) /\
   Pool.done (pool sched) = Z.of_nat (length jobs) /\
   Pool.ch (pool sched) ≡ₚ omap crawl jobs) /\
  Pool.joined jobs (pool (sched ++ Pool.drain jobs)) = true.
Proof.
  intros Hn. pose proof (pool_inv sched) as Hinv. split; [|split].
  - destruct Hinv as [_ Hb _ Hd _ _]. rewrite Hd.
    pose proof (sum_ticked_le (Pool.workers (pool sched))).
    apply int32_small. lia.
  - intros Hj.
    destruct (PoolFacts.joined_spec _ _ _ _ _ Hinv Hj) as (Hall & Hlen & Hd & Hc).
    rewrite results_omap in Hc. repeat split; try done.
    rewrite Hd. apply int32_small. lia.
  - rewrite PoolFacts.run_app. by apply (PoolFacts.drain_joined _ _ _ 0).
Qed.

End DispatchFacts.

Section MergeFacts.
Context `{Rng : MapRange} {V : Type}.
Variable keep : V -> bool.

#[local] Abbreviation insert_all := (foldl (insert_if keep)).

Lemma foldl_flat_map {A B C : Type} (f : A -> B -> A) (g : C -> list B) a l :
  foldl (fun m e => foldl f m (g e)) a l = foldl f a (flat_map g l).
Proof.
  revert a. induction l as [|e l IH]; intros a; [done|].
  simpl. by rewrite IH, foldl_app.
Qed.

(** every stored record is a kept record under its normalized key *)
Lemma insert_all_sound kvs (m0 : gmap string V) k v :
  insert_all m0 kvs !! k = Some v ->
  m0 !! k = Some v \/
  (keep v = true /\ exists raw, (raw, v) ∈ kvs /\ normalize raw = k).
Proof.
  revert m0. induction kvs as [|[raw0 v0] kvs IH]; intros m0 Hk; [by left|].
  simpl in Hk. apply IH in Hk as [Hk|(Hv & raw & Hin & Hn)].
  - unfold insert_if in Hk. simpl in Hk.
    destruct (keep v0) eqn:Hv0; [|by left].
    destruct (decide (normalize raw0 = k)) as [<-|Hne].
    + rewrite lookup_insert_eq in Hk. inversion Hk; subst.
      right. split; [done|]. exists raw0. split; [left|done].
    + rewrite lookup_insert_ne in Hk by done. by left.
  - right. split; [done|]. exists raw. split; [by right|done].
Qed.

Lemma insert_all_mono kvs (m0 : gmap string V) k :
  is_Some (m0 !! k) -> is_Some (insert_all m0 kvs !! k).
Proof.
  revert m0. induction kvs as [|[raw0 v0] kvs IH]; intros m0 Hk; [done|].
  simpl. apply IH. unfold insert_if. simpl.
  destruct (keep v0); [|done].
  destruct (decide (normalize raw0 = k)) as [<-|Hne].
  - rewrite lookup_insert_eq. eauto.
  - by rewrite lookup_insert_ne.
Qed.

(** every kept record has its normalized key in the aggregate *)
Lemma insert_all_complete kvs (m0 : gmap string V) raw v :
  (raw, v) ∈ kvs -> keep v = true ->
  is_Some (insert_all m0 kvs !! normalize raw).
Proof.
  revert m0. induction kvs as [|[raw0 v0] kvs IH]; intros m0 Hin Hv.
  { by apply elem_of_nil in Hin. }
  simpl. apply elem_of_cons in Hin as [[= <- <-]|Hin].
  - apply insert_all_mono. unfold insert_if. simpl.
    rewrite Hv, lookup_insert_eq. eauto.
  - by apply IH.
Qed.

Lemma elem_of_ranges (elems : list (gmap string V)) raw v :
  (raw, v) ∈ flat_map range_map elems <->
  exists elem, elem ∈ elems /\ elem !! raw = Some v.
Proof.
  rewrite list_elem_of_In, in_flat_map.
  split; intros (elem & He & Hr); exists elem.
  - apply list_elem_of_In in He, Hr. rewrite range_map_perm in Hr.
    by apply elem_of_map_to_list in Hr.
  - rewrite <- !list_elem_of_In. split; [done|].
    rewrite range_map_perm. by apply elem_of_map_to_list.
Qed.

End MergeFacts.

Section CollectFacts.
Context `{Rng : MapRange}.

Lemma CollectData_unfold s keyword spinner sched :
  CollectData s keyword spinner sched =
    let pool := Pool.run (fun _ v => Crawl v keyword) true s sched (Pool.init 0) in
    if Pool.joined s pool then
      Returned (merge (Pool.ch pool),
                set_done (Pool.done pool) (begin_search (length s) spinner))
    else Blocked.
Proof. reflexivity. Qed.

Lemma CollectDataEx_unfold s keyword spinner sched :
  CollectDataEx s keyword spinner sched =
    let pool := Pool.run (fun _ v => CrawlEx v keyword) true s sched (Pool.init 0) in
    if Pool.joined s pool then
      Returned (mergeEx (Pool.ch pool),
                set_done (Pool.done pool) (begin_search (length s) spinner))
    else Blocked.
Proof. reflexivity. Qed.

Lemma foldl_pointwise {A B : Type} (f g : A -> B -> A) a l :
  (forall x y, f x y = g x y) -> foldl f a l = foldl g a l.
Proof.
  intros Hfg. revert a. induction l as [|b l IH]; intros a; [done|].
  simpl. by rewrite Hfg, IH.
Qed.

Lemma merge_insert_if elems :
  merge elems = foldl (insert_if not_sentinel) ∅ (flat_map range_map elems).
Proof.
  unfold merge. rewrite foldl_flat_map. apply foldl_pointwise.
  intros m [k v]. unfold insert_record, insert_if, not_sentinel. simpl.
  by destruct (String.eqb v no_magnet).
Qed.

Lemma mergeEx_insert_if elems :
  mergeEx elems = foldl (insert_if (fun _ => true)) ∅ (flat_map range_map elems).
Proof. unfold mergeEx. by rewrite foldl_flat_map. Qed.

Lemma not_sentinel_true v : not_sentinel v = true <-> v <> no_magnet.
Proof.
  unfold not_sentinel. rewrite negb_true_iff. apply String.eqb_neq.
Qed.

Lemma merge_sound elems k v :
  merge elems !! k = Some v ->
  v <> no_magnet /\
  exists elem raw, elem ∈ elems /\ elem !! raw = Some v /\ normalize raw = k.
Proof.
  rewrite merge_insert_if. intros [Hk|(Hv & raw & Hin & Hn)]%insert_all_sound.
  { by rewrite lookup_empty in Hk. }
  apply elem_of_ranges in Hin as (elem & He & Hr).
  split; [by apply not_sentinel_true|]. by exists elem, raw.
Qed.

Lemma merge_complete elems elem raw v :
  elem ∈ elems -> elem !! raw = Some v -> v <> no_magnet ->
  is_Some (merge elems !! normalize raw).
Proof.
  intros He Hr Hv. rewrite merge_insert_if.
  apply (insert_all_complete _ _ _ raw v).
  - apply elem_of_ranges. by exists elem.
  - by apply not_sentinel_true.
Qed.

Lemma mergeEx_sound elems k v :
  mergeEx elems !! k = Some v ->
  exists elem raw, elem ∈ elems /\ elem !! raw = Some v /\ normalize raw = k.
Proof.
  rewrite mergeEx_insert_if. intros [Hk|(Hv & raw & Hin & Hn)]%insert_all_sound.
  { by rewrite lookup_empty in Hk. }
  apply elem_of_ranges in Hin as (elem & He & Hr). by exists elem, raw.
Qed.

(** What [CollectData] returns: the merge of the maps the sources returned,
    in the order they were handed over. *)
Lemma CollectData_returned s keyword spinner sched m sp :
  CollectData s keyword spinner sched = Returned (m, sp) ->
  exists elems, elems ≡ₚ crawled s keyword /\ m = merge elems.
Proof.
  rewrite CollectData_unfold. cbv zeta.
  destruct (Pool.joined _ _) eqn:Hj; [|done]. intros [= <- <-].
  pose proof (pool_inv (fun v => Crawl v keyword) s sched) as Hinv.
  destruct (PoolFacts.joined_spec _ _ _ _ _ Hinv Hj) as (_ & _ & _ & Hc).
  rewrite results_omap in Hc. eauto.
Qed.

Lemma CollectDataEx_returned s keyword spinner sched m sp :
  CollectDataEx s keyword spinner sched = Returned (m, sp) ->
  exists elems, elems ≡ₚ crawledEx s keyword /\ m = mergeEx elems.
Proof.
  rewrite CollectDataEx_unfold. cbv zeta.
  destruct (Pool.joined _ _) eqn:Hj; [|done]. intros [= <- <-].
  pose proof (pool_inv (fun v => CrawlEx v keyword) s sched) as Hinv.
  destruct (PoolFacts.joined_spec _ _ _ _ _ Hinv Hj) as (_ & _ & _ & Hc).
  rewrite results_omap in Hc. eauto.
Qed.

Lemma CollectData_returns s keyword spinner sched :
  exists m sp,
    CollectData s keyword spinner (sched ++ Pool.drain s) = Returned (m, sp).
Proof.
  rewrite CollectData_unfold. cbv zeta.
  rewrite PoolFacts.run_app, (PoolFacts.drain_joined _ _ _ 0); [eauto|].
  apply pool_inv.
Qed.

Lemma CollectDataEx_returns s keyword spinner sched :
  exists m sp,
    CollectDataEx s keyword spinner (sched ++ Pool.drain s) = Returned (m, sp).
Proof.
  rewrite CollectDataEx_unfold. cbv zeta.
  rewrite PoolFacts.run_app, (PoolFacts.drain_joined _ _ _ 0); [eauto|].
  apply pool_inv.
Qed.

End CollectFacts.

Lemma normalize_bytes raw :
  String.list_ascii_of_string (normalize raw)
    = map space_to_underscore (String.list_ascii_of_string raw).
Proof.
  unfold normalize. induction raw as [|c raw IH]; [done|].
  simpl. by rewrite IH.
Qed.

Lemma normalize_no_space raw : has_space (normalize raw) = false.
Proof.
  unfold normalize. induction raw as [|c raw IH]; [done|].
  simpl. rewrite IH, orb_false_r.
  destruct (Ascii.eqb c " ") eqn:Hc; [done|exact Hc].
Qed.

(** C2: the dispatchers reset the counters when they begin (done to 0, total
    to N); at every moment the completed-count is the number of invocations
    that have called [IncrDone], each exactly once whatever [Crawl] returned;
    while some invocation has not run to its end the dispatcher is blocked;
    when it returns, all N have, and the completed-count is N; and every run
    can be completed to one that returns.  (N below 2^31, the range of the
    int32 counters.) *)
Theorem dispatcher_barrier `{MapRange} :
  (forall (s : list Scraping) keyword spinner sched,
     Z.of_nat (length s) < 2 ^ 31 ->
     let begun := begin_search (length s) spinner in
     let pool := Pool.run (fun _ v => Crawl v keyword) true s sched
                          (Pool.init (done begun)) in
     done begun = 0 /\ total begun = Z.of_nat (length s) /\
     Pool.done pool
       = Z.of_nat (sum_list_with (Pool.ticked true) (Pool.workers pool)) /\
     (Exists (fun w => w <> Pool.Finished) (Pool.workers pool) \/
      (length (Pool.workers pool) < length s)%nat ->
      CollectData s keyword spinner sched = Blocked) /\
     (forall m sp,
        CollectData s keyword spinner sched = Returned (m, sp) ->
        length (Pool.workers pool) = length s /\
        Forall (fun w => w = Pool.Finished) (Pool.workers pool) /\
        done sp = Z.of_nat (length s) /\ total sp = Z.of_nat (length s)) /\
     exists m sp,
       CollectData s keyword spinner (sched ++ Pool.drain s) = Returned (m, sp)) /\
  (forall (s : list ScrapingEx) keyword spinner sched,
     Z.of_nat (length s) < 2 ^ 31 ->
     let begun := begin_search (length s) spinner in
     let pool := Pool.run (fun _ v => CrawlEx v keyword) true s sched
                          (Pool.init (done begun)) in
     done begun = 0 /\ total begun = Z.of_nat (length s) /\
     Pool.done pool
       = Z.of_nat (sum_list_with (Pool.ticked true) (Pool.workers pool)) /\
     (Exists (fun w => w <> Pool.Finished) (Pool.workers pool) \/
      (length (Pool.workers pool) < length s)%nat ->
      CollectDataEx s keyword spinner sched = Blocked) /\
     (forall m sp,
        CollectDataEx s keyword spinner sched = Returned (m, sp) ->
        length (Pool.workers pool) = length s /\
        Forall (fun w => w = Pool.Finished) (Pool.workers pool) /\
        done sp = Z.of_nat (length s) /\ total sp = Z.of_nat (length s)) /\
     exists m sp,
       CollectDataEx s keyword spinner (sched ++ Pool.drain s) = Returned (m, sp)).
Proof.
  assert (forall n, Z.of_nat n < 2 ^ 31 -> int32 (Z.of_nat n) = Z.of_nat n)
    as Htotal by (intros; apply int32_small; lia).
  assert (forall {Msg} (ws : list (@Pool.pc Msg)),
            Exists (fun w => w <> Pool.Finished) ws ->
            Forall (fun w => w = Pool.Finished) ws -> False) as Hex.
  { intros Msg ws Hsome Hall. apply Exists_exists in Hsome as (w & Hw & Hne).
    rewrite Forall_forall in Hall. by apply Hne, Hall. }
  split; intros s keyword spinner sched Hn begun pool; subst begun pool;
    change (done (begin_search (length s) spinner)) with 0.
  - destruct (pool_barrier (fun v => Crawl v keyword) s sched Hn)
      as (Hd & Hj & _).
    split; [done|]. split; [by apply Htotal|]. split; [done|].
    rewrite CollectData_unfold. cbv zeta.
    split; [|split].
    + intros Hnot. destruct (Pool.joined s _) eqn:Hjoin; [|done].
      destruct (Hj eq_refl) as (Hlen & Hall & _).
      destruct Hnot as [Hsome|Hlt]; [by destruct (Hex _ _ Hsome Hall)|lia].
    + intros m sp. destruct (Pool.joined s _) eqn:Hjoin; [|done].
      intros [= <- <-]. destruct (Hj eq_refl) as (Hlen & Hall & Hdone & _).
      repeat split; try done. simpl. by apply Htotal.
    + apply CollectData_returns.
  - destruct (pool_barrier (fun v => CrawlEx v keyword) s sched Hn)
      as (Hd & Hj & _).
    split; [done|]. split; [by apply Htotal|]. split; [done|].
    rewrite CollectDataEx_unfold. cbv zeta.
    split; [|split].
    + intros Hnot. destruct (Pool.joined s _) eqn:Hjoin; [|done].
      destruct (Hj eq_refl) as (Hlen & Hall & _).
      destruct Hnot as [Hsome|Hlt]; [by destruct (Hex _ _ Hsome Hall)|lia].
    + intros m sp. destruct (Pool.joined s _) eqn:Hjoin; [|done].
      intros [= <- <-]. destruct (Hj eq_refl) as (Hlen & Hall & Hdone & _).
      repeat split; try done. simpl. by apply Htotal.
    + apply CollectDataEx_returns.
Qed.

Lemma dispatcher_barrier_witness :
  exists m sp,
    @CollectData fixed_range colliding_sources "kw" (NewSpinner "Checking sites" 0)
      (Pool.drain colliding_sources) = Returned (m, sp) /\
    done sp = 2 /\ total sp = 2.
Proof.
  destruct (proj1 (@dispatcher_barrier fixed_range) colliding_sources "kw"
              (NewSpinner "Checking sites" 0) (Pool.drain colliding_sources))
    as (_ & _ & _ & _ & Hret & _).
  { vm_compute. reflexivity. }
  eexists _, _. split; [vm_compute; reflexivity|].
  eapply Hret. vm_compute. reflexivity.
Defined.

(** C4, as amended: a record whose value is the sentinel "no magnet" is never
    stored, so no sentinel value appears in the simple-tier aggregate; a
    normalized key is absent from the aggregate exactly when every merged
    record that normalizes to it carries the sentinel.  (The key of a
    sentinel record is therefore present when another record with the same
    normalized key carries a real value.) *)
Theorem sentinel_never_stored `{MapRange} (s : list Scraping)
  (keyword : string) (spinner : Spinner) (sched : list Pool.action) :
  (forall m sp,
     CollectData s keyword spinner sched = Returned (m, sp) ->
     (forall k v, m !! k = Some v -> v <> no_magnet) /\
     (forall k,
        m !! k = None <->
        forall elem raw v,
          elem ∈ crawled s keyword -> elem !! raw = Some v ->
          normalize raw = k -> v = no_magnet)) /\
  exists m sp,
    CollectData s keyword spinner (sched ++ Pool.drain s) = Returned (m, sp).
Proof.
  split; [|apply CollectData_returns].
  intros m sp (elems & Hp & ->)%CollectData_returned. split.
  - intros k v Hk. by apply merge_sound in Hk as [? _].
  - intros k. split.
    + intros Hnone elem raw v He Hr Hn.
      destruct (decide (v = no_magnet)) as [|Hv]; [done|].
      rewrite <- Hp in He.
      destruct (merge_complete _ _ _ _ He Hr Hv) as [v' Hv'].
      rewrite Hn in Hv'. congruence.
    + intros Hall. destruct (merge elems !! k) as [v|] eqn:Hk; [|done].
      apply merge_sound in Hk as (Hv & elem & raw & He & Hr & Hn).
      rewrite Hp in He. destruct Hv. by eapply Hall.
Qed.

Lemma sentinel_never_stored_witness :
  exists m sp,
    @CollectData fixed_range colliding_sources "kw" (NewSpinner "Checking sites" 0)
      (Pool.drain colliding_sources) = Returned (m, sp) /\
    m !! "x" = Some "magnet:?xt=urn:btih:1" /\
    "magnet:?xt=urn:btih:1" <> no_magnet.
Proof.
  eexists _, _. split; [vm_compute; reflexivity|].
  split; [vm_compute; reflexivity|].
  refine (proj1 (proj1 (@sentinel_never_stored fixed_range colliding_sources "kw"
                          (NewSpinner "Checking sites" 0)
                          (Pool.drain colliding_sources)) _ _ _) "x" _ _);
    vm_compute; reflexivity.
Defined.

(** C4, as stated, fails: when one source reports "no magnet" for the key
    [x] and another a magnet link for the same key, the key [x] is in the
    aggregate, whichever of the two is merged first; and when one source
    reports "no magnet" for the title [a b] and a magnet link for the title
    [a_b], the key [a_b] of both is in the aggregate, in whichever order the
    map is ranged over. *)
Lemma sentinel_key_present_counterexample :
  let first0 := Pool.drain colliding_sources in
  let first1 := [Pool.Coord; Pool.Coord] ++ replicate 4 (Pool.Run 1%nat)
                  ++ replicate 4 (Pool.Run 0%nat) in
  ((exists elem, elem ∈ crawled colliding_sources "kw" /\
                 elem !! "x" = Some no_magnet) /\
   normalize "x" = "x" /\
   forall sched, sched = first0 \/ sched = first1 ->
     exists m sp,
       @CollectData fixed_range colliding_sources "kw"
         (NewSpinner "Checking sites" 0) sched = Returned (m, sp) /\
       m !! "x" = Some "magnet:?xt=urn:btih:1") /\
  ((exists elem, elem ∈ crawled colliding_titles "kw" /\
                 elem !! "a b" = Some no_magnet) /\
   normalize "a b" = "a_b" /\
   forall R, R = fixed_range \/ R = reversed_range ->
     exists m sp,
       @CollectData R colliding_titles "kw" (NewSpinner "Checking sites" 0)
         (Pool.drain colliding_titles) = Returned (m, sp) /\
       m !! "a_b" = Some "magnet:?xt=urn:btih:1").
Proof.
  split; (split; [|split; [reflexivity|]]).
  - exists {["x" := "no magnet"]}. split; [apply list_elem_of_here|reflexivity].
  - intros sched [->| ->]; eexists _, _; split;
      try (vm_compute; reflexivity).
  - eexists. split; [apply list_elem_of_here|vm_compute; reflexivity].
  - intros R [->| ->]; eexists _, _; split;
      try (vm_compute; reflexivity).
Qed.

(** C5, as amended: every key is normalized before insertion by replacing
    each space character (U+0020) with an underscore, one for one; other
    white space, such as a tab, is kept.  Hence every key of the returned
    aggregate is the normalized key of a returned record and contains no
    space character. *)
Theorem keys_have_no_space `{MapRange} :
  (forall raw,
     String.list_ascii_of_string (normalize raw)
       = map space_to_underscore (String.list_ascii_of_string raw)) /\
  (forall s keyword spinner sched m sp,
     CollectData s keyword spinner sched = Returned (m, sp) ->
     forall k, is_Some (m !! k) ->
       has_space k = false /\
       exists elem raw,
         elem ∈ crawled s keyword /\ is_Some (elem !! raw) /\ k = normalize raw) /\
  (forall s keyword spinner sched m sp,
     CollectDataEx s keyword spinner sched = Returned (m, sp) ->
     forall k, is_Some (m !! k) ->
       has_space k = false /\
       exists elem raw,
         elem ∈ crawledEx s keyword /\ is_Some (elem !! raw) /\ k = normalize raw).
Proof.
  split; [apply normalize_bytes|]. split.
  - intros s keyword spinner sched m sp (elems & Hp & ->)%CollectData_returned.
    intros k [v Hk]. apply merge_sound in Hk as (_ & elem & raw & He & Hr & <-).
    split; [apply normalize_no_space|].
    exists elem, raw. rewrite <- Hp. eauto.
  - intros s keyword spinner sched m sp (elems & Hp & ->)%CollectDataEx_returned.
    intros k [v Hk]. apply mergeEx_sound in Hk as (elem & raw & He & Hr & <-).
    split; [apply normalize_no_space|].
    exists elem, raw. rewrite <- Hp. eauto.
Qed.

Lemma keys_have_no_space_witness :
  let s := [fixed_source {["a b" := "magnet:?xt=urn:btih:1"]}] in
  exists m sp,
    @CollectData fixed_range s "kw" (NewSpinner "Checking sites" 0)
      (Pool.drain s) = Returned (m, sp) /\
    m !! "a_b" = Some "magnet:?xt=urn:btih:1" /\
    has_space "a_b" = false.
Proof.
  eexists _, _. split; [vm_compute; reflexivity|].
  split; [vm_compute; reflexivity|].
  refine (proj1 (proj1 (proj2 (@keys_have_no_space fixed_range))
                   [fixed_source {["a b" := "magnet:?xt=urn:btih:1"]}] "kw"
                   (NewSpinner "Checking sites" 0)
                   (Pool.drain [dead_source]) _ _ _ "a_b" _)).
  - vm_compute. reflexivity.
  - eexists. vm_compute. reflexivity.
Defined.

(** C5, as stated, fails: a title with a tab in it (a scraped title is
    trimmed at its ends only) is a key of the aggregate as it is, white
    space included; and a run of two spaces becomes two underscores, not
    one. *)
Lemma key_whitespace_counterexample :
  let s := [fixed_source {[tab_title := "magnet:?xt=urn:btih:1"]}] in
  (exists m sp,
     @CollectData fixed_range s "kw" (NewSpinner "Checking sites" 0)
       (Pool.drain s) = Returned (m, sp) /\
     m !! tab_title = Some "magnet:?xt=urn:btih:1") /\
  has_whitespace tab_title = true /\
  normalize "a  b" = "a__b".
Proof.
  split; [|split; reflexivity].
  eexists _, _. split; vm_compute; reflexivity.
Qed.

(** ** The progress spinner *)

Section SpinnerFacts.
Context `{Fmt : FloatFmt}.

Lemma Since_range now t : - 2 ^ 63 <= Since now t < 2 ^ 63.
Proof. unfold Since. lia. Qed.

Lemma Since_small now t :
  - 2 ^ 63 <= now - t < 2 ^ 63 -> Since now t = now - t.
Proof. unfold Since. lia. Qed.

Lemma quot_range a b : - 2 ^ 63 <= a < 2 ^ 63 -> 0 < b -> - 2 ^ 63 <= a ÷ b < 2 ^ 63.
Proof.
  intros Ha Hb. destruct (Z.le_gt_cases 0 a) as [Hpos|Hneg].
  - pose proof (Z.quot_pos a b Hpos Hb).
    assert (a ÷ b <= a); [|lia].
    apply Z.quot_le_upper_bound; nia.
  - assert (0 <= (- a) ÷ b <= - a) as Hq.
    { split; [apply Z.quot_pos; lia|]. apply Z.quot_le_upper_bound; nia. }
    rewrite Z.quot_opp_l in Hq by lia. lia.
Qed.

(** Within the range of the machine integers the ETA is the quotient times
    the number of tasks left. *)
Lemma remaining_exact elapsed total done :
  - 2 ^ 63 <= elapsed < 2 ^ 63 ->
  0 < total < 2 ^ 31 -> 0 < done < 2 ^ 31 ->
  - 2 ^ 63 <= (elapsed ÷ done) * (total - done) < 2 ^ 63 ->
  remaining elapsed total done = (elapsed ÷ done) * (total - done).
Proof.
  intros He Ht Hd Hprod. unfold remaining, avgTime.
  rewrite (int64_small (elapsed ÷ done)) by (apply quot_range; lia).
  rewrite int32_small by lia. rewrite int64_small; lia.
Qed.

Lemma frame_at_ok s : frame_ok s -> exists frame, frame_at s = Returned frame.
Proof.
  intros [Hlo Hhi]. unfold frame_at.
  destruct (current s <? 0) eqn:Hneg; [lia|].
  unfold index.
  destruct (lookup_lt_is_Some_2 (frames s) (Z.to_nat (current s))) as [f Hf];
    [lia|]. rewrite Hf. eauto.
Qed.

Lemma render_status_returned s now st :
  render_status s now = Returned st ->
  exists frame,
    frame_at s = Returned frame /\
    st = status_line frame (message s) (Since now (start s)) (total s) (done s).
Proof.
  unfold render_status. destruct (frame_at s) as [frame| |]; simpl; try done.
  intros [= <-]. eauto.
Qed.

Lemma render_ok s now : frame_ok s -> exists line, render s now = Returned line.
Proof.
  intros [frame Hf]%frame_at_ok. unfold render, render_status.
  rewrite Hf. simpl. eauto.
Qed.

Lemma tick_spec now s :
  frame_ok s ->
  exists line,
    render s now = Returned line /\
    tick now s = Returned
      (set_current ((current s + 1) `rem` Z.of_nat (length (frames s))) s, line).
Proof.
  intros Hok. destruct (render_ok s now Hok) as [line Hl].
  exists line. split; [done|]. unfold tick. rewrite Hl. simpl.
  destruct (decide (frames s = [])) as [Hnil|_]; [|done].
  destruct Hok. rewrite Hnil in *. simpl in *. lia.
Qed.

Lemma tick_returned now s s1 line :
  tick now s = Returned (s1, line) ->
  exists c, s1 = set_current c s.
Proof.
  unfold tick. destruct (render s now); simpl; try done.
  destruct (decide _); [done|]. intros [= <- _]. eauto.
Qed.

Lemma set_current_frame_ok s :
  frame_ok s ->
  frame_ok (set_current ((current s + 1) `rem` Z.of_nat (length (frames s))) s).
Proof.
  intros [Hlo Hhi]. unfold frame_ok. simpl.
  pose proof (Z.rem_bound_pos (current s + 1) (Z.of_nat (length (frames s)))).
  lia.
Qed.

(** The loop only ever moves the frame index. *)
Lemma ticks_returned nows s s1 lines :
  ticks nows s = Returned (s1, lines) -> exists c, s1 = set_current c s.
Proof.
  revert s s1 lines. induction nows as [|now nows IH]; intros s s1 lines; simpl.
  - intros [= <- _]. exists (current s). by destruct s.
  - destruct (tick now s) as [[s' line]| |] eqn:Ht; simpl; try done.
    destruct (ticks nows s') as [[s'' lines']| |] eqn:Hts; simpl; try done.
    intros [= <- _].
    apply tick_returned in Ht as [c ->]. apply IH in Hts as [c' ->].
    by exists c'.
Qed.

Lemma ticks_ok nows s :
  frame_ok s ->
  exists s1 lines,
    ticks nows s = Returned (s1, lines) /\ length lines = length nows.
Proof.
  revert s. induction nows as [|now nows IH]; intros s Hok; simpl.
  - by exists s, [].
  - destruct (tick_spec now s Hok) as (line & _ & ->). simpl.
    destruct (IH _ (set_current_frame_ok s Hok)) as (s1 & lines & -> & Hlen).
    simpl. exists s1, (line :: lines). simpl. by rewrite Hlen.
Qed.

(** A stop operation on a spinner whose loop is running and whose [stop]
    channel is open returns, leaving both channels closed. *)
Lemma await_stopped_ok late s :
  frame_ok s -> stopped s = Open -> ticking s = true ->
  exists s1 lines,
    await_stopped late s = Returned (s1, lines) /\
    length lines = length late /\
    stop s1 = stop s /\ stopped s1 = Closed /\ start s1 = start s.
Proof.
  intros Hok Hopen Hrun. unfold await_stopped. rewrite Hopen, Hrun.
  destruct (ticks_ok late s Hok) as (s' & lines & Ht & Hlen). rewrite Ht.
  apply ticks_returned in Ht as [c ->]. simpl. rewrite Hopen. simpl.
  eexists _, lines. by repeat split.
Qed.

Lemma await_stopped_returned late s s1 lines :
  await_stopped late s = Returned (s1, lines) -> stop s1 = stop s.
Proof.
  unfold await_stopped. destruct (stopped s) eqn:Hs.
  - destruct (ticking s); [|done].
    destruct (ticks late s) as [[s' lines']| |] eqn:Ht; simpl; try done.
    apply ticks_returned in Ht as [c ->]. simpl. rewrite Hs. simpl.
    by intros [= <- _].
  - by intros [= <- _].
Qed.

Lemma Stop_ok late s :
  frame_ok s -> stop s = Open -> stopped s = Open -> ticking s = true ->
  exists s1 lines,
    Stop late s = Returned (s1, lines ++ [clear_line]) /\
    length lines = length late.
Proof.
  intros Hok Hstop Hopen Hrun. unfold Stop. rewrite Hstop. simpl.
  destruct (await_stopped_ok late (set_stop Closed s)) as (s1 & lines & -> & Hlen & _);
    try done.
  simpl. eauto.
Qed.

Lemma StopWithMessage_ok msg late now s :
  frame_ok s -> stop s = Open -> stopped s = Open -> ticking s = true ->
  exists s1 lines,
    StopWithMessage msg late now s =
      Returned (s1, lines ++ [CR +:+ "✓ " +:+ msg +:+ " (" +:+
                              formatDuration (Since now (start s)) +:+ ")" +:+
                              "                                    " +:+ LF]) /\
    length lines = length late.
Proof.
  intros Hok Hstop Hopen Hrun. unfold StopWithMessage. rewrite Hstop. simpl.
  destruct (await_stopped_ok late (set_stop Closed s))
    as (s1 & lines & -> & Hlen & _ & _ & Hstart); try done.
  simpl. rewrite Hstart. simpl. eauto.
Qed.

(** Either stop operation closes [s.stop] first. *)
Lemma Stop_returned late s s1 out :
  Stop late s = Returned (s1, out) -> stop s = Open /\ stop s1 = Closed.
Proof.
  unfold Stop. destruct (stop s) eqn:Hs; simpl; [|done].
  destruct (await_stopped late _) as [[s' lines]| |] eqn:Ha; simpl; try done.
  intros [= <- _]. split; [done|]. by apply await_stopped_returned in Ha.
Qed.

Lemma StopWithMessage_returned msg late now s s1 out :
  StopWithMessage msg late now s = Returned (s1, out) ->
  stop s = Open /\ stop s1 = Closed.
Proof.
  unfold StopWithMessage. destruct (stop s) eqn:Hs; simpl; [|done].
  destruct (await_stopped late _) as [[s' lines]| |] eqn:Ha; simpl; try done.
  intros [= <- _]. split; [done|]. by apply await_stopped_returned in Ha.
Qed.

Lemma Stop_closed late s :
  stop s = Closed -> Stop late s = Panicked "close of closed channel".
Proof. intros Hs. unfold Stop. by rewrite Hs. Qed.

Lemma StopWithMessage_closed msg late now s :
  stop s = Closed ->
  StopWithMessage msg late now s = Panicked "close of closed channel".
Proof. intros Hs. unfold StopWithMessage. by rewrite Hs. Qed.

End SpinnerFacts.

(** C6: the line [render] prints while the completed-count is zero has no
    ETA in it: it is the frame, the message, the progress "[0/total]" when
    the total is positive, and the elapsed time, nothing else.  Once a task
    has completed, with a positive total, the line printed ends with
    "(ETA: ...)" showing [(elapsed / completed) * (total - completed)]
    (integer division, values within the int64 range of a duration); with
    total 5, 1 done and 10 time units elapsed it is 40 time units.  A spinner
    whose frame index is within its frames always renders. *)
Theorem render_eta `{FloatFmt} :
  (forall s now, frame_ok s -> exists line, render s now = Returned line) /\
  (forall s now line,
     done s = 0 -> render s now = Returned line ->
     exists frame,
       frame_at s = Returned frame /\
       line =
         if 0 <? total s then
           CR +:+ frame +:+ " " +:+ message s +:+ " [0/" +:+ pretty (total s) +:+
           "] " +:+ formatDuration (Since now (start s)) +:+ pad10
         else
           CR +:+ frame +:+ " " +:+ message s +:+ " " +:+
           formatDuration (Since now (start s)) +:+ pad10) /\
  (forall s now line,
     0 < total s < 2 ^ 31 -> 0 < done s < 2 ^ 31 ->
     let elapsed := Since now (start s) in
     - 2 ^ 63 <= (elapsed ÷ done s) * (total s - done s) < 2 ^ 63 ->
     render s now = Returned line ->
     exists frame,
       frame_at s = Returned frame /\
       line =
         CR +:+ frame +:+ " " +:+ message s +:+ " [" +:+ pretty (done s) +:+
         "/" +:+ pretty (total s) +:+ "] " +:+ formatDuration elapsed +:+
         " (ETA: " +:+
         formatDuration ((elapsed ÷ done s) * (total s - done s)) +:+ ")" +:+
         pad10) /\
  (forall unit, 0 <= unit -> 40 * unit < 2 ^ 63 ->
     remaining (10 * unit) 5 1 = 40 * unit) /\
  render (set_done 1 (set_total 5 (NewSpinner "Searching" 0))) (10 * Millisecond)
    = Returned (CR +:+ "⠋ Searching [1/5] 10ms (ETA: 40ms)" +:+ pad10).
Proof.
  assert (forall s now line,
            render s now = Returned line ->
            exists frame,
              frame_at s = Returned frame /\
              line = Sprint (status_line frame (message s) (Since now (start s))
                                         (total s) (done s))) as Hline.
  { intros s now line. unfold render.
    destruct (render_status s now) as [st| |] eqn:Hst; simpl; try done.
    intros [= <-].
    apply render_status_returned in Hst as (frame & Hf & ->). eauto. }
  split; [|split; [|split; [|split]]].
  - intros s now Hok. by apply render_ok.
  - intros s now line Hd (frame & Hf & ->)%Hline. exists frame.
    split; [done|]. unfold status_line. rewrite Hd. simpl.
    rewrite andb_false_r. by destruct (0 <? total s).
  - intros s now line Ht Hd elapsed Hprod (frame & Hf & ->)%Hline.
    exists frame. split; [done|]. unfold status_line.
    assert ((0 <? total s) = true) as -> by (apply Z.ltb_lt; lia).
    assert ((0 <? done s) = true) as -> by (apply Z.ltb_lt; lia).
    simpl. fold elapsed.
    rewrite (remaining_exact elapsed (total s) (done s)); try done.
    apply Since_range.
  - intros unit Hu Hlt. rewrite remaining_exact; try lia.
    + rewrite Z.quot_1_r. lia.
    + rewrite Z.quot_1_r. lia.
  - vm_compute. reflexivity.
Qed.

Lemma render_eta_witness :
  let s := set_done 1 (set_total 5 (NewSpinner "Searching" 0)) in
  exists line,
    @render floor_fmt s (10 * Millisecond) = Returned line /\
    line = CR +:+ "⠋ Searching [1/5] 10ms (ETA: 40ms)" +:+ pad10.
Proof.
  intros s.
  assert (exists line, @render floor_fmt s (10 * Millisecond) = Returned line)
    as [line Hr] by (eexists; vm_compute; reflexivity).
  exists line. split; [done|].
  assert (0 < total s < 2 ^ 31) as Ht by (vm_compute; split; reflexivity).
  assert (0 < done s < 2 ^ 31) as Hd by (vm_compute; split; reflexivity).
  assert (- 2 ^ 63 <= (Since (10 * Millisecond) (start s) ÷ done s)
                      * (total s - done s) < 2 ^ 63) as Hprod
    by (vm_compute; split; [discriminate|reflexivity]).
  destruct (proj1 (proj2 (proj2 (@render_eta floor_fmt))) s (10 * Millisecond)
              line Ht Hd Hprod Hr) as (frame & Hf & ->).
  assert (frame = "⠋") as -> by (vm_compute in Hf; congruence).
  vm_compute. reflexivity.
Defined.

(** C10: the stop operations are not idempotent.  [Stop] and
    [StopWithMessage] close the same channel [s.stop] before anything else:
    once either has returned the channel is closed, and every further
    [Stop] or [StopWithMessage] on the spinner panics on closing it again.
    The first stop operation on a started spinner does return. *)
Theorem stop_once `{FloatFmt} :
  (forall s late now msg s1 out,
     Stop late s = Returned (s1, out) \/
     StopWithMessage msg late now s = Returned (s1, out) ->
     stop s = Open /\ stop s1 = Closed /\
     (forall late', Stop late' s1 = Panicked "close of closed channel") /\
     (forall msg' late' now',
        StopWithMessage msg' late' now' s1 = Panicked "close of closed channel")) /\
  (forall msg0 now0 late now msg,
     let s := Start (NewSpinner msg0 now0) in
     (exists s1 out, Stop late s = Returned (s1, out)) /\
     (exists s1 out, StopWithMessage msg late now s = Returned (s1, out))).
Proof.
  split.
  - intros s late now msg s1 out Hfirst.
    assert (stop s = Open /\ stop s1 = Closed) as [Hs Hs1].
    { destruct Hfirst as [H1|H1];
        [by apply Stop_returned in H1|by apply StopWithMessage_returned in H1]. }
    repeat split; try done.
    + intros late'. by apply Stop_closed.
    + intros msg' late' now'. by apply StopWithMessage_closed.
  - intros msg0 now0 late now msg s.
    assert (frame_ok s) as Hok by (unfold frame_ok; simpl; lia).
    split.
    + destruct (Stop_ok late s Hok) as (s1 & lines & Hs & _); eauto.
    + destruct (StopWithMessage_ok msg late now s Hok)
        as (s1 & lines & Hs & _); eauto.
Qed.

Lemma stop_once_witness :
  let s := Start (NewSpinner "Checking sites" 0) in
  exists s1 out,
    @Stop floor_fmt [80 * Millisecond] s = Returned (s1, out) /\
    @StopWithMessage floor_fmt "Found 0 result(s) from 1 site(s)" []
      (200 * Millisecond) s1 = Panicked "close of closed channel".
Proof.
  eexists _, _. split; [vm_compute; reflexivity|].
  refine (proj2 (proj2 (proj2 (proj1 (@stop_once floor_fmt)
            (Start (NewSpinner "Checking sites" 0)) [80 * Millisecond] 0 ""
            _ _ (or_introl _)))) _ _ _).
  vm_compute. reflexivity.
Defined.

(** ** The availability prober *)

Section DoctorFacts.
Context `{Net : Network} `{Rng : MapRange}.
Variable c : Config.
Variable language : string.

#[local] Abbreviation probe := (fun ns : string * SiteConfig => Doctor_probe ns.1 ns.2).
#[local] Abbreviation doctor_pool sched :=
  (Pool.run Doctor_body false (examined c language) sched (Pool.init 0)).

Lemma Doctor_unfold sched :
  Doctor c language sched =
    if Pool.joined (examined c language) (doctor_pool sched)
    then Returned (Pool.ch (doctor_pool sched)) else Blocked.
Proof. reflexivity. Qed.

Lemma Doctor_probe_Name n s : Name (Doctor_probe n s) = n.
Proof.
  unfold Doctor_probe. destruct (http_get (URL s)) as [err|err e|code e]; try done.
  by destruct (code =? 200).
Qed.

Lemma Doctor_probe_Latency n s :
  Latency (Doctor_probe n s) = default 0 (check_elapsed (http_get (URL s))).
Proof.
  unfold Doctor_probe. destruct (http_get (URL s)) as [err|err e|code e]; try done.
  by destruct (code =? 200).
Qed.

Lemma Doctor_probe_URL n s : StatusURL (Doctor_probe n s) = URL s.
Proof.
  unfold Doctor_probe. destruct (http_get (URL s)) as [err|err e|code e]; try done.
  by destruct (code =? 200).
Qed.

Lemma Doctor_probe_Available n s :
  Available (Doctor_probe n s) =
    match http_get (URL s) with
    | Response code _ => code =? 200
    | _ => false
    end.
Proof.
  unfold Doctor_probe. destruct (http_get (URL s)) as [err|err e|code e]; try done.
  by destruct (code =? 200).
Qed.

Lemma elem_of_examined n site :
  (n, site) ∈ examined c language <->
  Sites c !! n = Some site /\ skipped language site = false.
Proof.
  unfold examined. rewrite list_elem_of_filter, range_map_perm.
  rewrite elem_of_map_to_list. simpl. tauto.
Qed.

Lemma NoDup_fst_filter {A B : Type} (P : A * B -> Prop)
  `{forall x, Decision (P x)} (l : list (A * B)) :
  NoDup l.*1 -> NoDup (filter P l).*1.
Proof.
  induction l as [|x l IH]; [done|].
  rewrite fmap_cons, NoDup_cons. intros [Hx Hl].
  rewrite filter_cons. destruct (decide (P x)); [|by apply IH].
  rewrite fmap_cons, NoDup_cons. split; [|by apply IH].
  intros (y & Hy1 & [_ Hy2]%list_elem_of_filter)%list_elem_of_fmap.
  apply Hx, list_elem_of_fmap. eauto.
Qed.

Lemma examined_NoDup : NoDup (examined c language).*1.
Proof.
  unfold examined. apply NoDup_fst_filter.
  rewrite range_map_perm. apply NoDup_fst_map_to_list.
Qed.

Lemma examined_length :
  length (examined c language)
    = size (filter (fun ns : string * SiteConfig => skipped language ns.2 = false)
                   (Sites c)).
Proof.
  unfold examined. rewrite map_filter_alt, map_size_list_to_map.
  - apply Permutation_length, filter_Permutation, range_map_perm.
  - apply NoDup_fst_filter, NoDup_fst_map_to_list.
Qed.

(** among statuses of sites with distinct names, exactly one carries a
    given examined name *)
Lemma filter_by_name (l : list (string * SiteConfig)) n site :
  NoDup l.*1 -> (n, site) ∈ l ->
  filter (fun st => Name st = n) (probe <$> l) = [Doctor_probe n site].
Proof.
  induction l as [|[n0 s0] l IH]; intros Hnd Hin.
  { by apply elem_of_nil in Hin. }
  rewrite fmap_cons, NoDup_cons in Hnd. destruct Hnd as [Hn0 Hnd].
  rewrite fmap_cons, filter_cons. simpl. rewrite Doctor_probe_Name.
  destruct (decide (n0 = n)) as [->|Hne].
  - assert (site = s0) as ->.
    { apply elem_of_cons in Hin as [[= ->]|Hin]; [done|].
      destruct Hn0. apply list_elem_of_fmap. by exists (n, site). }
    f_equal. clear IH Hin Hnd. induction l as [|ns l IHl]; [done|].
    rewrite fmap_cons, not_elem_of_cons in Hn0. destruct Hn0 as [Hne Hn0].
    rewrite fmap_cons, filter_cons, Doctor_probe_Name.
    rewrite decide_False by done. by apply IHl.
  - apply IH; [done|]. apply elem_of_cons in Hin as [[= ? ?]|Hin]; done.
Qed.

Lemma doctor_pool_inv sched :
  Pool.inv Doctor_body false (examined c language) 0 (doctor_pool sched).
Proof. apply PoolFacts.run_inv, PoolFacts.init_inv. done. Qed.

(** What [Doctor] returns: the statuses of the examined sites, in the order
    the goroutines appended them. *)
Lemma Doctor_returned sched results :
  Doctor c language sched = Returned results ->
  results ≡ₚ probe <$> examined c language.
Proof.
  rewrite Doctor_unfold.
  destruct (Pool.joined _ _) eqn:Hj; [|done]. intros [= <-].
  destruct (PoolFacts.joined_spec _ _ _ _ _ (doctor_pool_inv sched) Hj)
    as (_ & _ & _ & Hc).
  rewrite Hc, list_fmap_alt.
  by rewrite <- (results_omap (fun ns => Some (probe ns))).
Qed.

Lemma Doctor_returns sched :
  exists results,
    Doctor c language (sched ++ Pool.drain (examined c language))
      = Returned results.
Proof.
  rewrite Doctor_unfold, PoolFacts.run_app.
  rewrite (PoolFacts.drain_joined _ _ _ 0) by apply doctor_pool_inv. eauto.
Qed.

End DoctorFacts.

(** C7: [Doctor] returns exactly one status for every configured site that
    matches the language filter, whether its check succeeded or failed, and
    nothing else: the statuses are those of the examined sites in the order
    the goroutines finished, there is one status under each examined name,
    every status belongs to an examined site, and their number is the number
    of matching sites.  Every run can be completed to one that returns. *)
Theorem Doctor_one_status_each `{Network} `{MapRange} (c : Config)
  (language : string) (sched : list Pool.action) :
  (forall results,
     Doctor c language sched = Returned results ->
     results ≡ₚ (fun ns => Doctor_probe ns.1 ns.2) <$> examined c language /\
     (forall n site,
        Sites c !! n = Some site -> skipped language site = false ->
        filter (fun st => Name st = n) results = [Doctor_probe n site]) /\
     (forall st, st ∈ results ->
        exists site, Sites c !! Name st = Some site /\
                     skipped language site = false /\
                     st = Doctor_probe (Name st) site) /\
     length results
       = size (filter (fun ns : string * SiteConfig => skipped language ns.2 = false)
                      (Sites c))) /\
  exists results,
    Doctor c language (sched ++ Pool.drain (examined c language))
      = Returned results.
Proof.
  split; [|apply Doctor_returns].
  intros results Hp%Doctor_returned. split; [done|]. split; [|split].
  - intros n site Hn Hs. apply Permutation_singleton_r.
    rewrite Hp. rewrite filter_by_name with (site := site); [done| |].
    + apply examined_NoDup.
    + by apply elem_of_examined.
  - intros st Hst. rewrite Hp in Hst.
    apply list_elem_of_fmap in Hst as ([n site] & -> & Hin).
    apply elem_of_examined in Hin as [Hn Hs]. simpl.
    rewrite Doctor_probe_Name. eauto.
  - rewrite Hp, length_fmap. apply examined_length.
Qed.

Lemma Doctor_one_status_each_witness :
  exists results,
    @Doctor all_up fixed_range demo_config "" (Pool.drain (@examined fixed_range demo_config ""))
      = Returned results /\
    filter (fun st => Name st = "nyaa") results
      = [@Doctor_probe all_up "nyaa" (mkSiteConfig "https://nyaa.si" true "jp")].
Proof.
  eexists. split; [vm_compute; reflexivity|].
  refine (proj1 (proj2 (proj1 (@Doctor_one_status_each all_up fixed_range
            demo_config "" (Pool.drain (@examined fixed_range demo_config ""))) _ _))
            "nyaa" _ _ _);
    vm_compute; reflexivity.
Defined.

(** C8, as amended: for every examined site whose request could be built,
    the time [client.Do] took is recorded as the latency of its status,
    whatever the outcome (a response with any status code, a transport error
    or a timeout); a site whose URL [http.NewRequest] refuses gets a status
    that is not available, carries the error [http.NewRequest] returned and
    has latency zero, no check having been timed. *)
Theorem Doctor_latency `{Network} `{MapRange} (c : Config)
  (language : string) (sched : list Pool.action) :
  forall results,
    Doctor c language sched = Returned results ->
    forall st, st ∈ results ->
      exists site,
        Sites c !! Name st = Some site /\
        StatusURL st = URL site /\
        (forall elapsed,
           check_elapsed (http_get (URL site)) = Some elapsed ->
           Latency st = elapsed) /\
        (check_elapsed (http_get (URL site)) = None ->
           Latency st = 0 /\ Available st = false /\
           exists err,
             http_get (URL site) = BadRequest err /\ Error st = err).
Proof.
  intros results Hp%Doctor_returned st Hst. rewrite Hp in Hst.
  apply list_elem_of_fmap in Hst as ([n site] & -> & Hin).
  apply elem_of_examined in Hin as [Hn Hs]. simpl.
  rewrite Doctor_probe_Name, Doctor_probe_URL, Doctor_probe_Latency,
    Doctor_probe_Available.
  exists site. split; [done|]. split; [done|]. split.
  - intros elapsed He. by rewrite He.
  - intros He. unfold Doctor_probe.
    destruct (http_get (URL site)) as [err|err e|code e]; try done.
    simpl. eauto.
Qed.

Lemma Doctor_latency_witness :
  exists results st,
    @Doctor (net_of []) fixed_range demo_config "jp"
       (Pool.drain (@examined fixed_range demo_config "jp")) = Returned results /\
    st ∈ results /\ Name st = "nyaa" /\ Error st = "context deadline exceeded" /\
    Latency st = 10 * Second.
Proof.
  assert (@Doctor (net_of []) fixed_range demo_config "jp"
            (Pool.drain (@examined fixed_range demo_config "jp"))
          = Returned [mkSiteStatus "nyaa" "https://nyaa.si" false (10 * Second)
                        "context deadline exceeded" "jp" true]) as Hret.
  { vm_compute. reflexivity. }
  eexists _, _. split; [exact Hret|].
  split; [apply list_elem_of_here|]. split; [reflexivity|]. split; [reflexivity|].
  destruct (@Doctor_latency (net_of []) fixed_range demo_config "jp"
              (Pool.drain (@examined fixed_range demo_config "jp")) _
              Hret _ (list_elem_of_here _ _))
    as (site & Hsite & _ & Hrec & _).
  apply Hrec. vm_compute in Hsite. injection Hsite as <-.
  vm_compute. reflexivity.
Defined.

(** C8, as stated, fails: the site [torrenttop] of [demo_config] has a URL
    that [http.NewRequest] refuses; it is examined and gets its status, but
    no check is timed for it and its latency stays zero. *)
Lemma latency_not_recorded_counterexample :
  exists results st,
    @Doctor all_up fixed_range demo_config ""
       (Pool.drain (@examined fixed_range demo_config "")) = Returned results /\
    st ∈ results /\ Name st = "torrenttop" /\
    @http_get all_up (StatusURL st) = BadRequest "missing protocol scheme" /\
    Latency st = 0 /\
    ~ exists elapsed,
        check_elapsed (@http_get all_up (StatusURL st)) = Some elapsed /\
        Latency st = elapsed.
Proof.
  eexists _, _. split; [vm_compute; reflexivity|].
  split; [apply list_elem_of_further, list_elem_of_here|].
  repeat split; try (vm_compute; reflexivity).
  intros (elapsed & He & _). vm_compute in He. discriminate.
Qed.

(** ** The search driver *)

Section SearchFacts.
Context `{Fmt : FloatFmt} `{Net : Network} `{Rng : MapRange}.

Lemma gate_returned_spinner {Handle : Type} items urls now
  (oldItems : list Handle) sched newItems sp :
  gate items urls now oldItems sched = Returned (newItems, sp) ->
  exists d, sp = set_done d (gate_spinner now (length oldItems)).
Proof.
  rewrite gate_unfold. destruct (Pool.joined _ _); [|done].
  destruct (project _ _ _); simpl; try done. intros [= _ <-]. eauto.
Qed.



End SearchFacts.



(** ** The producer of the sentinel *)

Lemma prefix_magnet_not_sentinel h :
  String.prefix "magnet:?" h = true -> h <> "" /\ h <> no_magnet.
Proof.
  intros Hp. split; intros ->; vm_compute in Hp; discriminate.
Qed.

Lemma first_magnet_prefix anchors h :
  first_magnet anchors = Some h -> String.prefix "magnet:?" h = true.
Proof.
  unfold first_magnet.
  destruct (List.find is_magnet anchors) as [[h'|]|] eqn:Hf; try done.
  intros [= ->]. by apply List.find_some in Hf as [_ Hm].
Qed.

(** [GetMagnet] answers with the sentinel exactly when the page parsed and
    no magnet icon has a magnet link next to it; any other answer for a
    parsed page is a magnet link. *)
Lemma GetMagnet_sentinel icons :
  (GetMagnet (Page icons) = no_magnet <->
   Forall (fun anchors => first_magnet anchors = None) icons) /\
  (GetMagnet (Page icons) <> no_magnet ->
   String.prefix "magnet:?" (GetMagnet (Page icons)) = true).
Proof.
  unfold GetMagnet.
  set (pick := fun (magnet : string) anchors =>
                 match first_magnet anchors with Some h => h | None => magnet end).
  assert (forall l m0,
            (m0 = "" \/ String.prefix "magnet:?" m0 = true) ->
            (foldl pick m0 l = "" <->
               m0 = "" /\ Forall (fun anchors => first_magnet anchors = None) l) /\
            (foldl pick m0 l = "" \/
               String.prefix "magnet:?" (foldl pick m0 l) = true)) as Hfold.
  { induction l as [|anchors l IH]; intros m0 Hm0; simpl.
    - split; [|done]. split; [by intros ->|by intros [-> _]].
    - destruct (first_magnet anchors) as [h|] eqn:Hh.
      + assert (pick m0 anchors = h) as -> by (unfold pick; by rewrite Hh).
        pose proof (first_magnet_prefix _ _ Hh) as Hp.
        destruct (IH h (or_intror Hp)) as [Hiff Hor]. split; [|done].
        split.
        * intros [-> _]%Hiff. by vm_compute in Hp.
        * intros [_ [Hnone _]%Forall_cons]. congruence.
      + assert (pick m0 anchors = m0) as -> by (unfold pick; by rewrite Hh).
        destruct (IH m0 Hm0) as [Hiff Hor]. split; [|done].
        rewrite Hiff, Forall_cons. tauto. }
  destruct (Hfold icons "" (or_introl eq_refl)) as [Hiff Hor].
  destruct (String.eqb (foldl pick "" icons) "") eqn:He.
  - apply String.eqb_eq in He. split; [|done].
    split; [intros _; by apply Hiff|done].
  - apply String.eqb_neq in He. destruct Hor as [?|Hp]; [done|].
    split; [|done]. split.
    + intros Hs. by apply prefix_magnet_not_sentinel in Hp as [_ ?].
    + intros Hall. destruct He. apply Hiff. by split.
Qed.

(** * More of the code *)

(** ** [RemoveNonAscII] *)

Lemma RemoveNonAscII_bytes s :
  String.list_ascii_of_string (RemoveNonAscII s)
    = filter (fun b => is_plain b = true) (String.list_ascii_of_string s).
Proof.
  induction s as [|b s IH]; [done|]. simpl. rewrite filter_cons.
  destruct (is_plain b) eqn:Hb; simpl; by rewrite ?IH.
Qed.

Lemma RemoveNonAscII_app s t :
  RemoveNonAscII (s +:+ t) = RemoveNonAscII s +:+ RemoveNonAscII t.
Proof.
  induction s as [|b s IH]; [done|]. simpl.
  destruct (is_plain b); simpl; by rewrite IH.
Qed.

Lemma RemoveNonAscII_plain s :
  Forall (fun b => is_plain b = true)
         (String.list_ascii_of_string (RemoveNonAscII s)).
Proof.
  rewrite RemoveNonAscII_bytes. apply Forall_forall.
  by intros b [? _]%list_elem_of_filter.
Qed.

Lemma RemoveNonAscII_fixed s :
  RemoveNonAscII s = s <->
  Forall (fun b => is_plain b = true) (String.list_ascii_of_string s).
Proof.
  split.
  - intros <-. apply RemoveNonAscII_plain.
  - induction s as [|b s IH]; [done|]. simpl.
    intros [Hb Hs]%Forall_cons. rewrite Hb. f_equal. by apply IH.
Qed.

(** X1: [RemoveNonAscII] keeps exactly the bytes a-z, A-Z, 0-9 and the space, in
    their order, and nothing else; a string is left as it is exactly when
    all its bytes are of that kind, so that the function is idempotent; and
    it distributes over concatenation. *)
Theorem RemoveNonAscII_keeps_plain :
  (forall s,
     String.list_ascii_of_string (RemoveNonAscII s)
       = filter (fun b => is_plain b = true) (String.list_ascii_of_string s)) /\
  (forall s,
     RemoveNonAscII s = s <->
     Forall (fun b => is_plain b = true) (String.list_ascii_of_string s)) /\
  (forall s, RemoveNonAscII (RemoveNonAscII s) = RemoveNonAscII s) /\
  (forall s t,
     RemoveNonAscII (s +:+ t) = RemoveNonAscII s +:+ RemoveNonAscII t).
Proof.
  split; [apply RemoveNonAscII_bytes|]. split; [apply RemoveNonAscII_fixed|].
  split; [|apply RemoveNonAscII_app].
  intros s. apply RemoveNonAscII_fixed, RemoveNonAscII_plain.
Qed.

Lemma RemoveNonAscII_keeps_plain_witness :
  RemoveNonAscII "Ubuntu 22.04" = "Ubuntu 2204" /\
  RemoveNonAscII "Ubuntu 2204" = "Ubuntu 2204".
Proof.
  split; [reflexivity|].
  apply (proj1 (proj2 RemoveNonAscII_keeps_plain)).
  repeat constructor.
Defined.

Lemma normalize_plain_byte b :
  is_plain b = true ->
  is_alnum_or_underscore (space_to_underscore b) = true /\
  is_whitespace (space_to_underscore b) = false.
Proof.
  destruct b as [[] [] [] [] [] [] [] []]; vm_compute; intros Hb;
    try discriminate Hb; split; reflexivity.
Qed.

Lemma has_whitespace_Forall k :
  has_whitespace k = false <->
  Forall (fun b => is_whitespace b = false) (String.list_ascii_of_string k).
Proof.
  induction k as [|b k IH]; simpl.
  - split; [constructor|done].
  - rewrite orb_false_iff, Forall_cons, IH. done.
Qed.

(** X2: A string passed through [RemoveNonAscII] and then normalized as a key
    consists of the bytes a-z, A-Z, 0-9 and the underscore only; it contains
    no white space of any kind. *)
Theorem normalize_RemoveNonAscII_clean (s : string) :
  Forall (fun b => is_alnum_or_underscore b = true)
         (String.list_ascii_of_string (normalize (RemoveNonAscII s))) /\
  has_whitespace (normalize (RemoveNonAscII s)) = false.
Proof.
  rewrite has_whitespace_Forall, normalize_bytes.
  pose proof (RemoveNonAscII_plain s) as Hp.
  split; apply Forall_fmap; (eapply Forall_impl; [exact Hp|]);
    intros b Hb; simpl; by apply normalize_plain_byte.
Qed.

(** ** [GetResponseFromURL] *)

(** X3: [GetResponseFromURL], which the scrapers fetch their pages with, and
    [CheckNetWorkFromURL], which the gates probe the sites with, accept the
    same answers: [ok] is true exactly when the check holds for the same
    URL, that is, when the request could be built and sent and the response
    has status 200. *)
Theorem GetResponseFromURL_ok `{Network} (url : string) :
  GetResponseFromURL url = CheckNetWorkFromURL url /\
  (GetResponseFromURL url = true <->
   exists elapsed, http_get url = Response 200 elapsed).
Proof.
  unfold GetResponseFromURL, CheckNetWorkFromURL.
  destruct (http_get url) as [err|err e|code e]; simpl.
  - split; [done|]. split; [done|]. by intros [? ?].
  - split; [done|]. split; [done|]. by intros [? ?].
  - destruct (code =? 200) eqn:Hc; simpl.
    + apply Z.eqb_eq in Hc. subst. split; [done|]. split; [eauto|done].
    + apply Z.eqb_neq in Hc. split; [done|]. split; [done|].
      intros [e' [= -> _]]. done.
Qed.

Lemma GetResponseFromURL_ok_witness :
  @GetResponseFromURL all_up "https://nyaa.si" = true.
Proof.
  apply (proj2 (proj2 (@GetResponseFromURL_ok all_up "https://nyaa.si"))).
  eexists. vm_compute. reflexivity.
Defined.

(** ** More on the spinner *)

Section SpinnerMore.
Context `{Fmt : FloatFmt}.

Lemma set_current_twice a b s : set_current a (set_current b s) = set_current a s.
Proof. done. Qed.

Lemma ticks_cycle_from nows s :
  frame_ok s ->
  exists lines,
    ticks nows s =
      Returned (set_current ((current s + Z.of_nat (length nows))
                               `mod` Z.of_nat (length (frames s))) s, lines) /\
    length lines = length nows.
Proof.
  revert s. induction nows as [|now nows IH]; intros s Hok.
  - exists []. split; [|done]. simpl. rewrite Z.add_0_r.
    destruct Hok. rewrite Z.mod_small by lia. by destruct s.
  - destruct (tick_spec now s Hok) as (line & _ & Ht).
    destruct (IH _ (set_current_frame_ok s Hok)) as (lines & Hts & Hlen).
    exists (line :: lines). split; [|simpl; by rewrite Hlen].
    cbn [ticks]. rewrite Ht. cbn [mbind outcome_bind Go.bind].
    rewrite Hts. cbn [mbind outcome_bind Go.bind mret outcome_ret].
    rewrite set_current_twice. do 3 f_equal. simpl frames. simpl current.
    destruct Hok as [Hlo Hhi].
    rewrite Z.rem_mod_nonneg by lia.
    rewrite Zplus_mod_idemp_l. f_equal. simpl length. lia.
Qed.

End SpinnerMore.

(** X4: The loop of a spinner whose frame index is within its frames (as it is
    from [NewSpinner] on) never panics: every turn prints one line, and after
    [n] turns the frame index is the old one plus [n] modulo the number of
    frames, nothing else of the spinner having changed. *)
Theorem ticks_cycle `{FloatFmt} (nows : list Z) (s : Spinner) :
  frame_ok s ->
  exists lines,
    ticks nows s =
      Returned (set_current ((current s + Z.of_nat (length nows))
                               `mod` Z.of_nat (length (frames s))) s, lines) /\
    length lines = length nows.
Proof. apply ticks_cycle_from. Qed.

Lemma ticks_cycle_witness :
  exists s1 lines,
    @ticks floor_fmt (replicate 12 0) (NewSpinner "Checking sites" 0)
      = Returned (s1, lines) /\ current s1 = 2.
Proof.
  destruct (@ticks_cycle floor_fmt (replicate 12 0) (NewSpinner "Checking sites" 0))
    as (lines & Ht & _).
  - unfold frame_ok. simpl. lia.
  - eexists _, lines. split; [exact Ht|]. reflexivity.
Defined.

(** X5: A stop operation on a spinner that was never started blocks for ever:
    it closes [s.stop] and then waits on [s.stopped], which only the loop of
    [Start] closes. *)
Theorem stop_before_start_blocks `{FloatFmt} (s : Spinner) (late : list Z)
  (msg : string) (now : Z) :
  stop s = Open -> stopped s = Open -> ticking s = false ->
  Stop late s = Blocked /\ StopWithMessage msg late now s = Blocked.
Proof.
  intros Hstop Hopen Hrun. unfold Stop, StopWithMessage, await_stopped.
  rewrite Hstop. simpl. by rewrite Hopen, Hrun.
Qed.

Lemma stop_before_start_blocks_witness :
  @Stop floor_fmt [] (NewSpinner "Checking sites" 0) = Blocked.
Proof.
  apply (@stop_before_start_blocks floor_fmt (NewSpinner "Checking sites" 0)
           [] "" 0); reflexivity.
Defined.

(** X6: With a non-negative elapsed time and values within the machine ranges,
    the ETA is zero once every task is done (it is shown as "0ms"), it is
    not negative while tasks are left, and not positive when more tasks are
    done than the total says. *)
Theorem eta_sign `{FloatFmt} (elapsed total done : Z) :
  0 <= elapsed < 2 ^ 63 -> 0 < total < 2 ^ 31 -> 0 < done < 2 ^ 31 ->
  - 2 ^ 63 <= (elapsed ÷ done) * (total - done) < 2 ^ 63 ->
  (done = total ->
   remaining elapsed total done = 0 /\
   formatDuration (remaining elapsed total done) = "0ms") /\
  (done < total -> 0 <= remaining elapsed total done) /\
  (total < done -> remaining elapsed total done <= 0).
Proof.
  intros He Ht Hd Hp. rewrite remaining_exact by lia.
  assert (0 <= elapsed ÷ done) by (apply Z.quot_pos; lia).
  split; [|split].
  - intros ->. rewrite Z.sub_diag, Z.mul_0_r. done.
  - intros Hlt. apply Z.mul_nonneg_nonneg; lia.
  - intros Hlt. apply Z.mul_nonneg_nonpos; lia.
Qed.

Lemma eta_sign_witness :
  remaining (10 * Millisecond) 5 5 = 0.
Proof.
  apply (@eta_sign floor_fmt (10 * Millisecond) 5 5); vm_compute;
    first [reflexivity | split; first [reflexivity | discriminate]].
Defined.

(** ** More on the gate and the search driver *)

Section GateMore.
Context `{Net : Network} {Handle : Type}.

Lemma gate_never_panics items urls now (oldItems : list Handle) sched msg :
  (length items <= length oldItems)%nat ->
  gate items urls now oldItems sched <> Panicked msg.
Proof.
  intros Hlen. rewrite gate_unfold. destruct (Pool.joined _ _); [|done].
  rewrite project_in_bounds; [done|].
  apply Forall_forall. intros v Hv%gate_channel_live.
  apply live_positions_live, live_positions_lt in Hv. lia.
Qed.

Lemma length_omap_le {A B : Type} (f : A -> option B) (l : list A) :
  (length (omap f l) <= length l)%nat.
Proof.
  induction l as [|x l IH]; [done|].
  change (omap f (x :: l)) with (option_list (f x) ++ omap f l)
    || (cbn [omap list_omap]).
  destruct (f x); simpl in *; lia.
Qed.

Lemma gate_progress_of items urls now (oldItems : list Handle) sched newItems sp :
  Z.of_nat (length oldItems) < 2 ^ 31 -> Z.of_nat (length items) < 2 ^ 31 ->
  gate items urls now oldItems sched = Returned (newItems, sp) ->
  sp = set_done (Z.of_nat (length items))
                (set_ticking true
                   (set_total (Z.of_nat (length oldItems))
                              (NewSpinner "Checking sites" now))) /\
  (length newItems <= length items)%nat.
Proof.
  intros Ho Hi Hg.
  destruct (gate_returned _ _ _ _ _ _ _ Hg) as (Hp & Hall & -> & Hd).
  apply gate_returned_spinner in Hg as [d ->]. simpl in Hd. subst d.
  split.
  - unfold gate_spinner, Start, SetTotal.
    rewrite !int32_small by lia. done.
  - etrans; [apply length_omap_le|]. rewrite Hp.
    unfold live_positions. etrans; [apply length_filter|].
    by rewrite length_seq.
Qed.

End GateMore.

(** X7: The spinner a gate hands back counts the names the gate probed, not the
    handles it was given: its completed-count is the length of the gate's
    name list (1 for [GetAvailableSites], 2 for [GetAvailableSitesEx]) and
    its total the length of the caller's list, so the two agree only for a
    caller's list of exactly that length.  The spinner is running, with both
    channels open, and the gate returns at most as many handles as it has
    names. *)
Theorem gate_progress `{Network} {Handle : Type} (urls : gmap string string)
  (now : Z) (oldItems : list Handle) (sched : list Pool.action) :
  Z.of_nat (length oldItems) < 2 ^ 31 ->
  (forall newItems sp,
     GetAvailableSites urls now oldItems sched = Returned (newItems, sp) ->
     done sp = 1 /\ total sp = Z.of_nat (length oldItems) /\
     message sp = "Checking sites" /\ start sp = now /\
     stop sp = Open /\ stopped sp = Open /\ ticking sp = true /\
     (length newItems <= 1)%nat) /\
  (forall newItems sp,
     GetAvailableSitesEx urls now oldItems sched = Returned (newItems, sp) ->
     done sp = 2 /\ total sp = Z.of_nat (length oldItems) /\
     message sp = "Checking sites" /\ start sp = now /\
     stop sp = Open /\ stopped sp = Open /\ ticking sp = true /\
     (length newItems <= 2)%nat).
Proof.
  intros Ho. split; intros newItems sp Hg;
    apply gate_progress_of in Hg as [-> Hlen]; try done.
Qed.

Lemma gate_progress_witness :
  exists newItems sp,
    @GetAvailableSitesEx all_up string demo_urls 0 ["A"; "B"; "C"]
      (Pool.drain ["nyaa"; "sukebe"]) = Returned (newItems, sp) /\
    done sp = 2 /\ total sp = 3.
Proof.
  eexists _, _. split; [vm_compute; reflexivity|].
  destruct (proj2 (@gate_progress all_up string demo_urls 0 ["A"; "B"; "C"]
                     (Pool.drain ["nyaa"; "sukebe"]) eq_refl) _ _ eq_refl)
    as (Hd & Ht & _).
  split; [exact Hd|exact Ht].
Defined.

Section SearchMore.
Context `{Fmt : FloatFmt} `{Net : Network} `{Rng : MapRange}.

Lemma CollectData_spinner s keyword spinner sched m sp :
  CollectData s keyword spinner sched = Returned (m, sp) ->
  exists d, sp = set_done d (begin_search (length s) spinner).
Proof.
  rewrite CollectData_unfold. cbv zeta. destruct (Pool.joined _ _); [|done].
  intros [= _ <-]. eauto.
Qed.

Lemma CollectDataEx_spinner s keyword spinner sched m sp :
  CollectDataEx s keyword spinner sched = Returned (m, sp) ->
  exists d, sp = set_done d (begin_search (length s) spinner).
Proof.
  rewrite CollectDataEx_unfold. cbv zeta. destruct (Pool.joined _ _); [|done].
  intros [= _ <-]. eauto.
Qed.

Lemma CollectData_never_panics s keyword spinner sched msg :
  CollectData s keyword spinner sched <> Panicked msg.
Proof. rewrite CollectData_unfold. cbv zeta. by destruct (Pool.joined _ _). Qed.

Lemma CollectDataEx_never_panics s keyword spinner sched msg :
  CollectDataEx s keyword spinner sched <> Panicked msg.
Proof. rewrite CollectDataEx_unfold. cbv zeta. by destruct (Pool.joined _ _). Qed.

Lemma StopWithMessage_after_search msg (w : World) d d' n k :
  let sp := set_done d' (begin_search k (set_done d (gate_spinner (gate_now w) n))) in
  exists sp1 lines,
    StopWithMessage msg (late_ticks w) (stop_now w) sp
      = Returned (sp1, lines ++ [found_line w msg]) /\
    length lines = length (late_ticks w).
Proof.
  intros sp.
  assert (frame_ok sp) as Hok by (unfold frame_ok; simpl; lia).
  destruct (StopWithMessage_ok msg (late_ticks w) (stop_now w) sp Hok)
    as (sp1 & lines & Hs & Hlen); try done.
  by exists sp1, lines.
Qed.

Lemma Stop_after_gate (w : World) d n :
  exists sp1 lines,
    Stop (late_ticks w) (set_done d (gate_spinner (gate_now w) n))
      = Returned (sp1, lines ++ [clear_line]).
Proof.
  set (sp := set_done d _).
  assert (frame_ok sp) as Hok by (unfold frame_ok; simpl; lia).
  destruct (Stop_ok (late_ticks w) sp Hok) as (sp1 & lines & Hs & _); eauto.
Qed.

End SearchMore.

(** X8: When the gate returns live sites and the dispatcher returns, [doSearch]
    has called the dispatcher once, with exactly the live sites and the
    keyword, stops the spinner with the line "Found N result(s) from M
    site(s)", N being the number of keys of the aggregate and M the number
    of live sites, followed by the time since the gate began, then prints
    the table and returns [nil]. *)
Theorem found_sites_are_searched `{FloatFmt} `{Network} `{MapRange}
  (w : World) (keyword lang : string) :
  keyword <> "" ->
  (lang = "kr" ->
   forall sites sp data sp2,
     GetAvailableSites (TorrentURL w) (gate_now w) [TorrentTop w] (gate_sched w)
       = Returned (sites, sp) ->
     sites <> [] ->
     CollectData sites keyword sp (collect_sched w) = Returned (data, sp2) ->
     exists lines,
       length lines = length (late_ticks w) /\
       doSearch w keyword lang =
         Returned ([CallGate 1; CallCollect (length sites) keyword] ++
                   (Terminal <$> (lines ++
                      [found_line w (found_message (size data) (length sites))])) ++
                   [CallPrint (size data)], None)) /\
  (lang <> "kr" ->
   forall sites sp data sp2,
     GetAvailableSitesEx (TorrentURL w) (gate_now w) [Nyaa w; SuKeBe w]
                         (gate_sched w)
       = Returned (sites, sp) ->
     sites <> [] ->
     CollectDataEx sites keyword sp (collect_sched w) = Returned (data, sp2) ->
     exists lines,
       length lines = length (late_ticks w) /\
       doSearch w keyword lang =
         Returned ([CallGate 2; CallCollect (length sites) keyword] ++
                   (Terminal <$> (lines ++
                      [found_line w (found_message (size data) (length sites))])) ++
                   [CallPrint (size data)], None)).
Proof.
  intros Hk%String.eqb_neq. split.
  - intros -> sites sp data sp2 Hg Hne Hc.
    destruct (gate_returned_spinner _ _ _ _ _ _ _ Hg) as [d ->].
    destruct (CollectData_spinner _ _ _ _ _ _ Hc) as [d' ->].
    destruct (StopWithMessage_after_search
                (found_message (size data) (length sites)) w d d' 1
                (length sites)) as (sp1 & lines & Hs & Hlen).
    exists lines. split; [done|].
    unfold doSearch. rewrite Hk, String.eqb_refl. cbv zeta.
    rewrite Hg. cbn [mbind outcome_bind Go.bind].
    destruct sites as [|x sites]; [done|].
    cbn [length] in Hc, Hs.
    cbn [length Nat.eqb]. rewrite Hc. cbn [mbind outcome_bind Go.bind].
    rewrite Hs. done.
  - intros Hl%String.eqb_neq sites sp data sp2 Hg Hne Hc.
    destruct (gate_returned_spinner _ _ _ _ _ _ _ Hg) as [d ->].
    destruct (CollectDataEx_spinner _ _ _ _ _ _ Hc) as [d' ->].
    destruct (StopWithMessage_after_search
                (found_message (size data) (length sites)) w d d' 2
                (length sites)) as (sp1 & lines & Hs & Hlen).
    exists lines. split; [done|].
    unfold doSearch. rewrite Hk, Hl. cbv zeta.
    rewrite Hg. cbn [mbind outcome_bind Go.bind].
    destruct sites as [|x sites]; [done|].
    cbn [length] in Hc, Hs.
    cbn [length Nat.eqb]. rewrite Hc. cbn [mbind outcome_bind Go.bind].
    rewrite Hs. done.
Qed.

Lemma found_sites_are_searched_witness :
  exists lines,
    @doSearch floor_fmt all_up fixed_range bright_world "ubuntu" "kr" =
      Returned ([CallGate 1; CallCollect 1 "ubuntu"] ++
                (Terminal <$> (lines ++
                   [@found_line floor_fmt bright_world (found_message 1 1)])) ++
                [CallPrint 1], None).
Proof.
  edestruct (proj1 (@found_sites_are_searched floor_fmt all_up fixed_range
                      bright_world "ubuntu" "kr" ltac:(discriminate)) eq_refl)
    as (lines & _ & Hs).
  - vm_compute. reflexivity.
  - discriminate.
  - vm_compute. reflexivity.
  - exists lines. exact Hs.
Defined.

(** X9: With sources whose [Crawl] returns, nothing [doSearch] does itself
    panics: the lists it hands to the gates are as long as the gates' name
    lists, the spinner it stops is the running one of the gate, and it stops
    it once.  It returns, or is still waiting for the goroutines of the gate
    or of the dispatcher. *)
Theorem doSearch_never_panics `{FloatFmt} `{Network} `{MapRange}
  (w : World) (keyword lang : string) :
  doSearch w keyword lang = Blocked \/
  exists trace err, doSearch w keyword lang = Returned (trace, err).
Proof.
  unfold doSearch. destruct (String.eqb keyword ""); [right; by eexists _, _|].
  destruct (String.eqb lang "kr"); cbv zeta.
  - destruct (GetAvailableSites _ _ _ _) as [[sites sp]|msg'|] eqn:Hg;
      [|by apply gate_never_panics in Hg|by left].
    cbn [mbind outcome_bind Go.bind].
    apply gate_returned_spinner in Hg as [d ->].
    destruct (length sites =? 0)%nat.
    + destruct (Stop_after_gate w d (length [TorrentTop w]))
        as (sp1 & lines & ->). right. by eexists _, _.
    + destruct (CollectData _ _ _ _) as [[data sp2]|msg'|] eqn:Hc;
        [|by apply CollectData_never_panics in Hc|by left].
      cbn [mbind outcome_bind Go.bind].
      apply CollectData_spinner in Hc as [d' ->].
      destruct (StopWithMessage_after_search
                  (found_message (size data) (length sites)) w d d'
                  (length [TorrentTop w]) (length sites))
        as (sp1 & lines & -> & _). right. by eexists _, _.
  - destruct (GetAvailableSitesEx _ _ _ _) as [[sites sp]|msg'|] eqn:Hg;
      [|by apply gate_never_panics in Hg|by left].
    cbn [mbind outcome_bind Go.bind].
    apply gate_returned_spinner in Hg as [d ->].
    destruct (length sites =? 0)%nat.
    + destruct (Stop_after_gate w d (length [Nyaa w; SuKeBe w]))
        as (sp1 & lines & ->). right. by eexists _, _.
    + destruct (CollectDataEx _ _ _ _) as [[data sp2]|msg'|] eqn:Hc;
        [|by apply CollectDataEx_never_panics in Hc|by left].
      cbn [mbind outcome_bind Go.bind].
      apply CollectDataEx_spinner in Hc as [d' ->].
      destruct (StopWithMessage_after_search
                  (found_message (size data) (length sites)) w d d'
                  (length [Nyaa w; SuKeBe w]) (length sites))
        as (sp1 & lines & -> & _). right. by eexists _, _.
Qed.

(** ** The configuration store *)

Section StoreFacts.
Context `{Js : Json} `{Rng : MapRange}.

Lemma range_map_list_to_map {V : Type} (m : gmap string V) :
  list_to_map (range_map m) = m /\ NoDup (range_map m).*1.
Proof.
  assert (NoDup (range_map m).*1) as Hnd.
  { rewrite range_map_perm. apply NoDup_fst_map_to_list. }
  split; [|done].
  rewrite <- (list_to_map_to_list m) at 2.
  apply list_to_map_proper; [done|apply range_map_perm].
Qed.

Lemma select_lookup {V W : Type} (keep : V -> bool) (f : V -> W)
  (m : gmap string V) (acc : gmap string W) (k : string) :
  select keep f m acc !! k =
    match m !! k with
    | Some v => if keep v then Some (f v) else acc !! k
    | None => acc !! k
    end.
Proof.
  unfold select. destruct (range_map_list_to_map m) as [Hm Hnd].
  rewrite <- Hm at 2. clear Hm. revert acc.
  induction (range_map m) as [|[k0 v0] l IH]; intros acc; [done|].
  rewrite fmap_cons, NoDup_cons in Hnd. destruct Hnd as [Hk0 Hnd].
  simpl. rewrite IH by done.
  destruct (decide (k0 = k)) as [->|Hne].
  - rewrite lookup_insert_eq.
    rewrite (not_elem_of_list_to_map_1 _ k) by done.
    destruct (keep v0); [by rewrite lookup_insert_eq|done].
  - rewrite lookup_insert_ne by done.
    assert ((if keep v0 then <[k0 := f v0]> acc else acc) !! k = acc !! k) as ->.
    { destruct (keep v0); [by rewrite lookup_insert_ne|done]. }
    done.
Qed.

Lemma in_sync_intro p c :
  pkg_config p = Some c ->
  pkg_TorrentURL p = select Enabled URL (entries (sites c)) ∅ ->
  in_sync p.
Proof.
  intros Hc Ht. exists c. split; [done|]. intros name.
  rewrite Ht, select_lookup, lookup_empty.
  by destruct (entries (sites c) !! name).
Qed.

Lemma SaveConfig_writable c p :
  writable p = true ->
  exists p',
    SaveConfig c p = (p', None) /\
    pkg_config p' = Some c /\ file p' = Some (MarshalIndent c) /\
    in_sync p' /\
    pkg_UserAgent p' = pkg_UserAgent p /\ pkg_once p' = pkg_once p /\
    writable p' = true.
Proof.
  intros Hw. unfold SaveConfig. rewrite Hw. eexists. split; [done|].
  repeat split; try done.
  exists c. split; [done|]. intros name. simpl.
  rewrite select_lookup, lookup_empty.
  by destruct (entries (sites c) !! name).
Qed.

Lemma SaveConfig_read_only c p :
  writable p = false ->
  SaveConfig c p = (p, Some ("failed to write config: " +:+ write_error p)).
Proof. intros Hw. unfold SaveConfig. by rewrite Hw. Qed.

Lemma GetConfig_loaded p c : pkg_config p = Some c -> GetConfig p = p.
Proof. intros Hc. unfold GetConfig. by rewrite Hc. Qed.

End StoreFacts.

(** X10: After [init] the package has a configuration: the one of the file when
    the file can be read and parsed, the default one otherwise.  [TorrentURL]
    then holds the URLs of exactly its enabled sites, with one exception:
    when the file can neither be read nor written, [TorrentURL] stays empty
    although the default configuration has enabled sites.  A file that does
    not parse is left as it is; a missing file is written when it can be. *)
Theorem init_loads `{Json} `{MapRange} (f : option string) (w : bool)
  (e : string) :
  let p := init (fresh_package f w e) in
  pkg_once p = true /\
  (forall data c,
     f = Some data -> Unmarshal data = Some c ->
     pkg_config p = Some c /\ in_sync p /\
     pkg_UserAgent p = user_agent c /\ file p = f) /\
  (forall data,
     f = Some data -> Unmarshal data = None ->
     pkg_config p = Some DefaultConfig /\ in_sync p /\ file p = f) /\
  (f = None -> w = true ->
     pkg_config p = Some DefaultConfig /\ in_sync p /\
     file p = Some (MarshalIndent DefaultConfig)) /\
  (f = None -> w = false ->
     pkg_config p = Some DefaultConfig /\ pkg_TorrentURL p = ∅ /\
     file p = None /\ ~ in_sync p).
Proof.
  unfold init, LoadConfig, SaveConfig. simpl.
  split; [|split; [|split; [|split]]].
  - destruct f as [data|]; [done|]. by destruct w.
  - intros data c -> Hc. rewrite Hc.
    split; [done|]. split; [|done]. by eapply in_sync_intro.
  - intros data -> Hc. rewrite Hc.
    split; [done|]. split; [|done]. by eapply in_sync_intro.
  - intros -> ->. simpl.
    split; [done|]. split; [|done]. by eapply in_sync_intro.
  - intros -> ->. simpl. repeat split; try done.
    intros (c & [= <-] & Hc). specialize (Hc "torrenttop").
    vm_compute in Hc. discriminate.
Qed.

Lemma init_loads_witness :
  pkg_TorrentURL (@init demo_json fixed_range (fresh_package None false "read-only file system")) = ∅ /\
  in_sync (@init demo_json fixed_range (fresh_package (Some "<default>") false "")).
Proof.
  pose proof (@init_loads demo_json fixed_range None false "read-only file system")
    as (_ & _ & _ & _ & H4).
  pose proof (@init_loads demo_json fixed_range (Some "<default>") false "")
    as (_ & H1 & _).
  split.
  - by destruct (H4 eq_refl eq_refl) as (_ & ? & _).
  - by destruct (H1 "<default>" DefaultConfig eq_refl eq_refl) as (_ & ? & _).
Defined.

Section EditFacts.
Context `{Js : Json} `{Rng : MapRange}.

Lemma entries_Some_made {V : Type} (m : gomap V) k v :
  entries m !! k = Some v -> m = made (entries m).
Proof. destruct m; simpl; [by rewrite lookup_empty|done]. Qed.

(** saving an edited configuration [c'] that the package already sees *)
Lemma commit_spec c' p :
  (writable p = true ->
   exists p',
     SaveConfig c' (set_config (Some c') p) = (p', None) /\
     pkg_config p' = Some c' /\ in_sync p' /\
     file p' = Some (MarshalIndent c')) /\
  (writable p = false ->
   SaveConfig c' (set_config (Some c') p)
     = (set_config (Some c') p,
        Some ("failed to write config: " +:+ write_error p))).
Proof.
  split; intros Hw.
  - destruct (SaveConfig_writable c' (set_config (Some c') p) Hw)
      as (p' & Hs & Hc & Hf & Hsy & _). by exists p'.
  - exact (SaveConfig_read_only c' (set_config (Some c') p) Hw).
Qed.

Lemma SetSiteURL_found name url p c site :
  pkg_config p = Some c -> entries (sites c) !! name = Some site ->
  SetSiteURL name url p =
    let c' := with_site name (mkSiteConfig url (Enabled site) (Language site)) c in
    Returned (SaveConfig c' (set_config (Some c') p)).
Proof.
  intros Hc Hs. unfold SetSiteURL. rewrite (GetConfig_loaded p c Hc).
  unfold deref. rewrite Hc. simpl. rewrite Hs.
  by rewrite (entries_Some_made _ _ _ Hs).
Qed.

Lemma EnableSite_found name enabled p c site :
  pkg_config p = Some c -> entries (sites c) !! name = Some site ->
  EnableSite name enabled p =
    let c' := with_site name (mkSiteConfig (URL site) enabled (Language site)) c in
    Returned (SaveConfig c' (set_config (Some c') p)).
Proof.
  intros Hc Hs. unfold EnableSite. rewrite (GetConfig_loaded p c Hc).
  unfold deref. rewrite Hc. simpl. rewrite Hs.
  by rewrite (entries_Some_made _ _ _ Hs).
Qed.

Lemma RemoveSite_found name p c site :
  pkg_config p = Some c -> entries (sites c) !! name = Some site ->
  RemoveSite name p =
    let c' := without_site name c in
    Returned (SaveConfig c' (set_config (Some c') p)).
Proof.
  intros Hc Hs. unfold RemoveSite. rewrite (GetConfig_loaded p c Hc).
  unfold deref. rewrite Hc. simpl. rewrite Hs.
  by rewrite (entries_Some_made _ _ _ Hs).
Qed.

Lemma AddSite_new name url language p c m :
  pkg_config p = Some c -> sites c = made m -> m !! name = None ->
  AddSite name url language p =
    let c' := with_site name (mkSiteConfig url true language) c in
    Returned (SaveConfig c' (set_config (Some c') p)).
Proof.
  intros Hc Hm Hs. unfold AddSite. rewrite (GetConfig_loaded p c Hc).
  unfold deref. rewrite Hc. simpl. unfold with_site. rewrite Hm. simpl.
  by rewrite Hs.
Qed.

End EditFacts.

(** X11: [SetSiteURL] and [EnableSite] on a loaded configuration: for a name that
    is not configured they return their "not found" error and change
    nothing; for a configured name, when the file can be written, they
    replace the URL (the enabled flag) of that site and nothing else, save,
    and leave [TorrentURL] holding the URLs of exactly the enabled sites. *)
Theorem SetSiteURL_EnableSite_spec `{Json} `{MapRange} (name : string)
  (p : Package) (c : ConfigValue) :
  pkg_config p = Some c ->
  (entries (sites c) !! name = None ->
   (forall url,
      SetSiteURL name url p =
        Returned (p, Some ("site '" +:+ name +:+
                   "' not found. Use 'angel config add' to add new sites"))) /\
   (forall enabled,
      EnableSite name enabled p =
        Returned (p, Some ("site '" +:+ name +:+ "' not found")))) /\
  (forall site,
     entries (sites c) !! name = Some site -> writable p = true ->
     (forall url,
        let c' := with_site name (mkSiteConfig url (Enabled site) (Language site)) c in
        exists p',
          SetSiteURL name url p = Returned (p', None) /\
          pkg_config p' = Some c' /\ in_sync p' /\
          file p' = Some (MarshalIndent c') /\
          pkg_TorrentURL p' !! name = (if Enabled site then Some url else None)) /\
     (forall enabled,
        let c' := with_site name (mkSiteConfig (URL site) enabled (Language site)) c in
        exists p',
          EnableSite name enabled p = Returned (p', None) /\
          pkg_config p' = Some c' /\ in_sync p' /\
          file p' = Some (MarshalIndent c') /\
          pkg_TorrentURL p' !! name = (if enabled then Some (URL site) else None))).
Proof.
  intros Hc. split.
  - intros Hn. split; intros ?; unfold SetSiteURL, EnableSite;
      rewrite (GetConfig_loaded p c Hc); unfold deref; rewrite Hc; simpl;
      by rewrite Hn.
  - intros site Hs Hw. split.
    + intros url c'. rewrite (SetSiteURL_found _ _ _ _ _ Hc Hs).
      fold c'. cbv zeta.
      destruct (proj1 (commit_spec c' p) Hw) as (p' & -> & Hc' & Hsy & Hf).
      exists p'. repeat split; try done.
      destruct Hsy as (c'' & Hc'' & Ht). rewrite Hc' in Hc''.
      injection Hc'' as <-. rewrite Ht. simpl. by rewrite lookup_insert_eq.
    + intros enabled c'. rewrite (EnableSite_found _ _ _ _ _ Hc Hs).
      fold c'. cbv zeta.
      destruct (proj1 (commit_spec c' p) Hw) as (p' & -> & Hc' & Hsy & Hf).
      exists p'. repeat split; try done.
      destruct Hsy as (c'' & Hc'' & Ht). rewrite Hc' in Hc''.
      injection Hc'' as <-. rewrite Ht. simpl. by rewrite lookup_insert_eq.
Qed.

Lemma SetSiteURL_EnableSite_spec_witness :
  exists p',
    @EnableSite demo_json fixed_range "torrenttop" false (demo_package true)
      = Returned (p', None) /\
    pkg_TorrentURL p' !! "torrenttop" = None.
Proof.
  destruct (proj2 (proj2 (@SetSiteURL_EnableSite_spec demo_json fixed_range
              "torrenttop" (demo_package true) DefaultConfig eq_refl)
              (mkSiteConfig "https://torrenttop152.com" true "kr")
              ltac:(vm_compute; reflexivity) eq_refl) false)
    as (p' & Hs & _ & _ & _ & Ht).
  exists p'. by split.
Defined.

(** X12: [AddSite] on a loaded configuration: for a configured name it returns
    its "already exists" error and changes nothing; for a new name it panics
    when the map of sites is nil (a file without "sites"), and otherwise,
    when the file can be written, adds the site, enabled, with the URL and
    language given, saves, and [TorrentURL] has the new URL. *)
Theorem AddSite_spec `{Json} `{MapRange} (name url language : string)
  (p : Package) (c : ConfigValue) :
  pkg_config p = Some c ->
  (forall site,
     entries (sites c) !! name = Some site ->
     AddSite name url language p =
       Returned (p, Some ("site '" +:+ name +:+
                  "' already exists. Use 'angel config set-url' to update URL"))) /\
  (sites c = nil_map ->
   AddSite name url language p = Panicked "assignment to entry in nil map") /\
  (forall m,
     sites c = made m -> m !! name = None -> writable p = true ->
     let c' := with_site name (mkSiteConfig url true language) c in
     exists p',
       AddSite name url language p = Returned (p', None) /\
       pkg_config p' = Some c' /\ in_sync p' /\
       file p' = Some (MarshalIndent c') /\
       pkg_TorrentURL p' !! name = Some url).
Proof.
  intros Hc. split; [|split].
  - intros site Hs. unfold AddSite. rewrite (GetConfig_loaded p c Hc).
    unfold deref. rewrite Hc. simpl. by rewrite Hs.
  - intros Hnil. unfold AddSite. rewrite (GetConfig_loaded p c Hc).
    unfold deref. rewrite Hc. simpl. rewrite Hnil. simpl.
    by rewrite lookup_empty.
  - intros m Hm Hs Hw c'. rewrite (AddSite_new _ _ _ _ _ _ Hc Hm Hs).
    fold c'. cbv zeta.
    destruct (proj1 (commit_spec c' p) Hw) as (p' & -> & Hc' & Hsy & Hf).
    exists p'. repeat split; try done.
    destruct Hsy as (c'' & Hc'' & Ht). rewrite Hc' in Hc''.
    injection Hc'' as <-. rewrite Ht. simpl. by rewrite lookup_insert_eq.
Qed.

Lemma AddSite_spec_witness :
  @AddSite demo_json fixed_range "nyaa2" "https://nyaa.land" "jp"
     (@init demo_json fixed_range (fresh_package (Some "{}") true ""))
    = Panicked "assignment to entry in nil map".
Proof.
  apply (proj1 (proj2 (@AddSite_spec demo_json fixed_range "nyaa2"
                         "https://nyaa.land" "jp"
                         (@init demo_json fixed_range (fresh_package (Some "{}") true ""))
                         (mkConfigValue nil_map "" 0) eq_refl))).
  reflexivity.
Defined.

(** X13: [RemoveSite] on a loaded configuration: for a name that is not
    configured it returns its "not found" error and changes nothing;
    otherwise, when the file can be written, the site is gone from the
    configuration and from [TorrentURL], the other sites are as they were,
    and the file is saved. *)
Theorem RemoveSite_spec `{Json} `{MapRange} (name : string)
  (p : Package) (c : ConfigValue) :
  pkg_config p = Some c ->
  (entries (sites c) !! name = None ->
   RemoveSite name p =
     Returned (p, Some ("site '" +:+ name +:+ "' not found"))) /\
  (forall site,
     entries (sites c) !! name = Some site -> writable p = true ->
     exists p' c',
       RemoveSite name p = Returned (p', None) /\
       pkg_config p' = Some c' /\
       entries (sites c') !! name = None /\
       (forall other, other <> name ->
          entries (sites c') !! other = entries (sites c) !! other) /\
       in_sync p' /\ pkg_TorrentURL p' !! name = None /\
       file p' = Some (MarshalIndent c')).
Proof.
  intros Hc. split.
  - intros Hn. unfold RemoveSite. rewrite (GetConfig_loaded p c Hc).
    unfold deref. rewrite Hc. simpl. by rewrite Hn.
  - intros site Hs Hw. rewrite (RemoveSite_found _ _ _ _ Hc Hs). cbv zeta.
    destruct (proj1 (commit_spec (without_site name c) p) Hw)
      as (p' & -> & Hc' & Hsy & Hf).
    exists p', (without_site name c). repeat split; try done.
    + simpl. apply lookup_delete_eq.
    + intros other Hne. simpl. by apply lookup_delete_ne.
    + destruct Hsy as (c'' & Hc'' & Ht). rewrite Hc' in Hc''.
      injection Hc'' as <-. rewrite Ht. simpl. by rewrite lookup_delete_eq.
Qed.

Lemma RemoveSite_spec_witness :
  exists p' c',
    @RemoveSite demo_json fixed_range "nyaa" (demo_package true)
      = Returned (p', None) /\
    pkg_config p' = Some c' /\ entries (sites c') !! "nyaa" = None.
Proof.
  destruct (proj2 (@RemoveSite_spec demo_json fixed_range "nyaa"
              (demo_package true) DefaultConfig eq_refl)
              (mkSiteConfig "https://nyaa.si" true "jp")
              ltac:(vm_compute; reflexivity) eq_refl)
    as (p' & c' & Hs & Hc & Hn & _).
  by exists p', c'.
Defined.

(** X14: When the file cannot be written, an edit of a configured site returns
    the write error, yet the configuration in memory has the edit (the map
    is changed in place before the save), while [TorrentURL] and the file
    are as before; after a failed [SetSiteURL] of an enabled site to another
    URL, [TorrentURL] no longer agrees with the configuration. *)
Theorem failed_write_keeps_edit `{Json} `{MapRange} (name : string)
  (p : Package) (c : ConfigValue) (site : SiteConfig) :
  pkg_config p = Some c -> entries (sites c) !! name = Some site ->
  writable p = false ->
  let failed := Some ("failed to write config: " +:+ write_error p) in
  (forall url,
     let c' := with_site name (mkSiteConfig url (Enabled site) (Language site)) c in
     SetSiteURL name url p = Returned (set_config (Some c') p, failed) /\
     (in_sync p -> Enabled site = true -> url <> URL site ->
      ~ in_sync (set_config (Some c') p))) /\
  (forall enabled,
     let c' := with_site name (mkSiteConfig (URL site) enabled (Language site)) c in
     EnableSite name enabled p = Returned (set_config (Some c') p, failed)) /\
  RemoveSite name p = Returned (set_config (Some (without_site name c)) p, failed) /\
  (forall c', pkg_TorrentURL (set_config (Some c') p) = pkg_TorrentURL p /\
              file (set_config (Some c') p) = file p).
Proof.
  intros Hc Hs Hw failed. split; [|split; [|split]].
  - intros url c'. split.
    + rewrite (SetSiteURL_found _ _ _ _ _ Hc Hs). fold c'. cbv zeta.
      by rewrite (proj2 (commit_spec c' p) Hw).
    + intros (c0 & Hc0 & Ht) He Hne (c1 & [= <-] & Ht').
      rewrite Hc in Hc0. injection Hc0 as <-.
      specialize (Ht name). specialize (Ht' name). simpl in Ht'.
      rewrite lookup_insert_eq in Ht'. simpl in Ht'.
      rewrite Hs, He in Ht. rewrite He in Ht'. congruence.
  - intros enabled c'.
    rewrite (EnableSite_found _ _ _ _ _ Hc Hs). fold c'. cbv zeta.
    by rewrite (proj2 (commit_spec c' p) Hw).
  - rewrite (RemoveSite_found _ _ _ _ Hc Hs). cbv zeta.
    by rewrite (proj2 (commit_spec (without_site name c) p) Hw).
  - done.
Qed.

Lemma failed_write_keeps_edit_witness :
  exists p',
    @SetSiteURL demo_json fixed_range "nyaa" "https://nyaa.land" (demo_package false)
      = Returned (p', Some "failed to write config: read-only file system") /\
    (as_Config <$> pkg_config p') ≫= (fun c => URL <$> Sites c !! "nyaa")
      = Some "https://nyaa.land" /\
    pkg_TorrentURL p' !! "nyaa" = Some "https://nyaa.si".
Proof.
  eexists. split; [|split].
  - apply (proj1 (proj1 (@failed_write_keeps_edit demo_json fixed_range "nyaa"
                           (demo_package false) DefaultConfig
                           (mkSiteConfig "https://nyaa.si" true "jp")
                           eq_refl ltac:(vm_compute; reflexivity) eq_refl)
                    "https://nyaa.land")).
  - vm_compute. reflexivity.
  - vm_compute. reflexivity.
Defined.

(** X15: Adding a site that was not configured and removing it again gives the
    configuration back as it was, with [TorrentURL] in step with it. *)
Theorem AddSite_RemoveSite_round_trip `{Json} `{MapRange}
  (name url language : string) (p : Package) (c : ConfigValue)
  (m : gmap string SiteConfig) :
  pkg_config p = Some c -> sites c = made m -> m !! name = None ->
  writable p = true ->
  exists p1 p2,
    AddSite name url language p = Returned (p1, None) /\
    RemoveSite name p1 = Returned (p2, None) /\
    pkg_config p2 = Some c /\ in_sync p2 /\
    file p2 = Some (MarshalIndent c).
Proof.
  intros Hc Hm Hn Hw.
  set (c1 := with_site name (mkSiteConfig url true language) c).
  destruct (SaveConfig_writable c1 (set_config (Some c1) p) Hw)
    as (p1 & Hs1 & Hc1 & _ & _ & _ & _ & Hw1).
  assert (entries (sites c1) !! name = Some (mkSiteConfig url true language))
    as Hn1 by (simpl; by rewrite lookup_insert_eq).
  assert (without_site name c1 = c) as Hback.
  { unfold without_site, c1, with_site. simpl.
    rewrite delete_insert_eq, Hm. simpl. rewrite delete_id by done.
    destruct c. simpl in *. by subst. }
  destruct (SaveConfig_writable c (set_config (Some c) p1) Hw1)
    as (p2 & Hs2 & Hc2 & Hf2 & Hsy2 & _).
  exists p1, p2. split; [|split; [|done]].
  - rewrite (AddSite_new _ _ _ _ _ _ Hc Hm Hn). cbv zeta. fold c1.
    by rewrite Hs1.
  - rewrite (RemoveSite_found _ _ _ _ Hc1 Hn1). cbv zeta.
    by rewrite Hback, Hs2.
Qed.

Lemma AddSite_RemoveSite_round_trip_witness :
  exists p1 p2,
    @AddSite demo_json fixed_range "nyaa2" "https://nyaa.land" "jp"
       (demo_package true) = Returned (p1, None) /\
    @RemoveSite demo_json fixed_range "nyaa2" p1 = Returned (p2, None) /\
    pkg_config p2 = Some DefaultConfig.
Proof.
  destruct (@AddSite_RemoveSite_round_trip demo_json fixed_range
              "nyaa2" "https://nyaa.land" "jp" (demo_package true)
              DefaultConfig _ eq_refl eq_refl ltac:(vm_compute; reflexivity)
              eq_refl)
    as (p1 & p2 & H1 & H2 & Hc & _).
  by exists p1, p2.
Defined.

(** X16: [GetEnabledSites(language)] on a loaded configuration returns the sites
    that are enabled and have that language, each as configured, and no
    other; it changes nothing. *)
Theorem GetEnabledSites_spec `{Json} `{MapRange} (language : string)
  (p : Package) (c : ConfigValue) :
  pkg_config p = Some c ->
  exists r,
    GetEnabledSites language p = Returned (p, r) /\
    forall name site,
      r !! name = Some site <->
      entries (sites c) !! name = Some site /\
      Enabled site = true /\ Language site = language.
Proof.
  intros Hc. unfold GetEnabledSites. rewrite (GetConfig_loaded p c Hc).
  unfold deref. rewrite Hc. simpl. eexists. split; [done|].
  intros name site. rewrite select_lookup, lookup_empty.
  destruct (entries (sites c) !! name) as [site'|];
    [|split; [done|by intros [? _]]].
  destruct (Enabled site') eqn:He; simpl.
  - destruct (String.eqb (Language site') language) eqn:Hl.
    + apply String.eqb_eq in Hl.
      split; [by intros [= <-]|by intros [? _]].
    + apply String.eqb_neq in Hl.
      split; [done|]. intros ([= <-] & _ & ?). done.
  - split; [done|]. intros ([= <-] & ? & _). congruence.
Qed.

Lemma GetEnabledSites_spec_witness :
  exists r,
    @GetEnabledSites demo_json fixed_range "jp" (demo_package true)
      = Returned (demo_package true, r) /\
    r !! "sukebe" = Some (mkSiteConfig "https://sukebei.nyaa.si" true "jp").
Proof.
  destruct (@GetEnabledSites_spec demo_json fixed_range "jp" (demo_package true)
              DefaultConfig eq_refl) as (r & Hr & Hiff).
  exists r. split; [exact Hr|]. apply Hiff.
  vm_compute. repeat split; reflexivity.
Defined.

(** ** The store and the engine together *)

Section StoreAndGate.
Context `{Net : Network}.

Lemma in_sync_url_of p c t :
  in_sync p -> pkg_config p = Some c ->
  url_of (pkg_TorrentURL p) t =
    match entries (sites c) !! t with
    | Some site => if Enabled site then URL site else ""
    | None => ""
    end.
Proof.
  intros (c' & Hc' & Ht) Hc. rewrite Hc in Hc'. injection Hc' as <-.
  unfold url_of. rewrite Ht.
  destruct (entries (sites c) !! t) as [site|]; [|done].
  by destruct (Enabled site).
Qed.

Lemma live_positions_nil urls items :
  (forall i, is_live urls items i = false) -> live_positions urls items = [].
Proof.
  intros Hdead. unfold live_positions.
  induction (seq 0 (length items)) as [|i l IH]; [done|].
  rewrite filter_cons. rewrite decide_False by (rewrite Hdead; done). done.
Qed.

Lemma gate_no_live {Handle : Type} urls items now (oldItems : list Handle)
  sched newItems sp :
  (forall i, is_live urls items i = false) ->
  gate items urls now oldItems sched = Returned (newItems, sp) ->
  newItems = [].
Proof.
  intros Hdead (Hp & _ & -> & _)%gate_returned.
  rewrite (live_positions_nil _ _ Hdead) in Hp.
  apply Permutation_nil_r in Hp. by rewrite Hp.
Qed.

End StoreAndGate.

(** X17: With [TorrentURL] in step with the configuration, and the empty URL not
    answering, a position of a gate's name list passes the check exactly
    when its name is configured and enabled and its configured URL answers.
    So a gate lets nothing through when none of its names is enabled:
    disabling or removing [torrenttop] empties the Korean search, whatever
    the network does. *)
Theorem gate_respects_configuration `{Network} (p : Package) (c : ConfigValue) :
  in_sync p -> pkg_config p = Some c -> CheckNetWorkFromURL "" = false ->
  (forall items i,
     is_live (pkg_TorrentURL p) items i = true <->
     exists t site,
       items !! i = Some t /\ entries (sites c) !! t = Some site /\
       Enabled site = true /\ CheckNetWorkFromURL (URL site) = true) /\
  (forall {Handle : Type} now (oldItems : list Handle) sched newItems sp,
     (forall site, entries (sites c) !! "torrenttop" = Some site ->
                   Enabled site = false) ->
     GetAvailableSites (pkg_TorrentURL p) now oldItems sched
       = Returned (newItems, sp) ->
     newItems = []) /\
  (forall {Handle : Type} now (oldItems : list Handle) sched newItems sp,
     (forall t site, t = "nyaa" \/ t = "sukebe" ->
                     entries (sites c) !! t = Some site -> Enabled site = false) ->
     GetAvailableSitesEx (pkg_TorrentURL p) now oldItems sched
       = Returned (newItems, sp) ->
     newItems = []).
Proof.
  intros Hsync Hc Hempty.
  assert (forall items i,
     is_live (pkg_TorrentURL p) items i = true <->
     exists t site,
       items !! i = Some t /\ entries (sites c) !! t = Some site /\
       Enabled site = true /\ CheckNetWorkFromURL (URL site) = true) as Hlive.
  { intros items i. unfold is_live.
    destruct (items !! i) as [t|]; [|split; [done|by intros (? & ? & ? & _)]].
    rewrite (in_sync_url_of p c t Hsync Hc).
    destruct (entries (sites c) !! t) as [site|] eqn:Hs.
    - destruct (Enabled site) eqn:He.
      + split; [intros Hup; by exists t, site|].
        intros (t' & site' & [= <-] & Hs' & _ & Hup). congruence.
      + rewrite Hempty. split; [done|].
        intros (t' & site' & [= <-] & Hs' & He' & _). congruence.
    - rewrite Hempty. split; [done|].
      intros (t' & site' & [= <-] & Hs' & _). congruence. }
  split; [exact Hlive|]. split.
  - intros Handle now oldItems sched newItems sp Hoff Hg.
    apply gate_no_live in Hg; [done|]. intros i.
    apply not_true_is_false. intros (t & site & Hi & Hs & He & _)%Hlive.
    destruct i as [|[|i]]; simplify_eq/=. rewrite (Hoff _ Hs) in He. done.
  - intros Handle now oldItems sched newItems sp Hoff Hg.
    apply gate_no_live in Hg; [done|]. intros i.
    apply not_true_is_false. intros (t & site & Hi & Hs & He & _)%Hlive.
    destruct i as [|[|[|i]]]; simplify_eq/=.
    + rewrite (Hoff "nyaa" _ (or_introl eq_refl) Hs) in He. done.
    + rewrite (Hoff "sukebe" _ (or_intror eq_refl) Hs) in He. done.
Qed.

(** X18: When no configured site matches the language filter (an empty
    configuration, or a language no site has), [Doctor] returns the empty
    list at once, whatever the schedule. *)
Theorem Doctor_nothing_to_examine `{Network} `{MapRange} (c : Config)
  (language : string) (sched : list Pool.action) :
  (forall name site, Sites c !! name = Some site -> skipped language site = true) ->
  Doctor c language sched = Returned [].
Proof.
  intros Hskip.
  assert (examined c language = []) as Hnil.
  { destruct (examined c language) as [|[n site] l] eqn:He; [done|].
    assert ((n, site) ∈ examined c language) as Hin by (rewrite He; left).
    apply elem_of_examined in Hin as [Hn Hs].
    rewrite (Hskip _ _ Hn) in Hs. done. }
  rewrite Doctor_unfold, Hnil.
  assert (Pool.run Doctor_body false [] sched (Pool.init 0) = Pool.init 0) as ->.
  { induction sched as [|[|i] sched IH]; [done| |]; exact IH. }
  done.
Qed.

Lemma gate_respects_configuration_witness :
  let p := @init demo_json fixed_range (fresh_package (Some "{}") true "") in
  exists newItems sp,
    @GetAvailableSites all_up string (pkg_TorrentURL p) 0 ["A"]
      (Pool.drain ["torrenttop"]) = Returned (newItems, sp) /\
    newItems = [].
Proof.
  intros p. eexists _, _. split; [vm_compute; reflexivity|].
  refine (proj1 (proj2 (@gate_respects_configuration all_up p
                          (mkConfigValue nil_map "" 0) _ eq_refl eq_refl))
            string 0 ["A"] (Pool.drain ["torrenttop"]) _ _ _ _).
  - exists (mkConfigValue nil_map "" 0). split; [reflexivity|].
    intros name. simpl. by rewrite !lookup_empty.
  - intros site Hs. simpl in Hs. by rewrite lookup_empty in Hs.
  - vm_compute. reflexivity.
Defined.

Lemma Doctor_nothing_to_examine_witness :
  @Doctor all_up fixed_range (mkConfig ∅ "" 0) "jp" [Pool.Coord; Pool.Run 0%nat]
    = Returned [].
Proof.
  apply (@Doctor_nothing_to_examine all_up fixed_range (mkConfig ∅ "" 0) "jp").
  intros name site Hs. simpl in Hs. by rewrite lookup_empty in Hs.
Defined.


(** ** The tables *)

(** *** The order of strings *)

Lemma String_ltb_trans x y z :
  String.ltb x y = true -> String.ltb y z = true -> String.ltb x z = true.
Proof.
  unfold String.ltb. intros Hxy Hyz.
  assert (String_as_OT.lt x z) as Hxz.
  { transitivity y; unfold String_as_OT.lt;
      change (String_as_OT.compare ?a ?b) with (String.compare a b).
    - by destruct (String.compare x y).
    - by destruct (String.compare y z). }
  unfold String_as_OT.lt in Hxz.
  change (String_as_OT.compare x z) with (String.compare x z) in Hxz.
  by rewrite Hxz.
Qed.

Lemma String_ltb_asym x y : String.ltb x y = true -> String.ltb y x = false.
Proof.
  unfold String.ltb. rewrite (String.compare_antisym x y).
  by destruct (String.compare y x).
Qed.

Lemma String_ltb_total x y :
  String.ltb x y = false -> String.ltb y x = false -> x = y.
Proof.
  unfold String.ltb. rewrite (String.compare_antisym x y).
  destruct (String.compare y x) eqn:Hc; simpl; try done.
  intros _ _. symmetry. by apply String.compare_eq_iff.
Qed.

Lemma strict_weak_ltb : strict_weak String.ltb.
Proof.
  split; [apply String_ltb_asym|].
  intros x y z Hxz. destruct (String.ltb x y) eqn:Hxy; [by left|right].
  destruct (String.ltb y x) eqn:Hyx.
  - by apply (String_ltb_trans y x z).
  - by rewrite <- (String_ltb_total x y Hxy Hyx).
Qed.

Lemma strict_weak_key {A B : Type} (less : B -> B -> bool) (f : A -> B) :
  strict_weak less -> strict_weak (fun a b => less (f a) (f b)).
Proof.
  intros [Hasym Hneg]. split.
  - intros x y. apply Hasym.
  - intros x y z. apply Hneg.
Qed.

Lemma strict_weak_flip {A : Type} (less : A -> A -> bool) :
  strict_weak less -> strict_weak (fun a b => less b a).
Proof.
  intros [Hasym Hneg]. split.
  - intros x y. apply Hasym.
  - intros x y z Hzx. destruct (Hneg z y x Hzx); [by right|by left].
Qed.

(** *** The length of strings *)

Lemma String_length_append s1 s2 :
  String.length (s1 +:+ s2) = (String.length s1 + String.length s2)%nat.
Proof. induction s1 as [|c s1 IH]; simpl; [done|by rewrite IH]. Qed.

Lemma String_length_prefix n s :
  String.length (String.substring 0 n s) = (n `min` String.length s)%nat.
Proof.
  revert s. induction n as [|n IH]; intros [|c s]; simpl; try done.
  by rewrite IH.
Qed.

Lemma truncate_length limit keep s :
  (keep + 3 <= limit)%nat -> (String.length (truncate limit keep s) <= limit)%nat.
Proof.
  intros Hk. unfold truncate.
  destruct (limit <? String.length s)%nat eqn:Hlt.
  - apply Nat.ltb_lt in Hlt.
    rewrite String_length_append, String_length_prefix. simpl. lia.
  - by apply Nat.ltb_ge in Hlt.
Qed.

(** *** Loops that append *)

Lemma foldl_snoc {A B : Type} (f : A -> B) (l : list A) (acc : list B) :
  foldl (fun acc x => acc ++ [f x]) acc l = acc ++ (f <$> l).
Proof.
  revert acc. induction l as [|x l IH]; intros acc; simpl.
  - by rewrite app_nil_r.
  - by rewrite IH, <- (assoc_L (++)).
Qed.

Lemma length_filter_split {A : Type} (f : A -> bool) (l : list A) :
  length l = (length (filter (fun x => f x = true) l)
              + length (filter (fun x => f x = false) l))%nat.
Proof.
  induction l as [|x l IH]; [done|].
  rewrite !filter_cons.
  destruct (decide (f x = true)) as [Ht|Ht], (decide (f x = false)) as [Hf|Hf];
    simpl; try lia; destruct (f x); congruence.
Qed.

Lemma PrintDoctorStatus_loop (l : list SiteStatus) (available : Z)
  (rows : list DoctorRow) :
  foldl (fun '(available, rows) s =>
           ((if Available s then available + 1 else available),
            rows ++ [doctor_row s]))
        (available, rows) l
  = (available + Z.of_nat (length (filter (fun s => Available s = true) l)),
     rows ++ (doctor_row <$> l)).
Proof.
  revert available rows. induction l as [|s l IH]; intros available rows; simpl.
  - by rewrite Z.add_0_r, app_nil_r.
  - rewrite IH, filter_cons, <- (assoc_L (++)). simpl.
    destruct (decide (Available s = true)) as [Hs|Hs].
    + rewrite Hs. f_equal. simpl length. lia.
    + apply not_true_is_false in Hs. by rewrite Hs.
Qed.

(** *** Sorting records with distinct keys *)

Lemma NoDup_fmap_eq {A B : Type} (f : A -> B) (l : list A) x y :
  NoDup (f <$> l) -> x ∈ l -> y ∈ l -> f x = f y -> x = y.
Proof.
  induction l as [|z l IH]; intros Hnd Hx Hy Hf.
  { by apply elem_of_nil in Hx. }
  rewrite fmap_cons, NoDup_cons in Hnd. destruct Hnd as [Hz Hnd].
  apply elem_of_cons in Hx as [->|Hx], Hy as [->|Hy]; try done.
  - destruct Hz. rewrite Hf. by apply list_elem_of_fmap_2.
  - destruct Hz. rewrite <- Hf. by apply list_elem_of_fmap_2.
  - by apply IH.
Qed.

(** two sorted arrangements of records with distinct keys are the same *)
Lemma sorted_by_key_unique {A : Type} (R : relation A) (key : A -> string)
  (l1 l2 : list A) :
  (forall x y, R x y -> R y x -> key x = key y) ->
  NoDup (key <$> l1) -> l1 ≡ₚ l2 ->
  StronglySorted R l1 -> StronglySorted R l2 -> l1 = l2.
Proof.
  intros HR Hnd Hp H1 H2.
  apply (StronglySorted_unique_strong R); try done.
  intros x y Hx Hy Hxy Hyx. rewrite <- Hp in Hy.
  apply (NoDup_fmap_eq key l1); auto.
Qed.

(** between records with distinct keys, an order is strict *)
Lemma StronglySorted_distinct {A K : Type} (R S : relation A) (key : A -> K)
  (l : list A) :
  (forall x y, key x ≠ key y -> R x y -> S x y) ->
  NoDup (key <$> l) -> StronglySorted R l -> StronglySorted S l.
Proof.
  intros HRS. induction l as [|x l IH]; intros Hnd Hs; [constructor|].
  rewrite fmap_cons, NoDup_cons in Hnd. destruct Hnd as [Hx Hnd].
  apply StronglySorted_inv in Hs as [Hs Hall].
  constructor; [by apply IH|].
  rewrite Forall_forall in Hall |- *. intros y Hy.
  apply HRS; [|by apply Hall].
  intros Heq. apply Hx. rewrite Heq. by apply list_elem_of_fmap_2.
Qed.

Lemma ltb_of_distinct x y :
  x ≠ y -> String.ltb y x = false -> String.ltb x y = true.
Proof.
  intros Hne Hyx. destruct (String.ltb x y) eqn:Hxy; [done|].
  destruct Hne. by apply String_ltb_total.
Qed.

Section TableFacts.
Context `{Srt : Sort}.

Lemma sort_by_key_sorted {A : Type} (key : A -> string) (l : list A) :
  StronglySorted (fun a b => String.ltb (key b) (key a) = false)
    (sort_slice (fun a b => String.ltb (key a) (key b)) l).
Proof. apply sort_slice_sorted, strict_weak_key, strict_weak_ltb. Qed.

Lemma sort_by_key_sorted_down {A : Type} (key : A -> string) (l : list A) :
  StronglySorted (fun a b => String.ltb (key a) (key b) = false)
    (sort_slice (fun a b => String.ltb (key b) (key a)) l).
Proof.
  apply (sort_slice_sorted A (fun a b => String.ltb (key b) (key a))).
  apply (strict_weak_flip (fun a b => String.ltb (key a) (key b))).
  apply strict_weak_key, strict_weak_ltb.
Qed.

Lemma PrintDoctorStatus_unfold (statuses : list SiteStatus) :
  PrintDoctorStatus statuses =
    let sorted := sort_slice (fun a b => String.ltb (Name a) (Name b)) statuses in
    {| table_rows := doctor_row <$> sorted;
       table_total := Z.of_nat (length sorted);
       table_available :=
         Z.of_nat (length (filter (fun s => Available s = true) sorted));
       table_down :=
         Z.of_nat (length sorted)
         - Z.of_nat (length (filter (fun s => Available s = true) sorted)) |}.
Proof.
  unfold PrintDoctorStatus. cbv zeta. by rewrite PrintDoctorStatus_loop.
Qed.

End TableFacts.

(** X19: what [PrintDoctorStatus] prints for any slice of statuses: one row
    for every status, the rows in an order in which no site comes after one
    with a greater name, no URL cell longer than 38 bytes and no error cell
    longer than 25, and in the last line the number of statuses, the number
    of available ones and the number of the others. *)
Theorem PrintDoctorStatus_table `{Sort} (statuses : list SiteStatus) :
  exists sorted,
    sorted ≡ₚ statuses /\
    StronglySorted (fun a b => String.ltb (Name b) (Name a) = false) sorted /\
    table_rows (PrintDoctorStatus statuses) = doctor_row <$> sorted /\
    Forall (fun r => (String.length (row_url r) <= 38)%nat /\
                     (String.length (row_error r) <= 25)%nat)
           (table_rows (PrintDoctorStatus statuses)) /\
    table_total (PrintDoctorStatus statuses) = Z.of_nat (length statuses) /\
    table_available (PrintDoctorStatus statuses)
      = Z.of_nat (length (filter (fun s => Available s = true) statuses)) /\
    table_down (PrintDoctorStatus statuses)
      = Z.of_nat (length (filter (fun s => Available s = false) statuses)).
Proof.
  rewrite PrintDoctorStatus_unfold. cbv zeta. simpl.
  set (sorted := sort_slice _ statuses).
  assert (sorted ≡ₚ statuses) as Hp by apply sort_slice_perm.
  exists sorted. split; [done|]. split; [apply (sort_by_key_sorted Name)|].
  split; [done|]. split.
  { apply Forall_fmap, Forall_forall. intros s _. simpl.
    split; apply truncate_length; lia. }
  split; [by rewrite Hp|]. split; [by rewrite Hp|].
  rewrite (length_filter_split Available sorted), Hp. lia.
Qed.

Lemma examined_perm (R1 R2 : MapRange) (c : Config) (language : string) :
  @examined R1 c language ≡ₚ @examined R2 c language.
Proof.
  unfold examined. apply filter_Permutation.
  by rewrite (@range_map_perm R1), (@range_map_perm R2).
Qed.

Lemma probe_names `{Network} (l : list (string * SiteConfig)) :
  Name <$> ((fun ns => Doctor_probe ns.1 ns.2) <$> l) = l.*1.
Proof.
  induction l as [|[n s] l IH]; [done|].
  rewrite !fmap_cons, IH. simpl. by rewrite Doctor_probe_Name.
Qed.

(** X20: the table of the command [doctor] does not depend on the order in
    which the goroutines of [Doctor] finish, on the order in which [range]
    visits the sites, or on the sort: a run that returns prints one row for
    every site matching the language filter, under strictly ascending names,
    and counts as many sites in its last line.  Every run can be completed
    to one that returns. *)
Theorem doctor_command_table `{Net : Network} (R1 R2 : MapRange) (S1 S2 : Sort)
  (c : Config) (lang : string) :
  (forall sched, exists t,
     @doctor_command Net R1 S1 c lang
       (sched ++ Pool.drain (@examined R1 c lang)) = Returned t) /\
  (forall sched1 sched2 t1 t2,
     @doctor_command Net R1 S1 c lang sched1 = Returned t1 ->
     @doctor_command Net R2 S2 c lang sched2 = Returned t2 ->
     t1 = t2 /\
     table_total t1
       = Z.of_nat (size (filter (fun ns : string * SiteConfig =>
                                   skipped lang ns.2 = false) (Sites c))) /\
     StronglySorted (fun a b => String.ltb (row_site a) (row_site b) = true)
                    (table_rows t1) /\
     forall n site,
       Sites c !! n = Some site -> skipped lang site = false ->
       doctor_row (Doctor_probe n site) ∈ table_rows t1).
Proof.
  split.
  { intros sched. unfold doctor_command.
    destruct (@Doctor_returns Net R1 c lang sched) as [results ->]. simpl. eauto. }
  intros sched1 sched2 t1 t2. unfold doctor_command.
  destruct (@Doctor Net R1 c lang sched1) as [r1| |] eqn:H1; try done.
  destruct (@Doctor Net R2 c lang sched2) as [r2| |] eqn:H2; try done.
  simpl. intros [= <-] [= <-].
  apply Doctor_returned in H1, H2.
  rewrite !PrintDoctorStatus_unfold. cbv zeta.
  set (less := fun a b => String.ltb (Name a) (Name b)).
  set (s1 := @sort_slice S1 _ less r1). set (s2 := @sort_slice S2 _ less r2).
  set (L := (fun ns => Doctor_probe ns.1 ns.2) <$> @examined R1 c lang) in *.
  assert (s1 ≡ₚ L) as Hp1.
  { unfold s1. by rewrite sort_slice_perm. }
  assert (s2 ≡ₚ L) as Hp2.
  { unfold s2. rewrite sort_slice_perm, H2. unfold L.
    apply fmap_Permutation, examined_perm. }
  assert (NoDup (Name <$> s1)) as Hnd.
  { rewrite Hp1. unfold L. rewrite probe_names. apply examined_NoDup. }
  assert (s1 = s2) as <-.
  { apply (sorted_by_key_unique
             (fun a b => String.ltb (Name b) (Name a) = false) Name); try done.
    - intros x y Hxy Hyx. by apply String_ltb_total.
    - by rewrite Hp1, Hp2.
    - apply (@sort_by_key_sorted S1 _ Name).
    - apply (@sort_by_key_sorted S2 _ Name). }
  split; [done|]. simpl. split; [|split].
  - rewrite Hp1. unfold L. by rewrite length_fmap, examined_length.
  - apply (StronglySorted_fmap doctor_row
             (fun a b => String.ltb (Name a) (Name b) = true)); [done|].
    apply (StronglySorted_distinct
             (fun a b => String.ltb (Name b) (Name a) = false) _ Name);
      [|done|apply (@sort_by_key_sorted S1 _ Name)].
    intros x y Hne Hyx. by apply ltb_of_distinct.
  - intros n site Hn Hs. apply list_elem_of_fmap_2. rewrite Hp1. unfold L.
    apply (list_elem_of_fmap_2 (fun ns => Doctor_probe ns.1 ns.2) _ (n, site)).
    by apply elem_of_examined.
Qed.

Lemma doctor_command_table_witness :
  exists t,
    @doctor_command all_up fixed_range merge_sorter demo_config ""
      (Pool.drain (@examined fixed_range demo_config "")) = Returned t /\
    @doctor_command all_up reversed_range merge_sorter demo_config ""
      (reverse (Pool.drain (@examined reversed_range demo_config ""))
       ++ Pool.drain (@examined reversed_range demo_config "")) = Returned t.
Proof.
  eexists. split; [vm_compute; reflexivity|].
  assert (@doctor_command all_up fixed_range merge_sorter demo_config ""
            (Pool.drain (@examined fixed_range demo_config ""))
          = Returned
              (@PrintDoctorStatus merge_sorter
                 [@Doctor_probe all_up "nyaa" (mkSiteConfig "https://nyaa.si" true "jp");
                  @Doctor_probe all_up "torrenttop"
                    (mkSiteConfig "://torrenttop152.com" true "kr")])) as H1
    by (vm_compute; reflexivity).
  assert (exists t2,
            @doctor_command all_up reversed_range merge_sorter demo_config ""
              (reverse (Pool.drain (@examined reversed_range demo_config ""))
               ++ Pool.drain (@examined reversed_range demo_config ""))
            = Returned t2) as [t2 H2] by (eexists; vm_compute; reflexivity).
  rewrite H2. f_equal. symmetry.
  exact (proj1 (proj2 (@doctor_command_table all_up fixed_range reversed_range
                         merge_sorter merge_sorter demo_config "") _ _ _ _ H1 H2)).
Defined.

(** X21: the rows [PrintData] hands to the table are the records of the map,
    title first and magnet second, under strictly descending titles; neither
    the order in which [range] visits the map nor the sort changes them. *)
Theorem PrintData_rows (R1 R2 : MapRange) (S1 S2 : Sort)
  (data : gmap string string) :
  @PrintData R1 S1 data = @PrintData R2 S2 data /\
  @PrintData R1 S1 data ≡ₚ (fun kv => [kv.1; kv.2]) <$> map_to_list data /\
  StronglySorted
    (fun a b => String.ltb (default "" (head b)) (default "" (head a)) = true)
    (@PrintData R1 S1 data).
Proof.
  unfold PrintData. cbv zeta.
  rewrite !(foldl_snoc (fun kv : string * string => [kv.1; kv.2])). simpl.
  set (key := fun row : list string => default "" (head row)).
  set (less := fun a b : list string => String.ltb (key b) (key a)).
  set (row := fun kv : string * string => [kv.1; kv.2]).
  set (s1 := @sort_slice S1 _ less (row <$> @range_map R1 _ data)).
  set (s2 := @sort_slice S2 _ less (row <$> @range_map R2 _ data)).
  change (s1 = s2 /\ s1 ≡ₚ row <$> map_to_list data /\
          StronglySorted (fun a b => String.ltb (key b) (key a) = true) s1).
  assert (s1 ≡ₚ row <$> map_to_list data) as Hp1.
  { unfold s1. by rewrite sort_slice_perm, range_map_perm. }
  assert (s2 ≡ₚ row <$> map_to_list data) as Hp2.
  { unfold s2. by rewrite sort_slice_perm, range_map_perm. }
  assert (NoDup (key <$> s1)) as Hnd.
  { rewrite Hp1, <- list_fmap_compose. apply NoDup_fst_map_to_list. }
  assert (StronglySorted (fun a b => String.ltb (key a) (key b) = false) s1)
    as Hs1 by apply (@sort_by_key_sorted_down S1 _ key).
  split; [|split; [done|]].
  - apply (sorted_by_key_unique
             (fun a b => String.ltb (key a) (key b) = false) key); try done.
    + intros x y Hxy Hyx. by apply String_ltb_total.
    + by rewrite Hp1, Hp2.
    + apply (@sort_by_key_sorted_down S2 _ key).
  - apply (StronglySorted_distinct
             (fun a b => String.ltb (key a) (key b) = false) _ key);
      [|done|done].
    intros x y Hne Hxy. apply ltb_of_distinct; [done|done].
Qed.

(** X22: with the configuration loaded, [ListSites] lists every configured
    site once, with its URL, its language and "Yes" or "No" for its enabled
    flag, under strictly ascending names, and leaves the package as it is;
    neither the order of [range] nor the sort changes the rows. *)
Theorem ListSites_rows `{Js : Json} (R1 R2 : MapRange) (S1 S2 : Sort)
  (p : Package) (c : ConfigValue) :
  pkg_config p = Some c ->
  exists rows,
    @ListSites Js R1 S1 p = Returned (p, rows) /\
    @ListSites Js R2 S2 p = Returned (p, rows) /\
    length rows = size (entries (sites c)) /\
    StronglySorted
      (fun a b => String.ltb (default "" (head a)) (default "" (head b)) = true)
      rows /\
    forall n site,
      entries (sites c) !! n = Some site ->
      [n; URL site; Language site; if Enabled site then "Yes" else "No"] ∈ rows.
Proof.
  intros Hc. unfold ListSites, GetConfig, deref. rewrite !Hc. simpl.
  rewrite !(foldl_snoc (site_row c)), !(foldl_snoc fst). simpl.
  set (s1 := @sort_slice S1 _ String.ltb (@range_map R1 _ (entries (sites c))).*1).
  set (s2 := @sort_slice S2 _ String.ltb (@range_map R2 _ (entries (sites c))).*1).
  assert (s1 ≡ₚ (map_to_list (entries (sites c))).*1) as Hp1.
  { unfold s1. by rewrite sort_slice_perm, range_map_perm. }
  assert (s2 ≡ₚ (map_to_list (entries (sites c))).*1) as Hp2.
  { unfold s2. by rewrite sort_slice_perm, range_map_perm. }
  assert (NoDup (id <$> s1)) as Hnd.
  { rewrite list_fmap_id, Hp1. apply NoDup_fst_map_to_list. }
  assert (StronglySorted (fun a b => String.ltb b a = false) s1) as Hs1
    by apply (@sort_by_key_sorted S1 _ id).
  assert (s1 = s2) as <-.
  { apply (sorted_by_key_unique (fun a b => String.ltb b a = false) id);
      try done.
    - intros x y Hxy Hyx. by apply String_ltb_total.
    - by rewrite Hp1, Hp2.
    - apply (@sort_by_key_sorted S2 _ id). }
  exists (site_row c <$> s1). split; [done|]. split; [done|]. split; [|split].
  - by rewrite length_fmap, Hp1, length_fmap, length_map_to_list.
  - apply (StronglySorted_fmap (site_row c)
             (fun a b => String.ltb a b = true)); [done|].
    apply (StronglySorted_distinct (fun a b => String.ltb b a = false) _ id);
      [|done|done].
    intros x y Hne Hyx. by apply ltb_of_distinct.
  - intros n site Hn.
    assert (site_row c n
            = [n; URL site; Language site; if Enabled site then "Yes" else "No"])
      as <- by (unfold site_row; by rewrite Hn).
    apply list_elem_of_fmap_2. rewrite Hp1.
    apply (list_elem_of_fmap_2 fst _ (n, site)). by apply elem_of_map_to_list.
Qed.

Lemma ListSites_rows_witness :
  exists rows,
    @ListSites demo_json fixed_range merge_sorter (demo_package true)
      = Returned (demo_package true, rows) /\
    @ListSites demo_json reversed_range merge_sorter (demo_package true)
      = Returned (demo_package true, rows) /\
    ["nyaa"; "https://nyaa.si"; "jp"; "Yes"] ∈ rows.
Proof.
  destruct (@ListSites_rows demo_json fixed_range reversed_range merge_sorter
              merge_sorter (demo_package true) DefaultConfig eq_refl)
    as (rows & H1 & H2 & _ & _ & Hin).
  exists rows. split; [done|]. split; [done|].
  apply (Hin "nyaa" (mkSiteConfig "https://nyaa.si" true "jp")).
  vm_compute. reflexivity.
Defined.

(** ** The commands *)

Section CommandFacts.
Context `{Fmt : FloatFmt} `{Net : Network} `{Rng : MapRange}.

Lemma doSearch_error (w : World) keyword lang trace err :
  doSearch w keyword lang = Returned (trace, Some err) ->
  keyword = "" /\ trace = [] /\ err = "please provide a search keyword".
Proof.
  unfold doSearch. destruct (String.eqb keyword "") eqn:Hk.
  { apply String.eqb_eq in Hk. by intros [= <- <-]. }
  destruct (String.eqb lang "kr"); cbv zeta.
  - destruct (GetAvailableSites _ _ _ _) as [[sites sp]| |]; try done.
    cbn [mbind outcome_bind Go.bind].
    destruct (length sites =? 0)%nat.
    + destruct (Stop _ _) as [[sp1 out]| |]; done.
    + destruct (CollectData _ _ _ _) as [[data sp1]| |]; try done.
      cbn [mbind outcome_bind Go.bind].
      destruct (StopWithMessage _ _ _ _) as [[sp2 out]| |]; done.
  - destruct (GetAvailableSitesEx _ _ _ _) as [[sites sp]| |]; try done.
    cbn [mbind outcome_bind Go.bind].
    destruct (length sites =? 0)%nat.
    + destruct (Stop _ _) as [[sp1 out]| |]; done.
    + destruct (CollectDataEx _ _ _ _) as [[data sp1]| |]; try done.
      cbn [mbind outcome_bind Go.bind].
      destruct (StopWithMessage _ _ _ _) as [[sp2 out]| |]; done.
Qed.

End CommandFacts.

(** X23: the command [search] fails in one way only: without a keyword, or
    with an empty one, it returns the error "please provide a search
    keyword" before anything is called; a run that returns an error is such
    a run. *)
Theorem search_needs_keyword `{FloatFmt} `{Network} `{MapRange} (w : World)
  (args : list string) (lang : string) :
  (arg args 0 = "" ->
   search_action w args lang
     = Returned ([], Some "please provide a search keyword")) /\
  (forall trace err,
     search_action w args lang = Returned (trace, Some err) ->
     arg args 0 = "" /\ trace = [] /\ err = "please provide a search keyword").
Proof.
  unfold search_action. split.
  - intros Ha. destruct args as [|a args]; [done|]. simpl.
    unfold arg in Ha. simpl in Ha. subst a. done.
  - intros trace err. destruct args as [|a args]; simpl.
    + by intros [= <- <-].
    + apply doSearch_error.
Qed.

Lemma search_needs_keyword_witness :
  @search_action floor_fmt all_up fixed_range bright_world [""; "ubuntu"] "kr"
    = Returned ([], Some "please provide a search keyword").
Proof.
  apply (proj1 (@search_needs_keyword floor_fmt all_up fixed_range bright_world
                  [""; "ubuntu"] "kr")).
  reflexivity.
Defined.

Section EditCommandFacts.
Context `{Js : Json} `{Rng : MapRange}.

Lemma commit_left_behind known c c' p :
  (known_languages c -> known -> known_languages c') ->
  left_behind known c (SaveConfig c' (set_config (Some c') p)).
Proof.
  intros Hk. exists c'. destruct (writable p) eqn:Hw.
  - destruct (proj1 (commit_spec c' p) Hw) as (p' & -> & Hc & Hs & Hf). done.
  - rewrite (proj2 (commit_spec c' p) Hw). done.
Qed.

Lemma unchanged_left_behind known c p e :
  pkg_config p = Some c -> left_behind known c (p, Some e).
Proof. intros Hc. exists c. done. Qed.

Lemma with_site_known name site c :
  known_languages c -> Language site = "kr" \/ Language site = "jp" ->
  known_languages (with_site name site c).
Proof.
  intros Hk Hs n s. unfold with_site. simpl.
  destruct (decide (n = name)) as [->|Hne].
  - rewrite lookup_insert_eq. by intros [= <-].
  - rewrite lookup_insert_ne by done. apply Hk.
Qed.

Lemma without_site_known name c :
  known_languages c -> known_languages (without_site name c).
Proof.
  intros Hk n s. unfold without_site. simpl.
  intros [_ Hs]%lookup_delete_Some. by apply (Hk n).
Qed.

Lemma SetSiteURL_left_behind name url p c r :
  pkg_config p = Some c -> SetSiteURL name url p = Returned r ->
  left_behind True c r.
Proof.
  intros Hc. destruct (entries (sites c) !! name) as [site|] eqn:Hs.
  - rewrite (SetSiteURL_found name url p c site Hc Hs). cbv zeta. intros [= <-].
    apply commit_left_behind. intros Hk _. apply with_site_known; [done|].
    by apply (Hk name site).
  - unfold SetSiteURL. rewrite (GetConfig_loaded p c Hc). unfold deref.
    rewrite Hc. simpl. rewrite Hs. intros [= <-].
    by apply unchanged_left_behind.
Qed.

Lemma EnableSite_left_behind name enabled p c r :
  pkg_config p = Some c -> EnableSite name enabled p = Returned r ->
  left_behind True c r.
Proof.
  intros Hc. destruct (entries (sites c) !! name) as [site|] eqn:Hs.
  - rewrite (EnableSite_found name enabled p c site Hc Hs). cbv zeta.
    intros [= <-].
    apply commit_left_behind. intros Hk _. apply with_site_known; [done|].
    by apply (Hk name site).
  - unfold EnableSite. rewrite (GetConfig_loaded p c Hc). unfold deref.
    rewrite Hc. simpl. rewrite Hs. intros [= <-].
    by apply unchanged_left_behind.
Qed.

Lemma RemoveSite_left_behind name p c r :
  pkg_config p = Some c -> RemoveSite name p = Returned r ->
  left_behind True c r.
Proof.
  intros Hc. destruct (entries (sites c) !! name) as [site|] eqn:Hs.
  - rewrite (RemoveSite_found name p c site Hc Hs). cbv zeta. intros [= <-].
    apply commit_left_behind. intros Hk _. by apply without_site_known.
  - unfold RemoveSite. rewrite (GetConfig_loaded p c Hc). unfold deref.
    rewrite Hc. simpl. rewrite Hs. intros [= <-].
    by apply unchanged_left_behind.
Qed.

Lemma AddSite_left_behind name url language p c r :
  pkg_config p = Some c -> AddSite name url language p = Returned r ->
  left_behind (language = "kr" \/ language = "jp") c r.
Proof.
  intros Hc. destruct (entries (sites c) !! name) as [site|] eqn:Hs.
  - unfold AddSite. rewrite (GetConfig_loaded p c Hc). unfold deref.
    rewrite Hc. simpl. rewrite Hs. intros [= <-].
    by apply unchanged_left_behind.
  - destruct (sites c) as [|m] eqn:Hm.
    + unfold AddSite. rewrite (GetConfig_loaded p c Hc). unfold deref.
      rewrite Hc. simpl. rewrite Hm. simpl. rewrite lookup_empty. done.
    + simpl in Hs.
      rewrite (AddSite_new name url language p c m Hc Hm Hs). cbv zeta.
      intros [= <-]. apply commit_left_behind. intros Hk Hl.
      by apply with_site_known.
Qed.

Lemma report_left_behind known c line r p' out err :
  left_behind known c r -> report line r = (p', out, err) ->
  left_behind known c (p', err) /\ (err = None <-> out = [line +:+ LF]) /\
  (err <> None -> out = []).
Proof.
  intros Hr. unfold report. destruct r as [p1 [e|]]; simpl; intros [= <- <- <-].
  - split; [done|]. split; [|done]. split; done.
  - split; [done|]. split; [done|]. done.
Qed.

End EditCommandFacts.

(** X24: the commands [config set-url], [add], [remove], [enable] and
    [disable], run on a loaded configuration: whenever one of them returns
    without an error it has printed its one line of confirmation, the edited
    configuration is what the file holds, and [TorrentURL] holds the URLs of
    exactly its enabled sites; whenever it returns an error it has printed
    nothing.  Either way a configuration whose sites all have the language
    "kr" or "jp" is still one afterwards: [add] refuses any other
    language. *)
Theorem config_action_outcome `{Json} `{MapRange} (cmd : config_edit)
  (args : list string) (p : Package) (c : ConfigValue)
  (p' : Package) (out : list string) (err : option string) :
  pkg_config p = Some c ->
  config_action cmd args p = Returned (p', out, err) ->
  (exists c',
     pkg_config p' = Some c' /\
     (known_languages c -> known_languages c') /\
     (err = None -> in_sync p' /\ file p' = Some (MarshalIndent c'))) /\
  (err = None -> length out = 1%nat) /\
  (err <> None -> out = []).
Proof.
  intros Hc.
  assert (forall known line r,
            known -> left_behind known c r -> report line r = (p', out, err) ->
            (exists c',
               pkg_config p' = Some c' /\
               (known_languages c -> known_languages c') /\
               (err = None -> in_sync p' /\ file p' = Some (MarshalIndent c'))) /\
            (err = None -> length out = 1%nat) /\
            (err <> None -> out = [])) as Hreport.
  { intros known line r Hknown Hr Hrep.
    destruct (report_left_behind known c line r p' out err Hr Hrep)
      as ((c' & Hc' & Hk & Hsaved) & Hout & Hnone).
    split; [|split; [|done]].
    - exists c'. split; [done|]. split; [|done]. intros Hkc. by apply Hk.
    - intros He. apply Hout in He. by rewrite He. }
  assert (forall e,
            Returned (p, @nil string, Some e) = Returned (p', out, err) ->
            (exists c',
               pkg_config p' = Some c' /\
               (known_languages c -> known_languages c') /\
               (err = None -> in_sync p' /\ file p' = Some (MarshalIndent c'))) /\
            (err = None -> length out = 1%nat) /\
            (err <> None -> out = [])) as Hrefused.
  { intros e [= <- <- <-]. split; [|done]. exists c. done. }
  destruct cmd; simpl.
  - destruct (length args <? 2)%nat; [intros Heq; exact (Hrefused _ Heq)|].
    destruct (SetSiteURL _ _ p) as [r| |] eqn:Hr; try done. simpl.
    intros [= Hrep]. eapply (Hreport True); [done| |exact Hrep].
    by eapply SetSiteURL_left_behind.
  - destruct (length args <? 3)%nat; [intros Heq; exact (Hrefused _ Heq)|].
    destruct (String.eqb (arg args 2) "kr") eqn:Hkr; simpl.
    + apply String.eqb_eq in Hkr.
      destruct (AddSite _ _ _ p) as [r| |] eqn:Hr; try done. simpl.
      intros [= Hrep]. eapply Hreport; [|by eapply AddSite_left_behind|exact Hrep].
      by left.
    + destruct (String.eqb (arg args 2) "jp") eqn:Hjp; simpl;
        [|intros Heq; exact (Hrefused _ Heq)].
      apply String.eqb_eq in Hjp.
      destruct (AddSite _ _ _ p) as [r| |] eqn:Hr; try done. simpl.
      intros [= Hrep]. eapply Hreport; [|by eapply AddSite_left_behind|exact Hrep].
      by right.
  - destruct (length args =? 0)%nat; [intros Heq; exact (Hrefused _ Heq)|].
    destruct (RemoveSite _ p) as [r| |] eqn:Hr; try done. simpl.
    intros [= Hrep]. eapply (Hreport True); [done| |exact Hrep].
    by eapply RemoveSite_left_behind.
  - destruct (length args =? 0)%nat; [intros Heq; exact (Hrefused _ Heq)|].
    destruct (EnableSite _ _ p) as [r| |] eqn:Hr; try done. simpl.
    intros [= Hrep]. eapply (Hreport True); [done| |exact Hrep].
    by eapply EnableSite_left_behind.
  - destruct (length args =? 0)%nat; [intros Heq; exact (Hrefused _ Heq)|].
    destruct (EnableSite _ _ p) as [r| |] eqn:Hr; try done. simpl.
    intros [= Hrep]. eapply (Hreport True); [done| |exact Hrep].
    by eapply EnableSite_left_behind.
Qed.

Lemma config_action_outcome_witness :
  exists p' out,
    @config_action demo_json fixed_range Add
      ["mirror"; "https://mirror.example"; "jp"] (demo_package true)
      = Returned (p', out, None) /\
    file p' = Some "<config>" /\ length out = 1%nat.
Proof.
  assert (exists p' out,
            @config_action demo_json fixed_range Add
              ["mirror"; "https://mirror.example"; "jp"] (demo_package true)
            = Returned (p', out, None)) as (p' & out & Hrun)
    by (eexists _, _; vm_compute; reflexivity).
  exists p', out. split; [done|].
  destruct (@config_action_outcome demo_json fixed_range Add
              ["mirror"; "https://mirror.example"; "jp"] (demo_package true)
              DefaultConfig p' out None eq_refl Hrun)
    as ((c' & _ & _ & Hsaved) & Hout & _).
  split; [|by apply Hout]. by destruct (Hsaved eq_refl) as [_ ->].
Defined.

(** ** [TorrentTop.Crawl] *)

Section StoreLoop.

#[local] Abbreviation Store := ktorrent.Store.

Lemma foldl_Store_lookup (l : list (string * string)) (m0 : gmap string string) k v :
  NoDup l.*1 ->
  foldl Store m0 l !! k = Some v <->
  (k, v) ∈ l \/ ((k ∉ l.*1) /\ m0 !! k = Some v).
Proof.
  revert m0. induction l as [|[k0 v0] l IH]; intros m0 Hnd.
  { simpl. split; [intros ?; right; split; [apply not_elem_of_nil|done]|].
    intros [[]%elem_of_nil|[_ ?]]; done. }
  rewrite fmap_cons, NoDup_cons in Hnd. destruct Hnd as [Hk0 Hnd].
  simpl. rewrite (IH _ Hnd). unfold ktorrent.Store. simpl.
  rewrite elem_of_cons, not_elem_of_cons. split.
  - intros [Hin|[Hnin Hm]]; [by left; right|].
    destruct (decide (k0 = k)) as [->|Hne].
    + rewrite lookup_insert_eq in Hm. inversion Hm; subst. by left; left.
    + rewrite lookup_insert_ne in Hm by done. right. done.
  - intros [[[= -> ->]|Hin]|[[Hne Hnin] Hm]].
    + right. split; [done|]. by rewrite lookup_insert_eq.
    + by left.
    + right. split; [done|]. by rewrite lookup_insert_ne.
Qed.

Lemma foldl_Store_list_to_map (l : list (string * string)) :
  NoDup l.*1 -> foldl Store ∅ l = list_to_map l.
Proof.
  intros Hnd. apply map_eq. intros k. apply option_eq. intros v.
  rewrite (foldl_Store_lookup l ∅ k v Hnd), lookup_empty.
  rewrite <- (elem_of_list_to_map l k v Hnd). split; [|by left].
  intros [?|[_ ?]]; done.
Qed.

Lemma foldl_Store_perm (l1 l2 : list (string * string)) :
  NoDup l1.*1 -> l1 ≡ₚ l2 -> foldl Store ∅ l1 = foldl Store ∅ l2.
Proof.
  intros Hnd Hp. rewrite !foldl_Store_list_to_map; [|by rewrite <- Hp|done].
  by apply list_to_map_proper.
Qed.

(** copying a map entry by entry gives the map *)
Lemma foldl_Store_range `{MapRange} (data : gmap string string) :
  foldl Store ∅ (range_map data) = data.
Proof.
  rewrite (foldl_Store_perm _ (map_to_list data)).
  - rewrite foldl_Store_list_to_map by apply NoDup_fst_map_to_list.
    apply list_to_map_to_list.
  - rewrite range_map_perm. apply NoDup_fst_map_to_list.
  - apply range_map_perm.
Qed.

(** whatever the order of the stores, the keys are those stored *)
Lemma foldl_Store_keys (l : list (string * string)) (m0 : gmap string string) k :
  is_Some (foldl Store m0 l !! k) <-> is_Some (m0 !! k) \/ k ∈ l.*1.
Proof.
  revert m0. induction l as [|[k0 v0] l IH]; intros m0; simpl.
  { rewrite elem_of_nil. tauto. }
  rewrite IH, elem_of_cons. unfold ktorrent.Store. simpl.
  destruct (decide (k0 = k)) as [->|Hne].
  - rewrite lookup_insert_eq. split; [intros _; right; by left|].
    intros _. left. eauto.
  - rewrite lookup_insert_ne by done. split; [tauto|].
    intros [?|[?|?]]; [by left|congruence|by right].
Qed.

(** and every value is one that was stored under its key *)
Lemma foldl_Store_values (l : list (string * string)) (m0 : gmap string string) k v :
  foldl Store m0 l !! k = Some v -> m0 !! k = Some v \/ (k, v) ∈ l.
Proof.
  revert m0. induction l as [|[k0 v0] l IH]; intros m0; simpl; [by left|].
  intros [Hm|Hin]%IH; [|right; by right].
  unfold ktorrent.Store in Hm. simpl in Hm.
  destruct (decide (k0 = k)) as [->|Hne].
  - rewrite lookup_insert_eq in Hm. inversion Hm; subst. right. by left.
  - rewrite lookup_insert_ne in Hm by done. by left.
Qed.

End StoreLoop.

Section CrawlFacts.
Context `{Wb : Web}.
Variable TorrentURL : gmap string string.

#[local] Abbreviation join := (ktorrent.join TorrentURL).
#[local] Abbreviation body := (ktorrent.getData_body TorrentURL).
#[local] Abbreviation fatal := (ktorrent.fatal TorrentURL).
#[local] Abbreviation stored := (fun th : string * string => body 0%nat th).

Lemma fatal_sound jobs ws :
  fatal jobs ws = true -> Exists (fun th => join th = None) jobs.
Proof.
  unfold ktorrent.fatal. intros [[w th] [Hin Hf]]%existsb_exists.
  apply Exists_exists. exists th. split.
  - apply list_elem_of_In in Hin. by apply elem_of_zip_r in Hin.
  - apply andb_prop in Hf as [_ Hf]. simpl in Hf.
    apply negb_true_iff, bool_decide_eq_false in Hf.
    by apply eq_None_not_Some.
Qed.

Lemma fatal_finished jobs ws :
  Forall (fun w => w = Pool.Finished) ws -> length ws = length jobs ->
  Exists (fun th => join th = None) jobs -> fatal jobs ws = true.
Proof.
  unfold ktorrent.fatal. intros Hall. revert jobs.
  induction Hall as [|w ws -> Hall IH]; intros [|th jobs] Hlen Hex; simplify_eq/=.
  { by apply Exists_nil in Hex. }
  apply Exists_cons in Hex as [Hth|Hex].
  - rewrite Hth. done.
  - rewrite (IH jobs) by done. apply orb_true_r.
Qed.

Lemma stored_all jobs :
  Forall (fun th => is_Some (join th)) jobs ->
  omap stored jobs
    = (fun th => (TrimSpace th.1,
                  GetMagnet (get_detail
                    (TrimSpace (default "" (join th)))))) <$> jobs.
Proof.
  induction 1 as [|th jobs [u Hu] _ IH]; [done|].
  rewrite fmap_cons, <- IH. cbn [omap list_omap].
  unfold ktorrent.getData_body at 1. rewrite Hu. done.
Qed.

Lemma getData_pool_inv jobs sched :
  Pool.inv body false jobs 0 (Pool.run body false jobs sched (Pool.init 0)).
Proof. apply PoolFacts.run_inv, PoolFacts.init_inv. done. Qed.

(** what a run of [getData] that returns has stored *)
Lemma getData_ended url sched data :
  ktorrent.getData TorrentURL url sched = Ended (Some data) ->
  exists anchors ch,
    get_search url = Topics anchors /\
    Forall (fun th => is_Some (join th)) (omap ktorrent.topic anchors) /\
    ch ≡ₚ omap stored (omap ktorrent.topic anchors) /\
    data = foldl ktorrent.Store ∅ ch.
Proof.
  unfold ktorrent.getData.
  destruct (get_search url) as [| |anchors]; try done. cbv zeta.
  set (jobs := omap ktorrent.topic anchors).
  set (p := Pool.run _ _ _ _ _).
  destruct (fatal jobs (Pool.workers p)) eqn:Hf; [done|].
  destruct (Pool.joined jobs p) eqn:Hj; [|done]. intros [= <-].
  destruct (PoolFacts.joined_spec _ _ _ _ _ (getData_pool_inv jobs sched) Hj)
    as (Hfin & Hlen & _ & Hc).
  exists anchors, (Pool.ch p). split; [done|]. split; [|split; [|done]].
  - apply Forall_forall. intros th Hth.
    destruct (join th) as [u|] eqn:Hu; [eauto|].
    rewrite (fatal_finished jobs (Pool.workers p)) in Hf; [done|done|done|].
    apply Exists_exists. eauto.
  - fold p in Hc. rewrite Hc.
    by rewrite <- (results_omap stored jobs).
Qed.

End CrawlFacts.

Section CrawlMore.
Context `{Wb : Web}.
Variable TorrentURL : gmap string string.

#[local] Abbreviation join := (ktorrent.join TorrentURL).
#[local] Abbreviation stored := (fun th : string * string =>
                                   ktorrent.getData_body TorrentURL 0%nat th).

Lemma Crawl_ended `{Rng : MapRange} keyword sched m :
  ktorrent.Crawl TorrentURL keyword sched = Ended (Some m) ->
  ktorrent.getData TorrentURL (ktorrent.SearchURL TorrentURL keyword) sched
    = Ended (Some m).
Proof.
  unfold ktorrent.Crawl.
  destruct (ktorrent.getData _ _ _) as [| |[data|]]; try done.
  intros [= <-]. by rewrite foldl_Store_range.
Qed.

Lemma stored_titles_fst (anchors : list anchor) :
  Forall (fun th => is_Some (join th)) (omap ktorrent.topic anchors) ->
  (omap stored (omap ktorrent.topic anchors)).*1 = stored_titles anchors.
Proof.
  intros Hall. rewrite (stored_all TorrentURL _ Hall). unfold stored_titles.
  by rewrite <- list_fmap_compose.
Qed.

Lemma elem_of_topics title href (anchors : list anchor) :
  (title, href) ∈ omap ktorrent.topic anchors <->
  mkAnchor (Some title) (Some href) ∈ anchors.
Proof.
  rewrite list_elem_of_omap. split.
  - intros ([[t|] [h|]] & Hin & Ht); try done.
    unfold ktorrent.topic in Ht. simpl in Ht. by simplify_eq.
  - intros Hin. by exists (mkAnchor (Some title) (Some href)).
Qed.

End CrawlMore.

(** X25: a call of [Crawl] that returns a map has found the search page and
    could join every link; the keys of the map are exactly the trimmed
    titles of the elements that have both a title and a link, and the value
    under a key is what [GetMagnet] answered for the trimmed, joined link of
    an element with that title. *)
Theorem Crawl_records `{Web} `{MapRange} (TorrentURL : gmap string string)
  (keyword : string) (sched : list Pool.action) (m : gmap string string) :
  ktorrent.Crawl TorrentURL keyword sched = Ended (Some m) ->
  exists anchors,
    get_search (ktorrent.SearchURL TorrentURL keyword) = Topics anchors /\
    (forall k, is_Some (m !! k) <-> k ∈ stored_titles anchors) /\
    (forall k v,
       m !! k = Some v ->
       exists title href fullURL,
         mkAnchor (Some title) (Some href) ∈ anchors /\
         TrimSpace title = k /\
         URLJoin (url_of TorrentURL "torrenttop") href = Some fullURL /\
         v = GetMagnet (get_detail (TrimSpace fullURL))).
Proof.
  intros Hrun%Crawl_ended.
  destruct (getData_ended _ _ _ _ Hrun) as (anchors & ch & Hs & Hall & Hp & ->).
  exists anchors. split; [done|]. split.
  - intros k. rewrite foldl_Store_keys, lookup_empty, Hp.
    rewrite (stored_titles_fst TorrentURL anchors Hall).
    split; [intros [[? ?]|?]; done|by right].
  - intros k v [Hm|Hin]%foldl_Store_values; [by rewrite lookup_empty in Hm|].
    rewrite Hp in Hin. apply list_elem_of_omap in Hin as ([title href] & Hth & Hb).
    unfold ktorrent.getData_body, ktorrent.join in Hb. simpl in Hb.
    destruct (URLJoin _ href) as [fullURL|] eqn:Hj; simplify_eq/=.
    exists title, href, fullURL. by rewrite <- elem_of_topics.
Qed.

Lemma Crawl_records_witness :
  exists m,
    @ktorrent.Crawl demo_web fixed_range demo_urls "ubuntu"
      (Pool.drain (replicate 2 ())) = Ended (Some m) /\
    forall k,
      is_Some (m !! k) <-> k ∈ ["ubuntu 24.04"; "ubuntu 20.04"].
Proof.
  assert (exists m,
            @ktorrent.Crawl demo_web fixed_range demo_urls "ubuntu"
              (Pool.drain (replicate 2 ())) = Ended (Some m))
    as [m Hrun] by (eexists; vm_compute; reflexivity).
  exists m. split; [done|].
  destruct (@Crawl_records demo_web fixed_range demo_urls "ubuntu" _ m Hrun)
    as (anchors & Hs & Hkeys & _).
  assert (anchors = [mkAnchor (Some "ubuntu 24.04") (Some "1.html");
                     mkAnchor (Some "ubuntu 22.04") None;
                     mkAnchor (Some "ubuntu 20.04") (Some "3.html")]) as ->.
  { vm_compute in Hs. by inversion Hs. }
  exact Hkeys.
Defined.

(** X26: when the search page has no two usable elements with the same
    trimmed title, the map [Crawl] returns does not depend on the order in
    which the goroutines store their records, nor on the order in which
    [Range] visits them: any two runs that return a map return the same
    one, with one record for every usable element. *)
Theorem Crawl_schedule_independent `{Web} (R1 R2 : MapRange)
  (TorrentURL : gmap string string) (keyword : string)
  (anchors : list anchor) (sched1 sched2 : list Pool.action)
  (m1 m2 : gmap string string) :
  get_search (ktorrent.SearchURL TorrentURL keyword) = Topics anchors ->
  NoDup (stored_titles anchors) ->
  @ktorrent.Crawl _ R1 TorrentURL keyword sched1 = Ended (Some m1) ->
  @ktorrent.Crawl _ R2 TorrentURL keyword sched2 = Ended (Some m2) ->
  m1 = m2 /\ size m1 = length (omap ktorrent.topic anchors).
Proof.
  intros Hs Hnd Hrun1%Crawl_ended Hrun2%Crawl_ended.
  destruct (getData_ended _ _ _ _ Hrun1) as (a1 & ch1 & Hs1 & Hall & Hp1 & ->).
  destruct (getData_ended _ _ _ _ Hrun2) as (a2 & ch2 & Hs2 & _ & Hp2 & ->).
  rewrite Hs in Hs1, Hs2. injection Hs1 as <-. injection Hs2 as <-.
  assert (NoDup ch1.*1) as Hnd1.
  { by rewrite Hp1, (stored_titles_fst TorrentURL anchors Hall). }
  split.
  - apply foldl_Store_perm; [done|]. by rewrite Hp1, Hp2.
  - rewrite (foldl_Store_list_to_map ch1 Hnd1).
    rewrite (map_size_list_to_map ch1 Hnd1), Hp1.
    by rewrite (stored_all TorrentURL _ Hall), length_fmap.
Qed.

Lemma Crawl_schedule_independent_witness :
  exists m,
    @ktorrent.Crawl demo_web fixed_range demo_urls "ubuntu"
      (Pool.drain (replicate 2 ())) = Ended (Some m) /\
    @ktorrent.Crawl demo_web reversed_range demo_urls "ubuntu"
      ([Pool.Coord; Pool.Coord; Pool.Run 1; Pool.Run 1]
       ++ Pool.drain (replicate 2 ())) = Ended (Some m) /\
    size m = 2%nat.
Proof.
  assert (exists m,
            @ktorrent.Crawl demo_web fixed_range demo_urls "ubuntu"
              (Pool.drain (replicate 2 ())) = Ended (Some m))
    as [m1 Hrun1] by (eexists; vm_compute; reflexivity).
  assert (exists m,
            @ktorrent.Crawl demo_web reversed_range demo_urls "ubuntu"
              ([Pool.Coord; Pool.Coord; Pool.Run 1; Pool.Run 1]
               ++ Pool.drain (replicate 2 ())) = Ended (Some m))
    as [m2 Hrun2] by (eexists; vm_compute; reflexivity).
  assert (@get_search demo_web (@ktorrent.SearchURL demo_web demo_urls "ubuntu")
          = Topics [mkAnchor (Some "ubuntu 24.04") (Some "1.html");
                    mkAnchor (Some "ubuntu 22.04") None;
                    mkAnchor (Some "ubuntu 20.04") (Some "3.html")]) as Hs
    by (vm_compute; reflexivity).
  assert (NoDup (@stored_titles demo_web
                   [mkAnchor (Some "ubuntu 24.04") (Some "1.html");
                    mkAnchor (Some "ubuntu 22.04") None;
                    mkAnchor (Some "ubuntu 20.04") (Some "3.html")])) as Hnd.
  { apply (bool_decide_unpack _). vm_compute. exact I. }
  destruct (@Crawl_schedule_independent demo_web fixed_range reversed_range
              demo_urls "ubuntu" _ _ _ m1 m2 Hs Hnd Hrun1 Hrun2)
    as [Heq Hsize].
  exists m1. split; [done|]. split; [by rewrite Heq|exact Hsize].
Defined.

(** X27: how [Crawl] ends.  It returns [nil] exactly when the search page
    gives no response or does not parse, and then at once; when the page is
    read, every run can be completed, and the completed run returns a map
    if every usable link can be joined to the site's URL, and otherwise has
    ended the process in [URLJoin]. *)
Theorem Crawl_ending `{Web} `{MapRange} (TorrentURL : gmap string string)
  (keyword : string) (sched : list Pool.action) :
  (ktorrent.Crawl TorrentURL keyword sched = Ended None <->
   get_search (ktorrent.SearchURL TorrentURL keyword) = NoResponse \/
   get_search (ktorrent.SearchURL TorrentURL keyword) = NoDocument) /\
  (forall anchors,
     get_search (ktorrent.SearchURL TorrentURL keyword) = Topics anchors ->
     let jobs := omap ktorrent.topic anchors in
     (Forall (fun th => is_Some (ktorrent.join TorrentURL th)) jobs ->
      exists m,
        ktorrent.Crawl TorrentURL keyword (sched ++ Pool.drain jobs)
          = Ended (Some m)) /\
     (Exists (fun th => ktorrent.join TorrentURL th = None) jobs ->
      ktorrent.Crawl TorrentURL keyword (sched ++ Pool.drain jobs) = Exited)).
Proof.
  unfold ktorrent.Crawl, ktorrent.getData.
  destruct (get_search _) as [| |anchors] eqn:Hs.
  - split; [split; [by left|done]|done].
  - split; [split; [by right|done]|done].
  - cbv zeta. split.
    + split; [|by intros [?|?]].
      destruct (ktorrent.fatal _ _ _); [done|].
      by destruct (Pool.joined _ _).
    + intros ? [= <-]. set (jobs := omap ktorrent.topic anchors).
      set (p := Pool.run _ _ _ (sched ++ _) _).
      assert (Pool.joined jobs p = true) as Hj.
      { unfold p. rewrite PoolFacts.run_app.
        apply (PoolFacts.drain_joined _ _ _ 0), getData_pool_inv. }
      destruct (PoolFacts.joined_spec _ _ _ _ _
                  (getData_pool_inv TorrentURL jobs _) Hj)
        as (Hfin & Hlen & _ & _).
      fold p in Hfin, Hlen. split.
      * intros Hall. rewrite Hj.
        destruct (ktorrent.fatal _ _ _) eqn:Hf; [|eauto].
        apply fatal_sound, Exists_exists in Hf as (th & Hth & Hnone).
        rewrite Forall_forall in Hall. destruct (Hall th Hth) as [u Hu].
        congruence.
      * intros Hex. by rewrite (fatal_finished TorrentURL jobs _ Hfin Hlen Hex).
Qed.

Lemma Crawl_ending_witness :
  @ktorrent.Crawl demo_web fixed_range demo_urls "debian"
    ([Pool.Coord] ++ Pool.drain (replicate 1 ())) = Exited.
Proof.
  refine (proj2 (proj2 (@Crawl_ending demo_web fixed_range demo_urls "debian"
                          [Pool.Coord])
                   [mkAnchor (Some "debian 12") (Some "://4.html")] _) _).
  - vm_compute. reflexivity.
  - apply Exists_cons_hd. vm_compute. reflexivity.
Defined.

(** ** [GetMagnet], and what the dispatcher keeps of its answers *)

Lemma foldl_pick_none (rest : list (list (option string))) (h : string) :
  Forall (fun anchors => first_magnet anchors = None) rest ->
  foldl (fun magnet anchors =>
           match first_magnet anchors with
           | Some h => h
           | None => magnet
           end) h rest = h.
Proof. induction 1 as [|anchors rest Hn _ IH]; simpl; [done|by rewrite Hn]. Qed.

(** X28: [GetMagnet] answers with the link of the last magnet icon that has
    one: the icons after it that have none do not matter, and neither does
    anything before it. *)
Theorem GetMagnet_last_icon_wins (icons rest : list (list (option string)))
  (anchors : list (option string)) (h : string) :
  first_magnet anchors = Some h ->
  Forall (fun anchors => first_magnet anchors = None) rest ->
  GetMagnet (Page (icons ++ anchors :: rest)) = h /\
  String.prefix "magnet:?" h = true.
Proof.
  intros Hh Hrest. pose proof (first_magnet_prefix _ _ Hh) as Hp.
  split; [|done]. unfold GetMagnet. rewrite foldl_app. simpl. rewrite Hh.
  rewrite (foldl_pick_none rest h Hrest).
  destruct (String.eqb h "") eqn:He; [|done].
  apply String.eqb_eq in He. subst h. done.
Qed.

Lemma GetMagnet_last_icon_wins_witness :
  GetMagnet (Page [[Some "magnet:?xt=urn:btih:1"];
                   [None; Some "/login"; Some "magnet:?xt=urn:btih:2";
                    Some "magnet:?xt=urn:btih:3"];
                   [Some "/help"]])
    = "magnet:?xt=urn:btih:2".
Proof.
  refine (proj1 (GetMagnet_last_icon_wins
                   [[Some "magnet:?xt=urn:btih:1"]] [[Some "/help"]]
                   [None; Some "/login"; Some "magnet:?xt=urn:btih:2";
                    Some "magnet:?xt=urn:btih:3"]
                   "magnet:?xt=urn:btih:2" _ _)).
  - vm_compute. reflexivity.
  - repeat constructor.
Defined.

Lemma magnetless_spec page :
  magnetless page = true <-> GetMagnet page = no_magnet.
Proof.
  destruct page as [|err|icons]; simpl.
  - split; [done|]. by vm_compute.
  - split; [done|]. unfold no_magnet. simpl. done.
  - rewrite (proj1 (GetMagnet_sentinel icons)).
    rewrite forallb_forall, Forall_forall. split.
    + intros Hall anchors Hin. apply list_elem_of_In in Hin.
      by apply (bool_decide_eq_true_1 _), Hall.
    + intros Hall anchors Hin. apply bool_decide_eq_true_2, Hall.
      by apply list_elem_of_In.
Qed.

(** X29: of the answers of [GetMagnet], the loop of [CollectData] drops
    exactly the one for a page without a magnet link.  The texts for a page
    that could not be fetched or parsed are stored under the normalized
    title as if they were magnet links. *)
Theorem only_magnetless_is_dropped (m : gmap string string) (title : string)
  (page : detail_page) :
  insert_record m (title, GetMagnet page) =
    if magnetless page then m else <[normalize title := GetMagnet page]> m.
Proof.
  unfold insert_record. simpl.
  destruct (magnetless page) eqn:Hm.
  - apply magnetless_spec in Hm. by rewrite Hm.
  - destruct (String.eqb (GetMagnet page) no_magnet) eqn:He; [|done].
    apply String.eqb_eq, magnetless_spec in He. congruence.
Qed.
